(** * road-tracker: the job repository of [server.js], embedded and verified

    The service keeps "job" rows in a remote table (reached over REST by
    [supabaseRequest]), computes for each job the instant at which it
    expires, and purges expired rows.  This development embeds the
    functions of [server.js] as executable definitions and proves the
    properties of its specification about them.

    Conventions of the embedding.
    - JavaScript numbers are integers ([Z]); the embedding agrees with the
      double arithmetic of the source as long as every intermediate value
      is a safe integer.
    - A [Date] object is its time value, [option Z]: milliseconds since
      the epoch, [None] for an invalid date (time value NaN).
    - Effects (the remote table, the clock, the console, the outcome of
      each network exchange) are threaded through a state-and-exception
      monad [M] over an explicit [World].  An [async] function is a
      computation in [M], [await] its bind; a call runs to completion,
      the interleaving of concurrent requests is not modelled.
    - The remote store is not part of the repository: it is a table of
      rows on which the requests of the server act as the specification
      describes the persistence adapter's contract. *)

From Stdlib Require Import ZArith String Ascii List Lia Bool.
From stdpp Require Import base option gmap strings list.

Local Open Scope string_scope.
Local Open Scope Z_scope.

(** ** The [Date] built-in, as far as [server.js] uses it

    After ECMAScript: time values, [TimeClip], the date-time string
    format that [Date.parse] reads and [toISOString] writes. *)

Module Date.

Definition msPerDay : Z := 86400000.
Definition msPerHour : Z := 3600000.
Definition msPerMinute : Z := 60000.
Definition msPerSecond : Z := 1000.

(** The largest magnitude of a time value: 8.64e15 ms (100 000 000 days). *)
Definition maxTime : Z := 8640000000000000.

(** [TimeClip]: a time value outside the range is NaN. *)
Definition TimeClip (t : Z) : option Z :=
  if (- maxTime <=? t) && (t <=? maxTime) then Some t else None.

Definition Day (t : Z) : Z := t / msPerDay.
Definition TimeWithinDay (t : Z) : Z := t mod msPerDay.

(** Day number (days since 1970-01-01) of a proleptic Gregorian date;
    [m] is 1-based.  Years are counted from March so that the leap day
    comes last; 146097 is the number of days of a 400-year era. *)
Definition days_from_civil (y m d : Z) : Z :=
  let y' := if m <=? 2 then y - 1 else y in
  let era := y' / 400 in
  let yoe := y' mod 400 in
  let mp := (m + 9) mod 12 in
  let doy := (153 * mp + 2) / 5 + d - 1 in
  let doe := yoe * 365 + yoe / 4 - yoe / 100 + doy in
  era * 146097 + doe - 719468.

(** The inverse: year, month (1-based) and day of the month of a day
    number ([YearFromTime], [MonthFromTime] + 1, [DateFromTime]). *)
Definition civil_of_doe (doe : Z) : Z * Z * Z :=
  let yoe := (doe - doe / 1460 + doe / 36524 - doe / 146096) / 365 in
  let doy := doe - (365 * yoe + yoe / 4 - yoe / 100) in
  let mp := (5 * doy + 2) / 153 in
  let d := doy - (153 * mp + 2) / 5 + 1 in
  let m := if mp <? 10 then mp + 3 else mp - 9 in
  (yoe, m, d).

Definition civil_from_days (z : Z) : Z * Z * Z :=
  let z' := z + 719468 in
  let era := z' / 146097 in
  let '(yoe, m, d) := civil_of_doe (z' mod 146097) in
  (yoe + era * 400 + (if m <=? 2 then 1 else 0), m, d).

(** [MakeDay], with a 1-based month in range; a day of the month past
    the end of the month runs over into the next one. *)
Definition MakeDay (year month date : Z) : Z :=
  days_from_civil year month 1 + date - 1.

Definition MakeTime (hour min sec ms : Z) : Z :=
  hour * msPerHour + min * msPerMinute + sec * msPerSecond + ms.

Definition MakeDate (day time : Z) : Z := day * msPerDay + time.

(** *** Decimal fields *)

Definition digit_char (k : Z) : ascii := ascii_of_nat (48 + Z.to_nat k).

Definition digit (c : ascii) : option Z :=
  let n := Z.of_nat (nat_of_ascii c) in
  if (48 <=? n) && (n <=? 57) then Some (n - 48) else None.

Definition pad2 (n : Z) : string :=
  String (digit_char (n / 10)) (String (digit_char (n mod 10)) "").
Definition pad3 (n : Z) : string :=
  String (digit_char (n / 100)) (pad2 (n mod 100)).
Definition pad4 (n : Z) : string :=
  String (digit_char (n / 1000)) (pad3 (n mod 1000)).
Definition pad6 (n : Z) : string :=
  pad2 (n / 10000) +:+ pad4 (n mod 10000).

(** [Date.prototype.toISOString] on a valid time value:
    [YYYY-MM-DDTHH:mm:ss.sssZ], the year as [±YYYYYY] outside 0..9999. *)
Definition year_string (y : Z) : string :=
  if (0 <=? y) && (y <=? 9999) then pad4 y
  else if y <? 0 then "-" +:+ pad6 (- y)
  else "+" +:+ pad6 y.

Definition iso_string (t : Z) : string :=
  let '(y, m, d) := civil_from_days (Day t) in
  let tod := TimeWithinDay t in
  year_string y +:+ "-" +:+ pad2 m +:+ "-" +:+ pad2 d +:+ "T"
    +:+ pad2 (tod / msPerHour) +:+ ":"
    +:+ pad2 (tod mod msPerHour / msPerMinute) +:+ ":"
    +:+ pad2 (tod mod msPerMinute / msPerSecond) +:+ "."
    +:+ pad3 (tod mod msPerSecond) +:+ "Z".

(** *** Reading the date-time string format *)

Definition take2 (s : string) : option (Z * string) :=
  match s with
  | String a (String b r) => x ← digit a; y ← digit b; Some (10 * x + y, r)
  | _ => None
  end.

Definition take3 (s : string) : option (Z * string) :=
  match s with
  | String a r => x ← digit a; '(n, r') ← take2 r; Some (100 * x + n, r')
  | _ => None
  end.

Definition take4 (s : string) : option (Z * string) :=
  match s with
  | String a r => x ← digit a; '(n, r') ← take3 r; Some (1000 * x + n, r')
  | _ => None
  end.

Definition take6 (s : string) : option (Z * string) :=
  '(hi, r) ← take2 s; '(lo, r') ← take4 r; Some (10000 * hi + lo, r').

(** [expect c s]: the rest of [s] after its first character [c]. *)
Definition expect (c : ascii) (s : string) : option string :=
  match s with
  | String a r => if Ascii.eqb a c then Some r else None
  | EmptyString => None
  end.

Definition in_range (lo hi n : Z) : option Z :=
  if (lo <=? n) && (n <=? hi) then Some n else None.

(** The year: four digits, or a sign and six digits ([-000000] is not a
    year). *)
Definition parse_year (s : string) : option (Z * string) :=
  match expect "+" s, expect "-" s with
  | Some r, _ => take6 r
  | None, Some r => '(y, r') ← take6 r; if y =? 0 then None else Some (- y, r')
  | None, None => take4 s
  end.

(** The host's offset from UTC in ms, used for a date-time without an
    offset; the service's hosts keep UTC. *)
Definition LocalTZA : Z := 0.

(** After the year: nothing, [-MM], or [-MM-DD]. *)
Definition parse_month_day (s : string) : option (Z * Z * string) :=
  match expect "-" s with
  | None => Some (1, 1, s)
  | Some r =>
      '(m, r1) ← take2 r; m' ← in_range 1 12 m;
      match expect "-" r1 with
      | None => Some (m', 1, r1)
      | Some r2 =>
          '(d, r3) ← take2 r2; d' ← in_range 1 31 d; Some (m', d', r3)
      end
  end.

(** After [HH:mm]: nothing, [:ss], or [:ss.sss]. *)
Definition parse_sec_ms (s : string) : option (Z * Z * string) :=
  match expect ":" s with
  | None => Some (0, 0, s)
  | Some r =>
      '(sec, r1) ← take2 r; sec' ← in_range 0 59 sec;
      match expect "." r1 with
      | None => Some (sec', 0, r1)
      | Some r2 => '(ms, r3) ← take3 r2; Some (sec', ms, r3)
      end
  end.

Definition parse_hhmm (s : string) : option (Z * Z * string) :=
  '(h, r1) ← take2 s;
  r2 ← expect ":" r1;
  '(m, r3) ← take2 r2; m' ← in_range 0 59 m;
  Some (h, m', r3).

(** The offset: [Z], [+HH:mm], [-HH:mm], or none (local time). *)
Definition parse_offset (s : string) : option (Z * string) :=
  let hhmm (r : string) : option (Z * string) :=
    '(h, m, r') ← parse_hhmm r; h' ← in_range 0 23 h;
    Some (h' * msPerHour + m * msPerMinute, r') in
  match expect "Z" s, expect "+" s, expect "-" s with
  | Some r, _, _ => Some (0, r)
  | None, Some r, _ => hhmm r
  | None, None, Some r => '(o, r') ← hhmm r; Some (- o, r')
  | None, None, None => Some (LocalTZA, s)
  end.

(** The time of day in ms, less the offset, after the [T]; [24:00:00] is
    the end of the day. *)
Definition parse_time (s : string) : option (Z * string) :=
  '(h, mi, r1) ← parse_hhmm s; h' ← in_range 0 24 h;
  '(sec, ms, r2) ← parse_sec_ms r1;
  '(off, r3) ← parse_offset r2;
  if (h' =? 24) && negb ((mi =? 0) && (sec =? 0) && (ms =? 0)) then None
  else Some (MakeTime h' mi sec ms - off, r3).

(** [Date.parse] on the date-time string format (date-only forms are
    UTC); a string outside the format is not a date.  The fallback
    formats an engine may accept beyond it are not modelled. *)
Definition parse (s : string) : option Z :=
  '(y, r1) ← parse_year s;
  '(m, d, r2) ← parse_month_day r1;
  '(time, r3) ← match expect "T" r2 with
                | Some r => parse_time r
                | None => Some (0, r2)
                end;
  if String.eqb r3 "" then TimeClip (MakeDate (MakeDay y m d) time)
  else None.

End Date.


(** ** Data model *)

(** A segment and a delay; only [duration] and [minutes] are ever read by
    the server, whatever else the objects carry travels along untouched.
    [None] is a missing field. *)
Record Segment := { duration : option Z }.
Record Delay := { minutes : option Z }.

(** The job as it arrives in a request body (camelCase); [None] is an
    absent field ([undefined]).  The [id] is always supplied by the
    caller. *)
Module Job.
Record t := {
  id : string;
  name : option string;
  startTime : option string;
  segments : option (list Segment);
  delays : option (list Delay);
  nextSegmentId : option Z;
  createdAt : option string;
  lastUpdated : option string;
  expiresAt : option string
}.
End Job.

(** The row as the table holds it (snake_case); [None] is SQL NULL. *)
Module DbRow.
Record t := {
  job_id : string;
  name : option string;
  start_time : option string;
  segments : option (list Segment);
  delays : option (list Delay);
  next_segment_id : option Z;
  created_at : option string;
  last_updated : option string;
  expires_at : option string
}.
End DbRow.

(** The columns of the table, and the values a request body gives them. *)
Inductive Column :=
  | job_id | name | start_time | segments | delays
  | next_segment_id | created_at | last_updated | expires_at.

Inductive Value :=
  | VNull
  | VString (s : string)
  | VNumber (n : Z)
  | VSegments (l : list Segment)
  | VDelays (l : list Delay).

(** An object literal sent as a request body: its keys in order. *)
Definition RowObject := list (Column * Value).

Definition Column_eqb (a b : Column) : bool :=
  match a, b with
  | job_id, job_id | name, name | start_time, start_time
  | segments, segments | delays, delays
  | next_segment_id, next_segment_id | created_at, created_at
  | last_updated, last_updated | expires_at, expires_at => true
  | _, _ => false
  end.

(** ** The remote table

    Modelled from the spec: the store behind [supabaseRequest] is an
    external REST service, of which the repository holds no code.  It is
    modelled as the specification describes the contract of the
    persistence adapter: find, insert, patch and delete on the rows of a
    table, with equality and comparison filters on columns ("job_id
    equals X", "expires_at less-than T and expires_at is not null"), any
    non-success response making the operation fail. *)

(** The query string of an endpoint: [col=eq.v], [col=lt.v],
    [col=not.is.null], [order=col.desc]. *)
Inductive Param :=
  | op_eq (c : Column) (v : string)
  | op_lt (c : Column) (v : string)
  | op_not_is_null (c : Column)
  | order_desc (c : Column).

Record Endpoint := { resource : string; query : list Param }.

Record Request := {
  method : string;
  endpoint : Endpoint;
  body : option RowObject
}.

(** What comes back: a JSON array of rows, or some other JSON value. *)
Inductive Json :=
  | JRows (rows : list DbRow.t)
  | JOther (text : string).

(** The body of a response: empty, JSON, or text that does not parse. *)
Inductive Data :=
  | NoData
  | JsonData (v : Json)
  | RawData (text : string).

(** The outcome of one exchange with the store. *)
Inductive Reply :=
  | Response (statusCode : Z) (data : Data)
  | NoResponse (message : string).

(** An exchange that goes wrong before the store acts on the request: the
    store cannot be reached, it refuses with a status of 400 or more
    ([400 + over]), or what comes back is not JSON. *)
Inductive Fault :=
  | unreachable (message : string)
  | refused (over : N) (data : Data)
  | garbled (statusCode : Z) (text : string).

Definition reply_of (f : Fault) : Reply :=
  match f with
  | unreachable message => NoResponse message
  | refused over data => Response (400 + Z.of_N over) data
  | garbled statusCode text => Response statusCode (RawData text)
  end.

Module Store.

Definition Table := list DbRow.t.

Definition text_column (c : Column) (r : DbRow.t) : option string :=
  match c with
  | job_id => Some (DbRow.job_id r)
  | name => DbRow.name r
  | start_time => DbRow.start_time r
  | created_at => DbRow.created_at r
  | last_updated => DbRow.last_updated r
  | expires_at => DbRow.expires_at r
  | _ => None
  end.

(** The instant a timestamp column holds. *)
Definition time_column (c : Column) (r : DbRow.t) : option Z :=
  match c with
  | start_time | created_at | last_updated | expires_at =>
      s ← text_column c r; Date.parse s
  | _ => None
  end.

Definition is_null (c : Column) (r : DbRow.t) : bool :=
  match c with
  | job_id => false
  | name => bool_decide (DbRow.name r = None)
  | start_time => bool_decide (DbRow.start_time r = None)
  | segments => match DbRow.segments r with None => true | _ => false end
  | delays => match DbRow.delays r with None => true | _ => false end
  | next_segment_id => bool_decide (DbRow.next_segment_id r = None)
  | created_at => bool_decide (DbRow.created_at r = None)
  | last_updated => bool_decide (DbRow.last_updated r = None)
  | expires_at => bool_decide (DbRow.expires_at r = None)
  end.

(** One filter of the query string on one row; a comparison with NULL
    is not true. *)
Definition holds (p : Param) (r : DbRow.t) : bool :=
  match p with
  | op_eq c v =>
      match text_column c r with Some s => String.eqb s v | None => false end
  | op_lt c v =>
      match time_column c r, Date.parse v with
      | Some a, Some b => a <? b
      | _, _ => false
      end
  | op_not_is_null c => negb (is_null c r)
  | order_desc _ => true
  end.

(** A row is selected when every filter holds of it. *)
Definition selected (q : list Param) (r : DbRow.t) : bool :=
  forallb (λ p, holds p r) q.

(** [order=created_at.desc]: latest first, NULL before everything. *)
Definition before_desc (c : Column) (a b : DbRow.t) : bool :=
  match time_column c a, time_column c b with
  | None, _ => true
  | Some _, None => false
  | Some x, Some y => y <=? x
  end.

Fixpoint insert_desc (c : Column) (r : DbRow.t) (l : Table) : Table :=
  match l with
  | [] => [r]
  | x :: l' => if before_desc c r x then r :: l else x :: insert_desc c r l'
  end.

Definition sort_desc (c : Column) (l : Table) : Table :=
  foldr (insert_desc c) [] l.

Definition ordered (q : list Param) (l : Table) : Table :=
  foldr (λ p acc, match p with order_desc c => sort_desc c acc | _ => acc end)
        l q.

(** Writing one key of a body into a row; [None] when the value does not
    have the column's type. *)
Definition set_column (r : DbRow.t) (kv : Column * Value) : option DbRow.t :=
  let '(DbRow.Build_t i n st sg dl ns ca lu ex) := r in
  match kv with
  | (job_id, VString s) => Some (DbRow.Build_t s n st sg dl ns ca lu ex)
  | (name, VString s) => Some (DbRow.Build_t i (Some s) st sg dl ns ca lu ex)
  | (name, VNull) => Some (DbRow.Build_t i None st sg dl ns ca lu ex)
  | (start_time, VString s) => Some (DbRow.Build_t i n (Some s) sg dl ns ca lu ex)
  | (start_time, VNull) => Some (DbRow.Build_t i n None sg dl ns ca lu ex)
  | (segments, VSegments l) => Some (DbRow.Build_t i n st (Some l) dl ns ca lu ex)
  | (segments, VNull) => Some (DbRow.Build_t i n st None dl ns ca lu ex)
  | (delays, VDelays l) => Some (DbRow.Build_t i n st sg (Some l) ns ca lu ex)
  | (delays, VNull) => Some (DbRow.Build_t i n st sg None ns ca lu ex)
  | (next_segment_id, VNumber k) => Some (DbRow.Build_t i n st sg dl (Some k) ca lu ex)
  | (next_segment_id, VNull) => Some (DbRow.Build_t i n st sg dl None ca lu ex)
  | (created_at, VString s) => Some (DbRow.Build_t i n st sg dl ns (Some s) lu ex)
  | (created_at, VNull) => Some (DbRow.Build_t i n st sg dl ns None lu ex)
  | (last_updated, VString s) => Some (DbRow.Build_t i n st sg dl ns ca (Some s) ex)
  | (last_updated, VNull) => Some (DbRow.Build_t i n st sg dl ns ca None ex)
  | (expires_at, VString s) => Some (DbRow.Build_t i n st sg dl ns ca lu (Some s))
  | (expires_at, VNull) => Some (DbRow.Build_t i n st sg dl ns ca lu None)
  | _ => None
  end.

(** All keys of a body, in order. *)
Definition assign (o : RowObject) (r : DbRow.t) : option DbRow.t :=
  foldl (λ acc kv, r' ← acc; set_column r' kv) (Some r) o.

(** A new row: the primary key is required, every other column starts
    out NULL. *)
Definition fresh (o : RowObject) : option DbRow.t :=
  match find (λ kv, Column_eqb (fst kv) job_id) o with
  | Some (_, VString i) =>
      assign o (DbRow.Build_t i None None None None None None None None)
  | _ => None
  end.

(** PATCH: the selected rows take the body's keys, the others stay. *)
Fixpoint patch (q : list Param) (o : RowObject) (t : Table) : option Table :=
  match t with
  | [] => Some []
  | r :: t' =>
      r' ← (if selected q r then assign o r else Some r);
      t'' ← patch q o t';
      Some (r' :: t'')
  end.

(** Modelled from the spec: the store serving one request on the table
    [jobs], the reply and the table afterwards.  GET finds the selected
    rows, POST inserts the row of the body, PATCH writes the keys of the
    body into the selected rows, DELETE removes the selected rows; every
    success answers with the rows concerned
    ([Prefer: return=representation]). *)
Definition serve (rq : Request) (t : Table) : Reply * Table :=
  let q := query (endpoint rq) in
  if negb (String.eqb (resource (endpoint rq)) "jobs") then
    (Response 404 (JsonData (JOther "relation does not exist")), t)
  else if String.eqb (method rq) "GET" then
    (Response 200 (JsonData (JRows (ordered q (filter (λ r, selected q r) t)))), t)
  else if String.eqb (method rq) "POST" then
    match body rq ≫= fresh with
    | Some r => (Response 201 (JsonData (JRows [r])), (t ++ [r])%list)
    | None => (Response 400 (JsonData (JOther "invalid input")), t)
    end
  else if String.eqb (method rq) "PATCH" then
    match body rq ≫= (λ o, patch q o t) with
    | Some t' =>
        (Response 200 (JsonData (JRows (filter (λ r, selected q r) t'))), t')
    | None => (Response 400 (JsonData (JOther "invalid input")), t)
    end
  else if String.eqb (method rq) "DELETE" then
    (Response 200 (JsonData (JRows (filter (λ r, selected q r) t))),
     filter (λ r, negb (selected q r)) t)
  else (Response 405 (JsonData (JOther "method not allowed")), t).

End Store.

(** ** Effects *)

(** What the server can throw or be rejected with. *)
Inductive Error :=
  | SupabaseError (statusCode : Z) (data : Data)
  | RequestError (message : string)
  | RangeError (message : string)
  | SyntaxError (message : string).

Inductive Result (A : Type) :=
  | Returned (a : A)
  | Thrown (e : Error).
Arguments Returned {A} a.
Arguments Thrown {A} e.

Inductive LogLine :=
  | console_log_line (text : string)
  | console_error_line (label : string) (err : Error).

(** Everything outside the server: the remote table, the clock with the
    time that passes before each of its next readings, the exchanges with
    the store that will go wrong (and how), the console, and the HTML
    asset on disk if it can be read. *)
Record World := {
  table : Store.Table;
  clock : Z;
  ticks : list N;
  outages : list (option Fault);
  console : list LogLine;
  asset : option string
}.

Definition M (A : Type) : Type := World → Result A * World.

Definition ret {A} (a : A) : M A := λ w, (Returned a, w).

Definition bind {A B} (m : M A) (k : A → M B) : M B :=
  λ w, match m w with
       | (Returned a, w') => k a w'
       | (Thrown e, w') => (Thrown e, w')
       end.

Definition throw {A} (e : Error) : M A := λ w, (Thrown e, w).

(** [try { m } catch (err) { h err }] *)
Definition try_catch {A} (m : M A) (h : Error → M A) : M A :=
  λ w, match m w with
       | (Returned a, w') => (Returned a, w')
       | (Thrown e, w') => h e w'
       end.

Definition lift {A} (r : Result A) : M A := λ w, (r, w).

#[global] Instance M_ret : MRet M := @ret.
#[global] Instance M_bind : MBind M := λ A B k m, bind m k.

(** The reading the next [new Date()] will give, and the world after it. *)
Definition next_reading (w : World) : Z := clock w + Z.of_N (hd 0%N (ticks w)).

Definition after_reading (w : World) : World :=
  {| table := table w; clock := next_reading w; ticks := tl (ticks w);
     outages := outages w; console := console w; asset := asset w |}.

(** [new Date()]: the clock moves on, then is read. *)
Definition new_Date : M (option Z) :=
  λ w, (Returned (Date.TimeClip (next_reading w)), after_reading w).

(** [d.toISOString()] throws on an invalid date. *)
Definition toISOString (d : option Z) : Result string :=
  match d with
  | Some t => Returned (Date.iso_string t)
  | None => Thrown (RangeError "Invalid time value")
  end.

(** The world with one more line on the console. *)
Definition logged (line : LogLine) (w : World) : World :=
  {| table := table w; clock := clock w; ticks := ticks w;
     outages := outages w; console := (console w ++ [line])%list;
     asset := asset w |}.

Definition console_error (label : string) (err : Error) : M unit :=
  λ w, (Returned (), logged (console_error_line label err) w).

Definition console_log (text : string) : M unit :=
  λ w, (Returned (), logged (console_log_line text) w).

(** The world after an exchange that left the table as [t]. *)
Definition after_exchange (t : Store.Table) (w : World) : World :=
  {| table := t; clock := clock w; ticks := ticks w;
     outages := tl (outages w); console := console w; asset := asset w |}.

(** One exchange with the store: it goes wrong as the world has it, or
    the store serves the request. *)
Definition exchange (rq : Request) : M Reply :=
  λ w, match hd None (outages w) with
       | Some f => (Returned (reply_of f), after_exchange (table w) w)
       | None =>
           let '(reply, t') := Store.serve rq (table w) in
           (Returned reply, after_exchange t' w)
       end.

(** ** [server.js] *)

(** What the promise of [supabaseRequest] resolves to: [parsed] ([null] or
    a JSON value) or, when the body does not parse, [data] itself. *)
Inductive Resolved :=
  | RNull
  | RJson (v : Json)
  | RText (data : string).

(** The handler of the response: a status of 400 or more rejects, unless
    the body does not parse, which resolves to the text as it came. *)
Definition settle (reply : Reply) : Result Resolved :=
  match reply with
  | NoResponse msg => Thrown (RequestError msg)
  | Response statusCode NoData =>
      if 400 <=? statusCode then Thrown (SupabaseError statusCode NoData)
      else Returned RNull
  | Response statusCode (JsonData v) =>
      if 400 <=? statusCode then Thrown (SupabaseError statusCode (JsonData v))
      else Returned (RJson v)
  | Response _ (RawData data) => Returned (RText data)
  end.

Definition supabaseRequest (method : string) (endpoint : Endpoint)
    (body : option RowObject) : M Resolved :=
  reply ← exchange {| method := method; endpoint := endpoint; body := body |};
  lift (settle reply).

(** [x || d] on a string and on a number. *)
Definition or_string (x : option string) (d : string) : string :=
  match x with
  | None | Some "" => d
  | Some s => s
  end.

Definition or_number (x : option Z) (d : Z) : Z :=
  match x with
  | None => d
  | Some n => if n =? 0 then d else n
  end.

(** [!x] on a string field. *)
Definition not_string (x : option string) : bool :=
  match x with
  | None | Some "" => true
  | Some _ => false
  end.

Definition rowToJob (row : DbRow.t) : Job.t :=
  {| Job.id := DbRow.job_id row;
     Job.name := DbRow.name row;
     Job.startTime := DbRow.start_time row;
     Job.segments := DbRow.segments row;
     Job.delays := Some (default [] (DbRow.delays row));
     Job.nextSegmentId := DbRow.next_segment_id row;
     Job.createdAt := DbRow.created_at row;
     Job.lastUpdated := DbRow.last_updated row;
     Job.expiresAt := DbRow.expires_at row |}.

(** The numbers of a job are integers here, and the sums are sums of
    integers: they are the sums the source computes as long as every
    number and every partial sum is a safe integer (see [safe_minutes]);
    the date is read by [Date.parse], the date-time string format. *)
Definition calculateExpiresAt (job : Job.t) : Result (option string) :=
  if not_string (Job.startTime job) then Returned None
  else
    let startTime := Job.startTime job ≫= Date.parse in
    let totalMinutes :=
      match Job.segments job with
      | Some ss => fold_left (λ total s, total + or_number (duration s) 0) ss 0
      | None => 0
      end in
    let totalDelays :=
      match Job.delays job with
      | Some ds => fold_left (λ sum d, sum + or_number (minutes d) 0) ds 0
      | None => 0
      end in
    let expiresAt :=
      t ← startTime;
      Date.TimeClip (t + (totalMinutes + totalDelays + 24 * 60) * 60000) in
    match toISOString expiresAt with
    | Returned s => Returned (Some s)
    | Thrown e => Thrown e
    end.

(** A key of an object literal: an [undefined] value leaves the key out of
    the JSON sent. *)
Definition key (c : Column) (v : option Value) : RowObject :=
  match v with
  | Some x => [(c, x)]
  | None => []
  end.

Definition nullable (v : option string) : Value :=
  match v with
  | Some s => VString s
  | None => VNull
  end.

(** The endpoint [jobs?...]; an id is percent-encoded into the query
    string and decoded by the store, the filter holds it as it is. *)
Definition jobs (q : list Param) : Endpoint :=
  {| resource := "jobs"; query := q |}.

(** [o[k] = v] on a plain object [o], for an object [v]; the map holds
    the own properties of [o], which are what [JSON.stringify] writes.
    The key [__proto__] is the accessor of [Object.prototype]: assigning
    to it sets the prototype of [o] and adds no property. *)
Definition set_property (k : string) (v : Job.t) (o : gmap string Job.t)
  : gmap string Job.t :=
  if String.eqb k "__proto__" then o else <[k := v]> o.

Definition getAllJobs : M (gmap string Job.t) :=
  try_catch
    (rows ← supabaseRequest "GET" (jobs [order_desc created_at]) None;
     ret (match rows with
          | RJson (JRows rs) =>
              foldl (λ jobs row, set_property (DbRow.job_id row) (rowToJob row) jobs)
                    ∅ rs
          | _ => ∅
          end))
    (λ err, _ ← console_error "getAllJobs error:" err; ret ∅).

Definition getJob (jobId : string) : M (option Job.t) :=
  try_catch
    (rows ← supabaseRequest "GET" (jobs [op_eq job_id jobId]) None;
     ret (match rows with
          | RJson (JRows (row :: _)) => Some (rowToJob row)
          | _ => None
          end))
    (λ err, _ ← console_error "getJob error:" err; ret None).

(** [row.c], for a string column [c] of an object literal. *)
Definition get_string (c : Column) (row : RowObject) : option string :=
  match find (λ kv, Column_eqb (fst kv) c) row with
  | Some (_, VString s) => Some s
  | _ => None
  end.

(** The object literal [row] of [createJob], once its values are known. *)
Definition createJob_object (job : Job.t) (created updated : string)
    (expires : option string) : RowObject :=
  (key job_id (Some (VString (Job.id job)))
   ++ key name (VString <$> Job.name job)
   ++ key start_time (VString <$> Job.startTime job)
   ++ key segments (VSegments <$> Job.segments job)
   ++ key delays (Some (VDelays (default [] (Job.delays job))))
   ++ key next_segment_id (Some (VNumber (or_number (Job.nextSegmentId job) 6)))
   ++ key created_at (Some (VString created))
   ++ key last_updated (Some (VString updated))
   ++ key expires_at (Some (nullable expires)))%list.

(** [const row = { ... }] in [createJob]: the clock is read for
    [created_at] when the job brings no [createdAt], then for
    [last_updated], then the expiration is computed. *)
Definition createJob_row (job : Job.t) : M RowObject :=
  created ← (if not_string (Job.createdAt job)
             then d ← new_Date; lift (toISOString d)
             else ret (or_string (Job.createdAt job) ""));
  updated ← (d ← new_Date; lift (toISOString d));
  expires ← lift (calculateExpiresAt job);
  ret (createJob_object job created updated expires).

Definition createJob (job : Job.t) : M (option Job.t) :=
  try_catch
    (row ← createJob_row job;
     _ ← supabaseRequest "POST" (jobs []) (Some row);
     ret (Some job))
    (λ err, _ ← console_error "createJob error:" err; ret None).

(** The object literal [row] of [updateJob], once its values are known. *)
Definition updateJob_object (job : Job.t) (updated : string)
    (expires : option string) : RowObject :=
  (key name (VString <$> Job.name job)
   ++ key start_time (VString <$> Job.startTime job)
   ++ key segments (VSegments <$> Job.segments job)
   ++ key delays (Some (VDelays (default [] (Job.delays job))))
   ++ key next_segment_id (Some (VNumber (or_number (Job.nextSegmentId job) 6)))
   ++ key last_updated (Some (VString updated))
   ++ key expires_at (Some (nullable expires)))%list.

(** [const row = { ... }] in [updateJob]. *)
Definition updateJob_row (job : Job.t) : M RowObject :=
  updated ← (d ← new_Date; lift (toISOString d));
  expires ← lift (calculateExpiresAt job);
  ret (updateJob_object job updated expires).

(** [{ ...job, lastUpdated: x }] *)
Definition with_lastUpdated (x : option string) (job : Job.t) : Job.t :=
  {| Job.id := Job.id job;
     Job.name := Job.name job;
     Job.startTime := Job.startTime job;
     Job.segments := Job.segments job;
     Job.delays := Job.delays job;
     Job.nextSegmentId := Job.nextSegmentId job;
     Job.createdAt := Job.createdAt job;
     Job.lastUpdated := x;
     Job.expiresAt := Job.expiresAt job |}.

Definition updateJob (jobId : string) (job : Job.t) : M (option Job.t) :=
  try_catch
    (row ← updateJob_row job;
     _ ← supabaseRequest "PATCH" (jobs [op_eq job_id jobId]) (Some row);
     ret (Some (with_lastUpdated (get_string last_updated row) job)))
    (λ err, _ ← console_error "updateJob error:" err; ret None).

Definition deleteJob (jobId : string) : M bool :=
  try_catch
    (_ ← supabaseRequest "DELETE" (jobs [op_eq job_id jobId]) None;
     ret true)
    (λ err, _ ← console_error "deleteJob error:" err; ret false).

Definition cleanupExpiredJobs : M unit :=
  try_catch
    (now ← (d ← new_Date; lift (toISOString d));
     _ ← supabaseRequest "DELETE"
           (jobs [op_lt expires_at now; op_not_is_null expires_at]) None;
     console_log ("🧹 Cleanup ran at " +:+ now))
    (λ err, console_error "Cleanup error:" err).

(** The timer of the cleanup, in ms: [setInterval(cleanupExpiredJobs, 60 * 60 * 1000)]. *)
Definition cleanupInterval : Z := 60 * 60 * 1000.

(** ** The HTTP server *)

(** An incoming request: the method, the path of its URL, and its body as
    [JSON.parse] reads it ([None] when it does not parse). *)
Record IncomingMessage := {
  req_method : string;
  pathname : string;
  req_body : option Job.t
}.

(** What [res.end] sends; [JSON.stringify] is not spelled out. *)
Inductive Body :=
  | Empty
  | Plain (text : string)
  | JobsJson (jobs : gmap string Job.t)
  | JobJson (job : option Job.t)
  | ErrorJson (error : string)
  | SuccessJson.

Record ServerResponse := {
  status : Z;
  headers : list (string * string);
  sent : Body
}.

Definition setCORSHeaders : list (string * string) :=
  [("Access-Control-Allow-Origin", "*");
   ("Access-Control-Allow-Methods", "GET, POST, PUT, DELETE, OPTIONS");
   ("Access-Control-Allow-Headers", "Content-Type")].

(** [s.split(sep)] *)
Fixpoint split (sep : ascii) (s : string) : list string :=
  match s with
  | EmptyString => [""]
  | String c r =>
      if Ascii.eqb c sep then "" :: split sep r
      else match split sep r with
           | h :: t => String c h :: t
           | [] => [String c ""]
           end
  end.

(** [path.extname] of a plain file name. *)
Definition extname (filepath : string) : string :=
  match reverse (split "." filepath) with
  | ext :: _ :: _ => "." +:+ ext
  | _ => ""
  end.

Definition getMimeType (filepath : string) : string :=
  let ext := extname filepath in
  if String.eqb ext ".html" then "text/html"
  else if String.eqb ext ".js" then "text/javascript"
  else if String.eqb ext ".css" then "text/css"
  else "text/plain".

Definition writeHead (status : Z) (type : option string) (sent : Body)
  : ServerResponse :=
  {| status := status;
     headers := (setCORSHeaders
                 ++ match type with
                    | Some t => [("Content-Type", t)]
                    | None => []
                    end)%list;
     sent := sent |}.

Definition json (status : Z) (sent : Body) : ServerResponse :=
  writeHead status (Some "application/json") sent.

Definition serveStaticFile (filepath : string) : M ServerResponse :=
  λ w, match asset w with
       | None => (Returned (writeHead 404 None (Plain "Not found")), w)
       | Some data =>
           (Returned (writeHead 200 (Some (getMimeType filepath)) (Plain data)), w)
       end.

Definition readBody (req : IncomingMessage) : M Job.t :=
  match req_body req with
  | Some job => ret job
  | None => throw (SyntaxError "Unexpected token in JSON")
  end.

(** [pathname.split('/')[3]] *)
Definition path_id (pathname : string) : string :=
  default "undefined" (split "/" pathname !! 3%nat).

Definition server (req : IncomingMessage) : M ServerResponse :=
  if String.eqb (req_method req) "OPTIONS" then ret (writeHead 200 None Empty)
  else
    let pathname := pathname req in
    try_catch
      (if String.eqb pathname "/" || String.eqb pathname "/index.html" then
         serveStaticFile "road-surfacing-tracker-realtime.html"
       else if String.eqb (req_method req) "GET"
               && String.eqb pathname "/api/jobs" then
         jobs ← getAllJobs;
         ret (json 200 (JobsJson jobs))
       else if String.eqb (req_method req) "GET"
               && String.prefix "/api/jobs/" pathname then
         let jobId := path_id pathname in
         job ← getJob jobId;
         ret (match job with
              | Some _ => json 200 (JobJson job)
              | None => json 404 (ErrorJson "Job not found")
              end)
       else if String.eqb (req_method req) "POST"
               && String.eqb pathname "/api/jobs" then
         job ← readBody req;
         created ← createJob job;
         ret (json 201 (JobJson created))
       else if String.eqb (req_method req) "PUT"
               && String.prefix "/api/jobs/" pathname then
         let jobId := path_id pathname in
         job ← readBody req;
         updated ← updateJob jobId job;
         ret (match updated with
              | Some _ => json 200 (JobJson updated)
              | None => json 404 (ErrorJson "Job not found")
              end)
       else if String.eqb (req_method req) "DELETE"
               && String.prefix "/api/jobs/" pathname then
         let jobId := path_id pathname in
         _ ← deleteJob jobId;
         ret (json 200 SuccessJson)
       else if String.eqb (req_method req) "POST"
               && String.eqb pathname "/api/cleanup" then
         _ ← cleanupExpiredJobs;
         ret (json 200 SuccessJson)
       else ret (json 404 (ErrorJson "Not found")))
      (λ err,
         _ ← console_error "Request error:" err;
         ret (json 500 (ErrorJson "Internal server error"))).

(** ** Worlds and jobs to run the server on *)

Definition J1 : Job.t :=
  {| Job.id := "J1";
     Job.name := None;
     Job.startTime := Some "2024-01-01T00:00:00Z";
     Job.segments := Some [ {| duration := Some 60 |}; {| duration := Some 30 |} ];
     Job.delays := Some [ {| minutes := Some 15 |} ];
     Job.nextSegmentId := None;
     Job.createdAt := None;
     Job.lastUpdated := None;
     Job.expiresAt := None |}.

(** A world with an empty table, the clock at 2024-01-01T12:00:00Z, and a
    store that serves every request. *)
Definition quiet : World :=
  {| table := []; clock := 1704110400000; ticks := []; outages := [];
     console := []; asset := None |}.

(** A job whose segments run for ten million million minutes. *)
Definition J_far : Job.t :=
  {| Job.id := "J2";
     Job.name := None;
     Job.startTime := Some "2024-01-01T00:00:00Z";
     Job.segments := Some [ {| duration := Some 10000000000000 |} ];
     Job.delays := None;
     Job.nextSegmentId := None;
     Job.createdAt := None;
     Job.lastUpdated := None;
     Job.expiresAt := None |}.

(** A job whose start is not a date. *)
Definition J_undated : Job.t :=
  {| Job.id := "J3";
     Job.name := None;
     Job.startTime := Some "tomorrow";
     Job.segments := None;
     Job.delays := None;
     Job.nextSegmentId := None;
     Job.createdAt := None;
     Job.lastUpdated := None;
     Job.expiresAt := None |}.

(** The world [quiet], except that the next exchange with the store is
    answered by a 503. *)
Definition down : World :=
  {| table := []; clock := 1704110400000; ticks := [];
     outages := [Some (refused 103 (JsonData (JOther "unavailable")))];
     console := []; asset := None |}.

(** A world whose table holds the row of J1, a day and a half later, at
    2024-01-03T00:00:00Z. *)
Definition stale : World :=
  {| table := table (createJob J1 quiet).2; clock := 1704240000000;
     ticks := []; outages := []; console := []; asset := None |}.

(** A world whose table holds the row of J1 and whose next exchange comes
    back as an HTML page with status 502. *)
Definition behind_proxy : World :=
  {| table := table (createJob J1 quiet).2; clock := 1704110400000;
     ticks := []; outages := [Some (garbled 502 "<html>")];
     console := []; asset := None |}.

(** The requests of the routes. *)
Definition GET_jobs : IncomingMessage :=
  {| req_method := "GET"; pathname := "/api/jobs"; req_body := None |}.

Definition POST_jobs (job : Job.t) : IncomingMessage :=
  {| req_method := "POST"; pathname := "/api/jobs"; req_body := Some job |}.

Definition PUT_job (pathname : string) (job : Job.t) : IncomingMessage :=
  {| req_method := "PUT"; pathname := pathname; req_body := Some job |}.

(** ** Vocabulary of the specification *)

(** The clock stays within the range of a [Date] at all its readings. *)
Definition timely (w : World) : Prop :=
  - Date.maxTime ≤ clock w
  ∧ clock w + Z.of_N (foldr N.add 0%N (ticks w)) ≤ Date.maxTime.

(** The store serves the next request (nothing goes wrong on the way). *)
Definition served (w : World) : Prop := hd None (outages w) = None.

(** The adapter call fails: the promise of [supabaseRequest] is rejected. *)
Definition rejected (reply : Reply) : bool :=
  match settle reply with
  | Thrown _ => true
  | Returned _ => false
  end.

Definition adapter_fails (w : World) : bool :=
  match hd None (outages w) with
  | Some f => rejected (reply_of f)
  | None => false
  end.

(** Follows the specification's words: the sum of the durations of the
    segments and of the minutes of the delays, a missing field counting
    as 0. *)
Definition totalSegmentMinutes (job : Job.t) : Z :=
  foldr (λ s acc, default 0 (duration s) + acc) 0 (default [] (Job.segments job)).

Definition totalDelayMinutes (job : Job.t) : Z :=
  foldr (λ d acc, default 0 (minutes d) + acc) 0 (default [] (Job.delays job)).

(** Follows the specification's words: the expiration is the start plus
    the segment minutes, the delay minutes and 1440 minutes. *)
Definition expiration (start : Z) (job : Job.t) : Z :=
  start + (totalSegmentMinutes job + totalDelayMinutes job + 1440) * 60000.

(** Follows the specification's words: a row is expired at [now] when its
    [expires_at] is not null and strictly before [now]. *)
Definition expired (now : Z) (r : DbRow.t) : bool :=
  match DbRow.expires_at r with
  | Some e => match Date.parse e with
              | Some t => t <? now
              | None => false
              end
  | None => false
  end.

(** No row carries a [last_updated] later than the clock. *)
Definition stamped (w : World) : bool :=
  forallb (λ r, match DbRow.last_updated r ≫= Date.parse with
                | Some t => t <=? clock w
                | None => true
                end) (table w).

(** The job with another [expiresAt] supplied by the caller. *)
Definition with_expiresAt (x : option string) (job : Job.t) : Job.t :=
  {| Job.id := Job.id job;
     Job.name := Job.name job;
     Job.startTime := Job.startTime job;
     Job.segments := Job.segments job;
     Job.delays := Job.delays job;
     Job.nextSegmentId := Job.nextSegmentId job;
     Job.createdAt := Job.createdAt job;
     Job.lastUpdated := Job.lastUpdated job;
     Job.expiresAt := x |}.

(** The row the store makes of the body [createJob] sends. *)
Definition created_row (job : Job.t) (created updated : string)
    (expires : option string) : DbRow.t :=
  {| DbRow.job_id := Job.id job;
     DbRow.name := Job.name job;
     DbRow.start_time := Job.startTime job;
     DbRow.segments := Job.segments job;
     DbRow.delays := Some (default [] (Job.delays job));
     DbRow.next_segment_id := Some (or_number (Job.nextSegmentId job) 6);
     DbRow.created_at := Some created;
     DbRow.last_updated := Some updated;
     DbRow.expires_at := expires |}.

(** The row [r] once the store has applied the body [updateJob] sends: a
    field the job does not have leaves its column as it was. *)
Definition updated_row (job : Job.t) (updated : string)
    (expires : option string) (r : DbRow.t) : DbRow.t :=
  {| DbRow.job_id := DbRow.job_id r;
     DbRow.name := from_option Some (DbRow.name r) (Job.name job);
     DbRow.start_time := from_option Some (DbRow.start_time r) (Job.startTime job);
     DbRow.segments := from_option Some (DbRow.segments r) (Job.segments job);
     DbRow.delays := Some (default [] (Job.delays job));
     DbRow.next_segment_id := Some (or_number (Job.nextSegmentId job) 6);
     DbRow.created_at := DbRow.created_at r;
     DbRow.last_updated := Some updated;
     DbRow.expires_at := expires |}.

(** Between [w] and [w'] nothing happened but readings of the clock. *)
Definition only_read_clock (w w' : World) : Prop :=
  table w' = table w ∧ outages w' = outages w ∧ console w' = console w
  ∧ asset w' = asset w ∧ clock w ≤ clock w'.

(** A computation that leaves no [last_updated] ahead of the clock when
    there was none. *)
Definition keeps_stamped {A} (m : M A) : Prop :=
  ∀ w, stamped w = true → stamped (m w).2 = true.

(** What the process reacts to once it runs: a request, or the timer of
    the cleanup firing.  At its start it registers the timer and runs the
    cleanup once. *)
Inductive Event :=
  | Incoming (req : IncomingMessage)
  | TimerFired.

Definition handle (w : World) (e : Event) : World :=
  match e with
  | Incoming req => (server req w).2
  | TimerFired => (cleanupExpiredJobs w).2
  end.

Definition run (events : list Event) (w : World) : World :=
  foldl handle (cleanupExpiredJobs w).2 events.

(** ** Vocabulary for the properties of the whole server *)

(** A computation that always returns: nothing it throws gets out. *)
Definition returns {A} (m : M A) : Prop := ∀ w, ∃ a, (m w).1 = Returned a.

(** A computation that writes nothing on the console. *)
Definition silent {A} (m : M A) : Prop := ∀ w, console (m w).2 = console w.

(** A computation that makes no exchange with the store. *)
Definition offline {A} (m : M A) : Prop :=
  ∀ w, outages (m w).2 = outages w ∧ table (m w).2 = table w.

(** A computation that makes at most one exchange with the store. *)
Definition exchanges_once {A} (m : M A) : Prop :=
  ∀ w, (outages (m w).2 = outages w ∧ table (m w).2 = table w)
       ∨ outages (m w).2 = tl (outages w).

(** What makes a row the row of one job for life: its id and the time of
    its creation. *)
Definition identity (r : DbRow.t) : string * option string :=
  (DbRow.job_id r, DbRow.created_at r).

(** [s.includes(c)], for a character. *)
Fixpoint includes (c : ascii) (s : string) : bool :=
  match s with
  | EmptyString => false
  | String a r => Ascii.eqb a c || includes c r
  end.

(** More requests of the routes. *)
Definition GET_job (pathname : string) : IncomingMessage :=
  {| req_method := "GET"; pathname := pathname; req_body := None |}.

Definition DELETE_job (pathname : string) : IncomingMessage :=
  {| req_method := "DELETE"; pathname := pathname; req_body := None |}.

Definition POST_cleanup : IncomingMessage :=
  {| req_method := "POST"; pathname := "/api/cleanup"; req_body := None |}.

(** A computation that leaves the table as it was. *)
Definition reads_only {A} (m : M A) : Prop := ∀ w, table (m w).2 = table w.

(** A job that brings a name and nothing else. *)
Definition J_renamed : Job.t :=
  {| Job.id := "J1";
     Job.name := Some "night shift";
     Job.startTime := None;
     Job.segments := None;
     Job.delays := None;
     Job.nextSegmentId := None;
     Job.createdAt := None;
     Job.lastUpdated := None;
     Job.expiresAt := None |}.

(** A computation whose table afterwards stands in the relation [R] to
    the table before. *)
Definition table_step (R : Store.Table → Store.Table → Prop) {A} (m : M A)
  : Prop :=
  ∀ w, R (table w) (table (m w).2).

(** The table [t'] has no more rows than [t], and each of its rows is a
    row of [t], as it was or rewritten, with the identity it had. *)
Definition shrinks (t t' : Store.Table) : Prop :=
  (length t' ≤ length t)%nat
  ∧ ∀ r', r' ∈ t' → ∃ r, r ∈ t ∧ identity r = identity r'.

(** The table [t'] is [t], or [t] with one more row at its end. *)
Definition appends (t t' : Store.Table) : Prop :=
  t' = t ∨ ∃ row, t' = (t ++ [row])%list.

(** A computation of a response that can only answer with a response of
    the kind [P]. *)
Definition answers (P : ServerResponse → Prop) (m : M ServerResponse) : Prop :=
  ∀ w resp, (m w).1 = Returned resp → P resp.

(** The responses the server has: the status, the type and the body that
    go together. *)
Definition well_formed (resp : ServerResponse) : Prop :=
  match sent resp with
  | Empty => status resp = 200 ∧ headers resp = setCORSHeaders
  | Plain _ =>
      (status resp = 200
       ∧ headers resp = (setCORSHeaders ++ [("Content-Type", "text/html")])%list)
      ∨ (status resp = 404 ∧ headers resp = setCORSHeaders)
  | body =>
      headers resp
      = (setCORSHeaders ++ [("Content-Type", "application/json")])%list
      ∧ match body with
        | JobJson (Some _) => status resp = 200 ∨ status resp = 201
        | JobJson None => status resp = 201
        | ErrorJson msg =>
            (status resp = 404 ∧ (msg = "Job not found" ∨ msg = "Not found"))
            ∨ (status resp = 500 ∧ msg = "Internal server error")
        | _ => status resp = 200
        end
  end.

(** [Number.isSafeInteger]: an integer of magnitude below 2^53, which a
    double holds exactly. *)
Definition safe_integer (z : Z) : bool :=
  (- 2 ^ 53 <? z) && (z <? 2 ^ 53).

(** Adding the numbers of [l] to [acc] one after the other, every number
    and every sum on the way is a safe integer: the additions of the
    source are then exact. *)
Fixpoint safe_sums (acc : Z) (l : list Z) : bool :=
  match l with
  | [] => true
  | x :: l' => safe_integer x && safe_integer (acc + x) && safe_sums (acc + x) l'
  end.

(** The minutes of a job add up exactly: the durations of its segments
    in their order, the minutes of its delays in theirs, the two totals
    and the 24 hours. *)
Definition safe_minutes (job : Job.t) : bool :=
  safe_sums 0 ((λ s, or_number (duration s) 0) <$> default [] (Job.segments job))
  && safe_sums 0 ((λ d, or_number (minutes d) 0) <$> default [] (Job.delays job))
  && safe_integer (totalSegmentMinutes job + totalDelayMinutes job)
  && safe_integer (totalSegmentMinutes job + totalDelayMinutes job + 24 * 60).

(** The last character of a string. *)
Fixpoint last_char (s : string) : option ascii :=
  match s with
  | EmptyString => None
  | String c EmptyString => Some c
  | String _ r => last_char r
  end.

(** A date-time string that ends with the UTC designator [Z]: what it
    means does not depend on the time zone of the host. *)
Definition utc (s : string) : bool :=
  match last_char s with
  | Some c => Ascii.eqb c "Z"
  | None => false
  end.

(** The error the adapter call to come is rejected with, if it is. *)
Definition adapter_error (w : World) : option Error :=
  match hd None (outages w) with
  | Some f => match settle (reply_of f) with
              | Thrown err => Some err
              | Returned _ => None
              end
  | None => None
  end.

(** The first character of a text that is not JSON white space. *)
Fixpoint first_token (s : string) : option ascii :=
  match s with
  | EmptyString => None
  | String c r =>
      let n := nat_of_ascii c in
      if (n =? 32)%nat || (n =? 9)%nat || (n =? 10)%nat || (n =? 13)%nat
      then first_token r
      else Some c
  end.

(** A text that [JSON.parse] refuses at its first token: it is not
    empty, and it starts with a character that begins no JSON value
    (none of the brace, the bracket, the quote, the minus, a digit and
    the letters of [true], [false] and [null]). *)
Definition unparsable (s : string) : bool :=
  match first_token s with
  | Some c =>
      let n := nat_of_ascii c in
      negb ((n =? 123)%nat || (n =? 91)%nat || (n =? 34)%nat || (n =? 45)%nat
            || ((48 <=? n)%nat && (n <=? 57)%nat)
            || (n =? 116)%nat || (n =? 102)%nat || (n =? 110)%nat)
  | None => false
  end.

(** * Proofs *)

Example parse_J1 : Date.parse "2024-01-01T00:00:00Z" = Some 1704067200000.
Proof. vm_compute. reflexivity. Qed.
Example iso_J1 : Date.iso_string 1704159900000 = "2024-01-02T01:45:00.000Z".
Proof. vm_compute. reflexivity. Qed.


(** ** Dates: a date written by [toISOString] reads back as itself *)

Module DateFacts.
Import Date.

Ltac by_digit k H :=
  let E := fresh in
  assert (E : k = 0 ∨ k = 1 ∨ k = 2 ∨ k = 3 ∨ k = 4 ∨ k = 5 ∨ k = 6
              ∨ k = 7 ∨ k = 8 ∨ k = 9) by lia;
  clear H; repeat (destruct E as [E | E]); rewrite E; reflexivity.

Lemma digit_digit_char k : 0 ≤ k ≤ 9 → digit (digit_char k) = Some k.
Proof. intros H. by_digit k H. Qed.

Lemma digit_char_plus k : 0 ≤ k ≤ 9 → Ascii.eqb (digit_char k) "+" = false.
Proof. intros H. by_digit k H. Qed.

Lemma digit_char_minus k : 0 ≤ k ≤ 9 → Ascii.eqb (digit_char k) "-" = false.
Proof. intros H. by_digit k H. Qed.


Lemma append_cons c (s r : string) : String c s +:+ r = String c (s +:+ r).
Proof. reflexivity. Qed.

Lemma append_nil (r : string) : "" +:+ r = r.
Proof. reflexivity. Qed.

Lemma append_assoc (a b c : string) : (a +:+ b) +:+ c = a +:+ (b +:+ c).
Proof.
  induction a as [| x a IH]; [done |].
  rewrite !append_cons. by rewrite IH.
Qed.

Ltac digits := Z.div_mod_to_equations; lia.

Lemma take2_pad2 n r : 0 ≤ n < 100 → take2 (pad2 n +:+ r) = Some (n, r).
Proof.
  intros H. unfold pad2, take2. rewrite !append_cons, append_nil.
  rewrite !digit_digit_char by digits. cbn [mbind option_bind].
  do 2 f_equal. digits.
Qed.

Lemma take3_pad3 n r : 0 ≤ n < 1000 → take3 (pad3 n +:+ r) = Some (n, r).
Proof.
  intros H. unfold pad3, take3. rewrite append_cons.
  rewrite digit_digit_char by digits. cbn [mbind option_bind].
  rewrite take2_pad2 by digits. cbn [mbind option_bind].
  do 2 f_equal. digits.
Qed.

Lemma take4_pad4 n r : 0 ≤ n < 10000 → take4 (pad4 n +:+ r) = Some (n, r).
Proof.
  intros H. unfold pad4, take4. rewrite append_cons.
  rewrite digit_digit_char by digits. cbn [mbind option_bind].
  rewrite take3_pad3 by digits. cbn [mbind option_bind].
  do 2 f_equal. digits.
Qed.

Lemma take6_pad6 n r : 0 ≤ n < 1000000 → take6 (pad6 n +:+ r) = Some (n, r).
Proof.
  intros H. unfold pad6, take6. rewrite append_assoc.
  rewrite take2_pad2 by digits. cbn [mbind option_bind].
  rewrite take4_pad4 by digits. cbn [mbind option_bind].
  do 2 f_equal. digits.
Qed.

Lemma expect_same c r : expect c (String c r) = Some r.
Proof. unfold expect. by rewrite Ascii.eqb_refl. Qed.

Lemma expect_literal c r : expect c (String c "" +:+ r) = Some r.
Proof. by rewrite append_cons, append_nil, expect_same. Qed.

Lemma parse_year_year_string y r :
  -1000000 < y < 1000000 →
  parse_year (year_string y +:+ r) = Some (y, r).
Proof.
  intros H. unfold year_string, parse_year.
  destruct ((0 <=? y) && (y <=? 9999)) eqn:E.
  - apply andb_prop in E as [E1 E2].
    apply Z.leb_le in E1. apply Z.leb_le in E2.
    assert (expect "+" (pad4 y +:+ r) = None) as ->.
    { unfold pad4, expect. rewrite append_cons.
      by rewrite digit_char_plus by digits. }
    assert (expect "-" (pad4 y +:+ r) = None) as ->.
    { unfold pad4, expect. rewrite append_cons.
      by rewrite digit_char_minus by digits. }
    apply take4_pad4. lia.
  - destruct (y <? 0) eqn:N.
    + apply Z.ltb_lt in N. rewrite !append_cons, !append_nil.
      replace (expect "+" (String "-" (pad6 (- y) +:+ r))) with (@None string)
        by reflexivity.
      rewrite expect_same, take6_pad6 by lia. cbn [mbind option_bind].
      destruct (- y =? 0) eqn:Z0; [apply Z.eqb_eq in Z0; lia |].
      do 2 f_equal. lia.
    + apply Z.ltb_ge in N. rewrite !append_cons, !append_nil.
      rewrite expect_same. apply take6_pad6. lia.
Qed.

(** The calendar: a day number read off as a date is that day. *)
Lemma days_from_civil_from_days z :
  let '(y, m, d) := civil_from_days z in
  days_from_civil y m d = z ∧ 1 ≤ m ≤ 12 ∧ 1 ≤ d ≤ 31
  ∧ (z + 719468) / 146097 * 400 ≤ y ≤ (z + 719468) / 146097 * 400 + 400.
Proof.
  unfold civil_from_days, civil_of_doe, days_from_civil.
  set (doe := (z + 719468) `mod` 146097).
  set (era := (z + 719468) / 146097).
  assert (Hdoe : 0 ≤ doe < 146097) by (apply Z.mod_pos_bound; lia).
  set (yoe := (doe - doe / 1460 + doe / 36524 - doe / 146096) / 365).
  set (doy := doe - (365 * yoe + yoe / 4 - yoe / 100)).
  assert (Hy : 0 ≤ yoe < 400 ∧ 0 ≤ doy ≤ 365)
    by (subst yoe doy; Z.div_mod_to_equations; lia).
  set (mp := (5 * doy + 2) / 153).
  assert (Hmp : 0 ≤ mp ≤ 11) by (subst mp; digits).
  set (d := doy - (153 * mp + 2) / 5 + 1).
  assert (Hd : 1 ≤ d ≤ 31) by (subst d mp; digits).
  set (m := if mp <? 10 then mp + 3 else mp - 9).
  assert (Hm : 1 ≤ m ≤ 12 ∧ (m + 9) `mod` 12 = mp
               ∧ (m ≤ 2 ↔ 10 ≤ mp)).
  { subst m. destruct (mp <? 10) eqn:E;
      [apply Z.ltb_lt in E | apply Z.ltb_ge in E]; digits. }
  destruct Hm as (Hm & Hmp' & Hm2). rewrite Hmp'.
  assert (Hz : z = era * 146097 + doe - 719468)
    by (subst era doe; digits).
  split; [| split; [done | split; [done |]]].
  - destruct (m <=? 2) eqn:E;
      [apply Z.leb_le in E | apply Z.leb_gt in E].
    + replace (yoe + era * 400 + 1 - 1) with (yoe + era * 400) by lia.
      rewrite Z.div_add, Z_mod_plus_full by lia.
      rewrite Z.div_small, Z.mod_small by lia.
      subst d doy. lia.
    + rewrite Z.add_0_r.
      rewrite Z.div_add, Z_mod_plus_full by lia.
      rewrite Z.div_small, Z.mod_small by lia.
      subst d doy. lia.
  - destruct (m <=? 2); lia.
Qed.


Lemma in_range_Some lo hi n : lo ≤ n ≤ hi → in_range lo hi n = Some n.
Proof.
  intros H. unfold in_range.
  destruct (lo <=? n) eqn:A; [| apply Z.leb_gt in A; lia].
  destruct (n <=? hi) eqn:B; [done | apply Z.leb_gt in B; lia].
Qed.

Lemma parse_month_day_pad m d r :
  1 ≤ m ≤ 12 → 1 ≤ d ≤ 31 →
  parse_month_day ("-" +:+ pad2 m +:+ "-" +:+ pad2 d +:+ r) = Some (m, d, r).
Proof.
  intros Hm Hd. unfold parse_month_day.
  rewrite !append_cons, !append_nil, expect_same.
  rewrite take2_pad2 by lia. cbn [mbind option_bind].
  rewrite in_range_Some by lia. cbn [mbind option_bind].
  rewrite expect_same, take2_pad2 by lia. cbn [mbind option_bind].
  by rewrite in_range_Some by lia.
Qed.

Lemma parse_time_pad h mi sec ms :
  0 ≤ h ≤ 23 → 0 ≤ mi ≤ 59 → 0 ≤ sec ≤ 59 → 0 ≤ ms ≤ 999 →
  parse_time (pad2 h +:+ ":" +:+ pad2 mi +:+ ":" +:+ pad2 sec +:+ "."
                +:+ pad3 ms +:+ "Z")
  = Some (MakeTime h mi sec ms, "").
Proof.
  intros Hh Hmi Hsec Hms. unfold parse_time, parse_hhmm.
  rewrite take2_pad2 by lia. cbn [mbind option_bind].
  rewrite !append_cons, !append_nil, expect_same. cbn [mbind option_bind].
  rewrite take2_pad2 by lia. cbn [mbind option_bind].
  rewrite in_range_Some by lia. cbn [mbind option_bind].
  rewrite in_range_Some by lia. cbn [mbind option_bind].
  unfold parse_sec_ms. rewrite expect_same, take2_pad2 by lia.
  cbn [mbind option_bind].
  rewrite in_range_Some by lia. cbn [mbind option_bind].
  rewrite expect_same, take3_pad3 by lia. cbn [mbind option_bind].
  unfold parse_offset. rewrite expect_same. cbn [mbind option_bind].
  destruct (h =? 24) eqn:E; [apply Z.eqb_eq in E; lia |].
  cbn [andb]. do 2 f_equal. lia.
Qed.

Lemma TimeClip_Some t : - maxTime ≤ t ≤ maxTime → TimeClip t = Some t.
Proof.
  intros H. unfold TimeClip.
  destruct (- maxTime <=? t) eqn:A; [| apply Z.leb_gt in A; lia].
  destruct (t <=? maxTime) eqn:B; [done | apply Z.leb_gt in B; lia].
Qed.

Lemma TimeClip_inv t t' : TimeClip t = Some t' → t' = t ∧ - maxTime ≤ t ≤ maxTime.
Proof.
  unfold TimeClip. intros H.
  destruct (- maxTime <=? t) eqn:A; [| done].
  destruct (t <=? maxTime) eqn:B; [| done].
  apply Z.leb_le in A. apply Z.leb_le in B.
  cbn [andb] in H. simplify_eq. lia.
Qed.

(** The round trip: the string [toISOString] writes for a valid time
    value is read back by [Date.parse] as that time value. *)
Lemma parse_iso_string t :
  - maxTime ≤ t ≤ maxTime → parse (iso_string t) = Some t.
Proof.
  intros Ht. unfold parse, iso_string.
  pose proof (days_from_civil_from_days (Day t)) as H.
  destruct (civil_from_days (Day t)) as [[y m] d].
  destruct H as (Hdays & Hm & Hd & Hy).
  assert (Hday : -100000000 ≤ Day t ≤ 100000000)
    by (unfold Day, msPerDay, maxTime in *; digits).
  rewrite parse_year_year_string by (revert Hy; digits).
  cbn [mbind option_bind].
  rewrite parse_month_day_pad by done. cbn [mbind option_bind].
  rewrite expect_literal.
  set (tod := TimeWithinDay t).
  assert (Htod : 0 ≤ tod < msPerDay) by (apply Z.mod_pos_bound; done).
  unfold msPerDay in Htod.
  rewrite parse_time_pad
    by (unfold msPerHour, msPerMinute, msPerSecond; digits).
  cbn [mbind option_bind String.eqb].
  replace (MakeDate (MakeDay y m d) _) with t; [by apply TimeClip_Some |].
  unfold MakeDate, MakeDay, MakeTime.
  replace (days_from_civil y m 1 + d - 1) with (Day t)
    by (rewrite <- Hdays; unfold days_from_civil; lia).
  subst tod. unfold Day, TimeWithinDay, msPerDay, msPerHour, msPerMinute,
    msPerSecond. digits.
Qed.

End DateFacts.

(** ** The expiration computation *)

Lemma or_number_0 (x : option Z) : or_number x 0 = default 0 x.
Proof.
  destruct x as [n |]; [| done]. simpl.
  destruct (n =? 0) eqn:E; [apply Z.eqb_eq in E; lia | done].
Qed.

Lemma segment_loop (ss : list Segment) (a : Z) :
  fold_left (λ total s, total + or_number (duration s) 0) ss a
  = a + foldr (λ s acc, default 0 (duration s) + acc) 0 ss.
Proof.
  revert a. induction ss as [| s ss IH]; intros a; simpl; [lia |].
  rewrite IH, or_number_0. lia.
Qed.

Lemma delay_reduce (ds : list Delay) (a : Z) :
  fold_left (λ sum d, sum + or_number (minutes d) 0) ds a
  = a + foldr (λ d acc, default 0 (minutes d) + acc) 0 ds.
Proof.
  revert a. induction ds as [| d ds IH]; intros a; simpl; [lia |].
  rewrite IH, or_number_0. lia.
Qed.

(** The source's two loops add up to the specification's total. *)
Lemma calculateExpiresAt_dated (job : Job.t) (s : string) (t : Z) :
  Job.startTime job = Some s → Date.parse s = Some t →
  calculateExpiresAt job
  = match toISOString (Date.TimeClip (expiration t job)) with
    | Returned e => Returned (Some e)
    | Thrown err => Thrown err
    end.
Proof.
  intros Hs Ht. unfold calculateExpiresAt. rewrite Hs.
  assert (not_string (Some s) = false) as ->.
  { destruct s; [by vm_compute in Ht | done]. }
  cbn [mbind option_bind]. rewrite Ht. cbn [mbind option_bind].
  replace (t + _) with (expiration t job); [done |].
  unfold expiration, totalSegmentMinutes, totalDelayMinutes. f_equal.
  destruct (Job.segments job) as [ss |], (Job.delays job) as [ds |];
    cbn [default]; rewrite ?segment_loop, ?delay_reduce; simpl; lia.
Qed.

(** C1, against the claim as stated: on the job J1 of the specification
    the computation yields 2024-01-02T01:45:00Z (1545 minutes after the
    start), not 2024-01-02T02:45:00Z; and on a job whose start is present
    but whose total runs past the last representable date it yields no
    expiration at all, it throws. *)
Lemma calculateExpiresAt_counterexample :
  (¬ ∃ e, calculateExpiresAt J1 = Returned (Some e)
          ∧ Date.parse e = Date.parse "2024-01-02T02:45:00Z")
  ∧ Job.startTime J_far = Some "2024-01-01T00:00:00Z"
  ∧ calculateExpiresAt J_far = Thrown (RangeError "Invalid time value").
Proof.
  split; [| split; [reflexivity | vm_compute; reflexivity]].
  intros (e & He & Hp). vm_compute in He. injection He as <-.
  vm_compute in Hp. discriminate Hp.
Qed.

(** C1, amended: the expiration computation is a function of the job's
    [startTime], [segments] and [delays] alone.  With [startTime] absent
    it yields an absent [expiresAt].  With [startTime] a date-time string
    of the ECMAScript format that ends with the UTC designator [Z], for
    the instant [t]; with durations and minutes that are integers and add
    up exactly (every number and every partial sum a safe integer); and
    with the instant [t + (sum of the segment durations + sum of the
    delay minutes + 1440) minutes] within the range of a [Date]: it
    yields that instant, written as an ISO string (a missing [duration]
    or [minutes] counts as 0).  On the job J1 it yields
    2024-01-02T01:45:00Z. *)
Theorem calculateExpiresAt_spec (job : Job.t) :
  (Job.startTime job = None → calculateExpiresAt job = Returned None)
  ∧ (∀ s t,
       Job.startTime job = Some s → utc s = true → Date.parse s = Some t →
       safe_minutes job = true →
       - Date.maxTime ≤ expiration t job ≤ Date.maxTime →
       calculateExpiresAt job
       = Returned (Some (Date.iso_string (expiration t job)))
       ∧ Date.parse (Date.iso_string (expiration t job))
         = Some (expiration t job))
  ∧ (∀ job',
       Job.startTime job' = Job.startTime job →
       Job.segments job' = Job.segments job →
       Job.delays job' = Job.delays job →
       calculateExpiresAt job' = calculateExpiresAt job)
  ∧ calculateExpiresAt J1 = Returned (Some "2024-01-02T01:45:00.000Z")
  ∧ Date.parse "2024-01-02T01:45:00.000Z" = Date.parse "2024-01-02T01:45:00Z".
Proof.
  split; [| split; [| split; [| split]]].
  - intros H. unfold calculateExpiresAt. by rewrite H.
  - intros s t Hs _ Ht _ Hr.
    rewrite (calculateExpiresAt_dated job s t Hs Ht).
    rewrite DateFacts.TimeClip_Some by done.
    split; [done | by apply DateFacts.parse_iso_string].
  - intros job' H1 H2 H3. unfold calculateExpiresAt.
    by rewrite H1, H2, H3.
  - vm_compute. reflexivity.
  - vm_compute. reflexivity.
Qed.

Lemma calculateExpiresAt_spec_witness :
  calculateExpiresAt J1 = Returned (Some (Date.iso_string (expiration 1704067200000 J1)))
  ∧ Date.parse (Date.iso_string (expiration 1704067200000 J1))
    = Some (expiration 1704067200000 J1).
Proof.
  apply (proj1 (proj2 (calculateExpiresAt_spec J1))
           "2024-01-01T00:00:00Z" 1704067200000).
  - reflexivity.
  - reflexivity.
  - vm_compute. reflexivity.
  - vm_compute. reflexivity.
  - vm_compute. split; discriminate.
Defined.

(** ** Running the adapter *)

Ltac run := unfold mbind, M_bind, bind, mret, M_ret, ret, try_catch, lift, throw.

Lemma supabaseRequest_fault method ep body w f :
  hd None (outages w) = Some f →
  supabaseRequest method ep body w
  = (settle (reply_of f), after_exchange (table w) w).
Proof. intros H. unfold supabaseRequest, exchange. run. by rewrite H. Qed.

Lemma supabaseRequest_served method ep body w :
  served w →
  let rq := {| method := method; endpoint := ep; body := body |} in
  supabaseRequest method ep body w
  = (settle (Store.serve rq (table w)).1,
     after_exchange (Store.serve rq (table w)).2 w).
Proof.
  intros H rq. unfold supabaseRequest, exchange. run. rewrite H.
  fold rq. by destruct (Store.serve rq (table w)).
Qed.

(** Rows only ever come from the store. *)
Lemma settle_fault_rows f :
  match settle (reply_of f) with
  | Returned (RJson _) => False
  | _ => True
  end.
Proof.
  destruct f as [m | over d | st txt]; simpl; [done | | done].
  destruct (400 <=? 400 + Z.of_N over) eqn:E; [by destruct d |].
  apply Z.leb_gt in E. lia.
Qed.

Lemma served_or_fault w : served w ∨ ∃ f, hd None (outages w) = Some f.
Proof. unfold served. destruct (hd None (outages w)); eauto. Qed.

Lemma adapter_fails_served w : served w → adapter_fails w = false.
Proof. unfold served, adapter_fails. by intros ->. Qed.

Lemma adapter_fails_fault w f :
  hd None (outages w) = Some f → adapter_fails w = rejected (reply_of f).
Proof. unfold adapter_fails. by intros ->. Qed.

Lemma read_clock_run w :
  (d ← new_Date; lift (toISOString d)) w
  = (toISOString (Date.TimeClip (next_reading w)), after_reading w).
Proof. reflexivity. Qed.

Lemma filter_out_then_in {A} (P : A → bool) (l : list A) :
  filter (λ x, P x) (filter (λ x, negb (P x)) l) = [].
Proof.
  induction l as [| x l IH]; [done |].
  rewrite (filter_cons (λ x, negb (P x))).
  destruct (decide (negb (P x))) as [H | H]; [| done].
  rewrite filter_cons. destruct (decide (P x)) as [H' | H']; [| done].
  by destruct (P x).
Qed.

(** ** [deleteJob] and [getJob] *)

Lemma deleteJob_served jobId w :
  served w →
  deleteJob jobId w
  = (Returned true,
     after_exchange
       (filter (λ r, negb (Store.selected [op_eq job_id jobId] r)) (table w)) w).
Proof.
  intros H. unfold deleteJob. run.
  by rewrite supabaseRequest_served.
Qed.

Lemma deleteJob_fault jobId w f :
  hd None (outages w) = Some f →
  (deleteJob jobId w).1 = Returned (negb (rejected (reply_of f))).
Proof.
  intros H. unfold deleteJob, rejected. run.
  rewrite (supabaseRequest_fault _ _ _ _ f H).
  by destruct (settle (reply_of f)).
Qed.

Lemma getJob_served jobId w :
  served w →
  (getJob jobId w).1
  = Returned (match filter (λ r, Store.selected [op_eq job_id jobId] r) (table w) with
              | row :: _ => Some (rowToJob row)
              | [] => None
              end).
Proof.
  intros H. unfold getJob. run.
  rewrite supabaseRequest_served by done. cbn.
  by destruct (filter _ (table w)).
Qed.

Lemma getJob_fault jobId w f :
  hd None (outages w) = Some f → (getJob jobId w).1 = Returned None.
Proof.
  intros H. unfold getJob. run.
  rewrite (supabaseRequest_fault _ _ _ _ f H).
  pose proof (settle_fault_rows f) as S.
  destruct (settle (reply_of f)) as [[| v |] |]; done.
Qed.

(** C8: when the store has served [deleteJob(id)], a [getJob(id)] that
    follows with no write in between answers absent, whatever happens to
    its own exchange; and the boolean of [deleteJob] says whether the
    adapter call succeeded, whatever the table holds: it is the same in
    any two worlds whose exchanges go the same way. *)
Theorem deleteJob_then_getJob (jobId : string) (w : World) :
  (served w → (getJob jobId (deleteJob jobId w).2).1 = Returned None)
  ∧ (deleteJob jobId w).1 = Returned (negb (adapter_fails w))
  ∧ (∀ w', outages w' = outages w →
           (deleteJob jobId w').1 = (deleteJob jobId w).1).
Proof.
  assert (R : ∀ v, (deleteJob jobId v).1 = Returned (negb (adapter_fails v))).
  { intros v. destruct (served_or_fault v) as [S | [f F]].
    - by rewrite deleteJob_served, adapter_fails_served.
    - by rewrite (deleteJob_fault _ _ f F), (adapter_fails_fault _ f F). }
  split; [| split; [apply R |]].
  - intros S. rewrite deleteJob_served by done. cbn [snd].
    set (w1 := after_exchange _ w).
    destruct (served_or_fault w1) as [S1 | [f F]].
    + rewrite getJob_served by done. subst w1. cbn [table after_exchange].
      by rewrite (filter_out_then_in (Store.selected [op_eq job_id jobId])).
    + by apply (getJob_fault _ _ f).
  - intros w' E. rewrite !R. unfold adapter_fails. by rewrite E.
Qed.

(** The boolean of [deleteJob] is about the adapter call, not the row: a
    reply that does not parse resolves the call, so [deleteJob] answers
    [true] although the store never saw the request. *)
Example deleteJob_behind_proxy :
  (deleteJob "J1" behind_proxy).1 = Returned true
  ∧ table (deleteJob "J1" behind_proxy).2 = table behind_proxy.
Proof. by vm_compute. Qed.

Lemma deleteJob_then_getJob_witness :
  (getJob "J1" (deleteJob "J1" (createJob J1 quiet).2).2).1 = Returned None.
Proof.
  apply (proj1 (deleteJob_then_getJob "J1" (createJob J1 quiet).2)).
  vm_compute. reflexivity.
Defined.

(** ** [cleanupExpiredJobs] *)

(** The two filters of the cleanup select the expired rows. *)
Lemma selected_expired (now : Z) (r : DbRow.t) :
  - Date.maxTime ≤ now ≤ Date.maxTime →
  Store.selected
    [op_lt expires_at (Date.iso_string now); op_not_is_null expires_at] r
  = expired now r.
Proof.
  intros V. unfold Store.selected, expired. cbn [forallb Store.holds].
  rewrite (DateFacts.parse_iso_string now V).
  unfold Store.time_column, Store.text_column, Store.is_null.
  destruct (DbRow.expires_at r) as [e |]; cbn [mbind option_bind]; [| done].
  rewrite bool_decide_eq_false_2 by done.
  destruct (Date.parse e); [| done]. by rewrite !andb_true_r.
Qed.

Lemma cleanupExpiredJobs_served (w : World) :
  served w → - Date.maxTime ≤ next_reading w ≤ Date.maxTime →
  table (cleanupExpiredJobs w).2
  = filter (λ r, negb (expired (next_reading w) r)) (table w).
Proof.
  intros S V. unfold cleanupExpiredJobs. run. unfold new_Date.
  rewrite (DateFacts.TimeClip_Some _ V). cbn [toISOString].
  rewrite supabaseRequest_served by done.
  transitivity
    (filter (λ r, negb (Store.selected
                          [op_lt expires_at (Date.iso_string (next_reading w));
                           op_not_is_null expires_at] r)) (table w));
    [reflexivity |].
  apply list_filter_iff. intros r.
  by rewrite (selected_expired _ r V).
Qed.

(** Whatever happens, the cleanup removes expired rows or nothing. *)
Lemma cleanupExpiredJobs_table (w : World) :
  table (cleanupExpiredJobs w).2 = table w
  ∨ table (cleanupExpiredJobs w).2
    = filter (λ r, negb (expired (next_reading w) r)) (table w).
Proof.
  destruct (Date.TimeClip (next_reading w)) as [now |] eqn:C.
  - apply DateFacts.TimeClip_inv in C as [_ V].
    destruct (served_or_fault w) as [S | [f F]].
    + right. by apply cleanupExpiredJobs_served.
    + left. unfold cleanupExpiredJobs. run. unfold new_Date.
      rewrite (DateFacts.TimeClip_Some _ V). cbn [toISOString].
      rewrite (supabaseRequest_fault _ _ _ (after_reading w) f F).
      by destruct (settle (reply_of f)).
  - left. unfold cleanupExpiredJobs. run. unfold new_Date. by rewrite C.
Qed.

Lemma filter_nothing {A} (P : A → bool) (l : list A) :
  (∀ x, x ∈ l → P x = false) → filter (λ x, negb (P x)) l = l.
Proof.
  induction l as [| x l IH]; intros H; [done |].
  rewrite filter_cons. rewrite (H x) by apply list_elem_of_here.
  cbn. f_equal. apply IH. intros y Hy. apply H. by apply list_elem_of_further.
Qed.

(** C2: run at the reference time [now] against a store that serves the
    request, [cleanupExpiredJobs] (the purge) leaves in the table exactly
    the rows that are not expired at [now], each as it was and in the
    same order: it deletes the rows whose [expires_at] is non-null and
    strictly before [now], and no other.  A second run with no write in
    between deletes nothing when no remaining row has expired by its own
    reference time, in particular when that is [now] again. *)
Theorem cleanupExpiredJobs_purges (w : World) :
  let now := next_reading w in
  let w1 := (cleanupExpiredJobs w).2 in
  let w2 := (cleanupExpiredJobs w1).2 in
  served w → - Date.maxTime ≤ now ≤ Date.maxTime →
  table w1 = filter (λ r, negb (expired now r)) (table w)
  ∧ (∀ r, r ∈ table w1 ↔ r ∈ table w ∧ expired now r = false)
  ∧ ((∀ r, r ∈ table w1 → expired (next_reading w1) r = false) →
     table w2 = table w1)
  ∧ (next_reading w1 = now → table w2 = table w1).
Proof.
  intros now w1 w2 S V.
  assert (T : table w1 = filter (λ r, negb (expired now r)) (table w))
    by (by apply cleanupExpiredJobs_served).
  assert (I : ∀ r, r ∈ table w1 ↔ r ∈ table w ∧ expired now r = false).
  { intros r. rewrite T, list_elem_of_filter.
    destruct (expired now r); cbn; split; intros [A B]; done. }
  assert (N : (∀ r, r ∈ table w1 → expired (next_reading w1) r = false) →
              table w2 = table w1).
  { intros H. destruct (cleanupExpiredJobs_table w1) as [E | E]; [done |].
    subst w2. rewrite E. by apply filter_nothing. }
  repeat split; try done; try (by apply I).
  intros E. apply N. intros r Hr. rewrite E. by apply I.
Qed.

Lemma cleanupExpiredJobs_purges_witness :
  table (cleanupExpiredJobs stale).2
  = filter (λ r, negb (expired (next_reading stale) r)) (table stale).
Proof.
  assert (V : - Date.maxTime ≤ next_reading stale ≤ Date.maxTime)
    by (vm_compute; split; discriminate).
  exact (proj1 (cleanupExpiredJobs_purges stale eq_refl V)).
Defined.

Example cleanupExpiredJobs_stale : table (cleanupExpiredJobs stale).2 = [].
Proof. vm_compute. reflexivity. Qed.

(** ** The rows [createJob] and [updateJob] send *)

Lemma timely_reading w :
  timely w →
  - Date.maxTime ≤ next_reading w ≤ Date.maxTime ∧ timely (after_reading w).
Proof.
  destruct w as [t c [| k ks] o cs a];
    unfold timely, after_reading, next_reading;
    cbn [clock ticks hd tl fold_right]; lia.
Qed.

Lemma only_read_clock_reading w : only_read_clock w (after_reading w).
Proof.
  unfold only_read_clock, after_reading, next_reading. cbn.
  repeat split; lia.
Qed.

Lemma only_read_clock_trans w1 w2 w3 :
  only_read_clock w1 w2 → only_read_clock w2 w3 → only_read_clock w1 w3.
Proof.
  unfold only_read_clock. intros (A1 & A2 & A3 & A4 & A5) (B1 & B2 & B3 & B4 & B5).
  repeat split; try congruence. lia.
Qed.

(** Reading the clock as an ISO string: the string of a valid reading, or
    a throw. *)
Lemma read_clock_cases w :
  match (d ← new_Date; lift (toISOString d)) w with
  | (Returned s, w') =>
      w' = after_reading w ∧ s = Date.iso_string (next_reading w)
      ∧ - Date.maxTime ≤ next_reading w ≤ Date.maxTime
  | (Thrown _, w') => w' = after_reading w
  end.
Proof.
  rewrite read_clock_run.
  destruct (Date.TimeClip (next_reading w)) as [t |] eqn:C; cbn; [| done].
  apply DateFacts.TimeClip_inv in C as [-> V]. done.
Qed.

(** What [createJob] puts in its row. *)
Lemma createJob_row_cases job w :
  match createJob_row job w with
  | (Returned row, w') =>
      only_read_clock w w'
      ∧ - Date.maxTime ≤ clock w' ≤ Date.maxTime
      ∧ ∃ e, calculateExpiresAt job = Returned e
             ∧ row = createJob_object job
                       (if not_string (Job.createdAt job)
                        then Date.iso_string (next_reading w)
                        else or_string (Job.createdAt job) "")
                       (Date.iso_string (clock w')) e
  | (Thrown _, w') => only_read_clock w w'
  end.
Proof.
  unfold createJob_row.
  destruct (not_string (Job.createdAt job)).
  - unfold mbind at 1, M_bind at 1, bind at 1.
    pose proof (read_clock_cases w) as H1.
    destruct ((d ← new_Date; lift (toISOString d)) w) as [[c | err] w1].
    + destruct H1 as (-> & -> & V1).
      unfold mbind at 1, M_bind at 1, bind at 1.
      pose proof (read_clock_cases (after_reading w)) as H2.
      destruct ((d ← new_Date; lift (toISOString d)) (after_reading w))
        as [[u | err] w2].
      * destruct H2 as (-> & -> & V2). run.
        assert (O : only_read_clock w (after_reading (after_reading w))).
        { eapply only_read_clock_trans; apply only_read_clock_reading. }
        destruct (calculateExpiresAt job) as [e | err]; [| done].
        split; [done |]. split; [done |]. by exists e.
      * subst w2. eapply only_read_clock_trans; apply only_read_clock_reading.
    + subst w1. apply only_read_clock_reading.
  - unfold mbind at 1, M_bind at 1, bind at 1. unfold ret at 1.
    unfold mbind at 1, M_bind at 1, bind at 1.
    pose proof (read_clock_cases w) as H2.
    destruct ((d ← new_Date; lift (toISOString d)) w) as [[u | err] w2].
    + destruct H2 as (-> & -> & V2). run.
      destruct (calculateExpiresAt job) as [e | err];
        [| apply only_read_clock_reading].
      split; [apply only_read_clock_reading |]. split; [done |]. by exists e.
    + subst w2. apply only_read_clock_reading.
Qed.

(** What [updateJob] puts in its row. *)
Lemma updateJob_row_cases job w :
  match updateJob_row job w with
  | (Returned row, w') =>
      w' = after_reading w
      ∧ - Date.maxTime ≤ next_reading w ≤ Date.maxTime
      ∧ ∃ e, calculateExpiresAt job = Returned e
             ∧ row = updateJob_object job (Date.iso_string (next_reading w)) e
  | (Thrown _, w') =>
      w' = after_reading w
      ∧ (Date.TimeClip (next_reading w) = None
         ∨ ∃ err, calculateExpiresAt job = Thrown err)
  end.
Proof.
  unfold updateJob_row.
  unfold mbind at 1, M_bind at 1, bind at 1.
  rewrite read_clock_run.
  destruct (Date.TimeClip (next_reading w)) as [t |] eqn:C;
    cbn [toISOString]; [| by split; [| left]].
  apply DateFacts.TimeClip_inv in C as [-> V]. run.
  destruct (calculateExpiresAt job) as [e | err].
  - split; [done |]. split; [done |]. by exists e.
  - split; [done |]. right. by exists err.
Qed.

Lemma fresh_createJob_object job c u e :
  Store.fresh (createJob_object job c u e) = Some (created_row job c u e).
Proof.
  unfold createJob_object, created_row.
  destruct (Job.name job), (Job.startTime job), (Job.segments job), e;
    reflexivity.
Qed.

Lemma assign_updateJob_object job u e r :
  Store.assign (updateJob_object job u e) r = Some (updated_row job u e r).
Proof.
  unfold updateJob_object, updated_row. destruct r.
  destruct (Job.name job), (Job.startTime job), (Job.segments job), e;
    reflexivity.
Qed.

Lemma patch_map q o (f : DbRow.t → DbRow.t) t :
  (∀ r, Store.assign o r = Some (f r)) →
  Store.patch q o t
  = Some (map (λ r, if Store.selected q r then f r else r) t).
Proof.
  intros H. induction t as [| r t IH]; [done |].
  cbn [Store.patch map]. rewrite IH, H.
  by destruct (Store.selected q r).
Qed.

Lemma get_string_updateJob_object job u e :
  get_string last_updated (updateJob_object job u e) = Some u.
Proof.
  unfold updateJob_object.
  destruct (Job.name job), (Job.startTime job), (Job.segments job);
    reflexivity.
Qed.

(** ** [createJob] and [updateJob], case by case *)

Lemma serve_post q o t :
  Store.serve {| method := "POST"; endpoint := jobs q; body := Some o |} t
  = match Store.fresh o with
    | Some r => (Response 201 (JsonData (JRows [r])), (t ++ [r])%list)
    | None => (Response 400 (JsonData (JOther "invalid input")), t)
    end.
Proof. reflexivity. Qed.

Lemma serve_patch q o t :
  Store.serve {| method := "PATCH"; endpoint := jobs q; body := Some o |} t
  = match Store.patch q o t with
    | Some t' =>
        (Response 200 (JsonData (JRows (filter (λ r, Store.selected q r) t'))), t')
    | None => (Response 400 (JsonData (JOther "invalid input")), t)
    end.
Proof. reflexivity. Qed.

Lemma selected_job_id jobId r :
  Store.selected [op_eq job_id jobId] r = String.eqb (DbRow.job_id r) jobId.
Proof. unfold Store.selected. cbn. apply andb_true_r. Qed.

(** [createJob] answers with nothing and writes nothing; or the exchange
    came back garbled, it writes nothing and answers with the job; or the
    store is served and has one more row. *)
Lemma createJob_cases job w :
  let res := (createJob job w).1 in
  let w' := (createJob job w).2 in
  clock w ≤ clock w'
  ∧ ((res = Returned None ∧ table w' = table w)
     ∨ (res = Returned (Some job) ∧ table w' = table w
        ∧ adapter_fails w = false ∧ ¬ served w)
     ∨ (res = Returned (Some job) ∧ served w
        ∧ - Date.maxTime ≤ clock w' ≤ Date.maxTime
        ∧ ∃ e, calculateExpiresAt job = Returned e
               ∧ table w'
                 = (table w
                    ++ [created_row job
                          (if not_string (Job.createdAt job)
                           then Date.iso_string (next_reading w)
                           else or_string (Job.createdAt job) "")
                          (Date.iso_string (clock w')) e])%list)).
Proof.
  cbv zeta. unfold createJob. run.
  pose proof (createJob_row_cases job w) as H.
  destruct (createJob_row job w) as [[row | err] w1].
  - destruct H as ((T & O & C & A & K) & V & e & E & ->).
    destruct (served_or_fault w) as [S | [f F]].
    + rewrite supabaseRequest_served by (unfold served; by rewrite O).
      rewrite serve_post, fresh_createJob_object.
      cbn [fst snd settle Z.leb Z.compare Pos.compare Pos.compare_cont
           table clock after_exchange].
      split; [done |]. right. right. rewrite T. eauto 10.
    + rewrite (supabaseRequest_fault _ _ _ w1 f) by (by rewrite O).
      rewrite (adapter_fails_fault _ f F). unfold rejected, served.
      rewrite F.
      destruct (settle (reply_of f));
        cbn [fst snd table clock after_exchange logged console_error];
        (split; [done |]); [| by left].
      right. left. by rewrite T.
  - destruct H as (T & O & C & A & K).
    cbn [fst snd table clock logged console_error].
    split; [done |]. by left.
Qed.

(** [updateJob] reads the clock once.  It answers with nothing and writes
    nothing when the reading is not a date, the expiration computation
    throws, or the adapter call fails; otherwise it answers with the job
    and the new [lastUpdated], and the store, if it was served, has
    patched the rows of that id. *)
Lemma updateJob_cases jobId job w :
  let res := (updateJob jobId job w).1 in
  let w' := (updateJob jobId job w).2 in
  let now := next_reading w in
  clock w' = now
  ∧ ((res = Returned None ∧ table w' = table w
      ∧ (Date.TimeClip now = None
         ∨ (∃ err, calculateExpiresAt job = Thrown err)
         ∨ adapter_fails w = true))
     ∨ (res = Returned (Some (with_lastUpdated (Some (Date.iso_string now)) job))
        ∧ - Date.maxTime ≤ now ≤ Date.maxTime
        ∧ adapter_fails w = false
        ∧ ∃ e, calculateExpiresAt job = Returned e
               ∧ ((¬ served w ∧ table w' = table w)
                  ∨ (served w
                     ∧ table w'
                       = map (λ r, if String.eqb (DbRow.job_id r) jobId
                                   then updated_row job (Date.iso_string now) e r
                                   else r) (table w))))).
Proof.
  cbv zeta. unfold updateJob. run.
  pose proof (updateJob_row_cases job w) as H.
  destruct (updateJob_row job w) as [[row | err] w1].
  - destruct H as (-> & V & e & E & ->).
    destruct (served_or_fault w) as [S | [f F]].
    + rewrite supabaseRequest_served by done.
      rewrite serve_patch.
      rewrite (patch_map _ _ (updated_row job (Date.iso_string (next_reading w)) e))
        by apply assign_updateJob_object.
      cbn [fst snd settle Z.leb Z.compare Pos.compare Pos.compare_cont
           table clock after_exchange after_reading].
      split; [done |]. right.
      rewrite get_string_updateJob_object, (adapter_fails_served _ S).
      repeat split; try done; try apply V.
      exists e. split; [done |]. right.
      split; [done |]. apply map_ext. intros r. by rewrite selected_job_id.
    + rewrite (supabaseRequest_fault _ _ _ (after_reading w) f F).
      rewrite (adapter_fails_fault _ f F). unfold rejected, served.
      rewrite F, get_string_updateJob_object.
      destruct (settle (reply_of f));
        cbn [fst snd table clock after_exchange after_reading logged
             console_error];
        (split; [done |]).
      * right. repeat split; try done; try apply V.
        exists e. split; [done |]. by left.
      * left. repeat split. by right; right.
  - destruct H as (-> & H).
    cbn [fst snd table clock after_reading logged console_error].
    split; [done |]. left. repeat split.
    destruct H as [H | H]; [by left | by right; left].
Qed.

Lemma timely_TimeClip w :
  timely w → Date.TimeClip (next_reading w) = Some (next_reading w).
Proof.
  intros T. apply DateFacts.TimeClip_Some. by apply timely_reading.
Qed.

Lemma createJob_row_returns job w e :
  timely w → calculateExpiresAt job = Returned e →
  ∃ row w1, createJob_row job w = (Returned row, w1).
Proof.
  intros T E. unfold createJob_row.
  destruct (timely_reading w T) as [_ T1].
  destruct (not_string (Job.createdAt job)).
  - unfold mbind at 1, M_bind at 1, bind at 1.
    rewrite read_clock_run, (timely_TimeClip w T). cbn [toISOString].
    unfold mbind at 1, M_bind at 1, bind at 1.
    rewrite read_clock_run, (timely_TimeClip _ T1). cbn [toISOString].
    run. rewrite E. eauto.
  - unfold mbind at 1, M_bind at 1, bind at 1. unfold ret at 1.
    unfold mbind at 1, M_bind at 1, bind at 1.
    rewrite read_clock_run, (timely_TimeClip w T). cbn [toISOString].
    run. rewrite E. eauto.
Qed.

(** In a timely world whose store serves the request, [createJob] of a
    job whose expiration can be computed answers with the job and adds
    its row. *)
Lemma createJob_served job w e :
  served w → timely w → calculateExpiresAt job = Returned e →
  (createJob job w).1 = Returned (Some job)
  ∧ table (createJob job w).2
    = (table w
       ++ [created_row job
             (if not_string (Job.createdAt job)
              then Date.iso_string (next_reading w)
              else or_string (Job.createdAt job) "")
             (Date.iso_string (clock (createJob job w).2)) e])%list.
Proof.
  intros S T E.
  destruct (createJob_row_returns job w e T E) as (row & w1 & R).
  pose proof (createJob_row_cases job w) as H. rewrite R in H.
  destruct H as ((Tb & O & _) & _ & e' & E' & ->).
  assert (e' = e) as -> by congruence.
  unfold createJob. run. rewrite R.
  rewrite supabaseRequest_served by (unfold served; by rewrite O).
  rewrite serve_post, fresh_createJob_object.
  cbn [fst snd settle Z.leb Z.compare Pos.compare Pos.compare_cont
       table clock after_exchange].
  by rewrite Tb.
Qed.

(** C3: whatever [createJob] or [updateJob] writes, the [expires_at] it
    writes is the result of the expiration computation on the supplied
    job: [createJob] leaves the table as it was or adds one row with that
    [expires_at]; [updateJob] leaves each row as it was or, for a row of
    the given id, with that [expires_at].  An [expiresAt] supplied by the
    caller changes nothing in the world either of them leaves behind.
    And when the store serves the request, the clock is in range and the
    computation returns, the row is written with that value. *)
Theorem expires_at_is_recomputed (jobId : string) (job : Job.t) (w : World) :
  (table (createJob job w).2 = table w
   ∨ ∃ row, table (createJob job w).2 = (table w ++ [row])%list
            ∧ calculateExpiresAt job = Returned (DbRow.expires_at row))
  ∧ Forall2 (λ r r', r' = r
                     ∨ (DbRow.job_id r = jobId
                        ∧ calculateExpiresAt job
                          = Returned (DbRow.expires_at r')))
      (table w) (table (updateJob jobId job w).2)
  ∧ (∀ x, (createJob (with_expiresAt x job) w).2 = (createJob job w).2
          ∧ (updateJob jobId (with_expiresAt x job) w).2
            = (updateJob jobId job w).2)
  ∧ (served w → timely w →
     ∀ e, calculateExpiresAt job = Returned e →
       (∃ row, table (createJob job w).2 = (table w ++ [row])%list
               ∧ DbRow.expires_at row = e)
       ∧ (∀ r', r' ∈ table (updateJob jobId job w).2 →
                DbRow.job_id r' = jobId → DbRow.expires_at r' = e)).
Proof.
  split; [| split; [| split]].
  - destruct (createJob_cases job w) as (_ & [(_ & T) | [(_ & T & _) | H]]);
      [by left | by left |].
    destruct H as (_ & _ & _ & e & E & T). right. eauto.
  - destruct (updateJob_cases jobId job w)
      as (_ & [(_ & T & _) | (_ & _ & _ & e & E & [(_ & T) | (_ & T)])]);
      rewrite T; try (apply Forall2_same_length_lookup_2; [done |];
                      intros i r r' A B; left; congruence).
    apply Forall2_fmap_r, Forall_Forall2_diag, Forall_forall. intros r _.
    unfold compose. cbv beta.
    destruct (String.eqb (DbRow.job_id r) jobId) eqn:Q; [| by left].
    right. apply String.eqb_eq in Q. done.
  - intros x. split.
    + unfold createJob. run.
      change (createJob_row (with_expiresAt x job)) with (createJob_row job).
      destruct (createJob_row job w) as [[row | err] w1]; [| done].
      by destruct (supabaseRequest "POST" (jobs []) (Some row) w1) as [[v | err] w2].
    + unfold updateJob. run.
      change (updateJob_row (with_expiresAt x job)) with (updateJob_row job).
      destruct (updateJob_row job w) as [[row | err] w1]; [| done].
      by destruct (supabaseRequest "PATCH" _ (Some row) w1) as [[v | err] w2].
  - intros S T e E. split.
    + destruct (createJob_served job w e S T E) as [_ Tb]. eauto.
    + intros r' Hr' Hid.
      destruct (updateJob_cases jobId job w)
        as (_ & [(_ & _ & [C | [[err C] | C]])
                | (_ & _ & _ & e' & E' & [(N & _) | (_ & Tb)])]).
      * by rewrite (timely_TimeClip w T) in C.
      * congruence.
      * by rewrite (adapter_fails_served w S) in C.
      * done.
      * assert (e' = e) as -> by congruence.
        rewrite Tb in Hr'. apply list_elem_of_fmap in Hr' as (r & -> & _).
        destruct (String.eqb (DbRow.job_id r) jobId) eqn:Q; [done |].
        apply String.eqb_neq in Q. done.
Qed.

Lemma expires_at_is_recomputed_witness :
  (∃ row, table (createJob J1 quiet).2 = (table quiet ++ [row])%list
          ∧ DbRow.expires_at row = Some "2024-01-02T01:45:00.000Z")
  ∧ (∀ r', r' ∈ table (updateJob "J1" J1 quiet).2 →
           DbRow.job_id r' = "J1" →
           DbRow.expires_at r' = Some "2024-01-02T01:45:00.000Z").
Proof.
  assert (T : timely quiet) by (vm_compute; split; discriminate).
  apply (proj2 (proj2 (proj2 (expires_at_is_recomputed "J1" J1 quiet)))
           eq_refl T).
  vm_compute. reflexivity.
Defined.

(** ** What [createJob] answers *)

(** C4, against the claim as stated: in a world whose store serves the
    request, [createJob] of J1 succeeds and answers with J1 as it came,
    without [createdAt], [lastUpdated] or [expiresAt]; the job it answers
    with carries none of the timestamps the row was written with
    (2024-01-01T12:00:00Z for the two readings of the clock,
    2024-01-02T01:45:00Z for the expiration). *)
Lemma createJob_counterexample :
  served quiet
  ∧ (createJob J1 quiet).1 = Returned (Some J1)
  ∧ (∃ row, table (createJob J1 quiet).2 = [row]
            ∧ DbRow.created_at row = Some "2024-01-01T12:00:00.000Z"
            ∧ DbRow.last_updated row = Some "2024-01-01T12:00:00.000Z"
            ∧ DbRow.expires_at row = Some "2024-01-02T01:45:00.000Z")
  ∧ ¬ (∃ j, (createJob J1 quiet).1 = Returned (Some j)
            ∧ (Job.createdAt j = Some "2024-01-01T12:00:00.000Z"
               ∨ Job.lastUpdated j = Some "2024-01-01T12:00:00.000Z"
               ∨ Job.expiresAt j = Some "2024-01-02T01:45:00.000Z")).
Proof.
  split; [reflexivity |]. split; [vm_compute; reflexivity |]. split.
  - eexists. split; [vm_compute; reflexivity |]. cbn. done.
  - intros (j & Hj & H). vm_compute in Hj. injection Hj as <-.
    cbn in H. by destruct H as [H | [H | H]].
Qed.

(** C4, amended: [createJob] answers with the job exactly as it was
    supplied, or with nothing.  On success against a store that serves
    the request (the clock in range, the expiration computable) it
    answers with the supplied job, and the server-assigned timestamps are
    those of the row it has written, not of the job it answers with:
    [created_at] is the supplied [createdAt], or the current time when
    none is supplied, [last_updated] is the current time, and
    [expires_at] the recomputed expiration. *)
Theorem createJob_answers_supplied_job (job : Job.t) (w : World) :
  ((createJob job w).1 = Returned (Some job)
   ∨ (createJob job w).1 = Returned None)
  ∧ (served w → timely w →
     ∀ e, calculateExpiresAt job = Returned e →
       (createJob job w).1 = Returned (Some job)
       ∧ ∃ row,
           table (createJob job w).2 = (table w ++ [row])%list
           ∧ DbRow.job_id row = Job.id job
           ∧ (∀ c, Job.createdAt job = Some c → c ≠ "" →
                   DbRow.created_at row = Some c)
           ∧ (not_string (Job.createdAt job) = true →
              DbRow.created_at row = Some (Date.iso_string (next_reading w)))
           ∧ DbRow.last_updated row
             = Some (Date.iso_string (clock (createJob job w).2))
           ∧ clock w ≤ clock (createJob job w).2
           ∧ DbRow.expires_at row = e).
Proof.
  split.
  - destruct (createJob_cases job w)
      as (_ & [(R & _) | [(R & _) | (R & _)]]); auto.
  - intros S T e E.
    destruct (createJob_served job w e S T E) as [R Tb].
    split; [done |]. eexists. split; [exact Tb |].
    cbn [created_row DbRow.job_id DbRow.created_at DbRow.last_updated
         DbRow.expires_at].
    repeat split.
    + intros c Hc Hne. rewrite Hc. by destruct c.
    + by intros ->.
    + by destruct (createJob_cases job w) as [C _].
Qed.

Lemma createJob_answers_supplied_job_witness :
  (createJob J1 quiet).1 = Returned (Some J1)
  ∧ ∃ row,
      table (createJob J1 quiet).2 = (table quiet ++ [row])%list
      ∧ DbRow.job_id row = Job.id J1
      ∧ (∀ c, Job.createdAt J1 = Some c → c ≠ "" →
              DbRow.created_at row = Some c)
      ∧ (not_string (Job.createdAt J1) = true →
         DbRow.created_at row = Some (Date.iso_string (next_reading quiet)))
      ∧ DbRow.last_updated row
        = Some (Date.iso_string (clock (createJob J1 quiet).2))
      ∧ clock quiet ≤ clock (createJob J1 quiet).2
      ∧ DbRow.expires_at row = Some "2024-01-02T01:45:00.000Z".
Proof.
  assert (T : timely quiet) by (vm_compute; split; discriminate).
  apply (proj2 (createJob_answers_supplied_job J1 quiet) eq_refl T).
  vm_compute. reflexivity.
Defined.

(** ** The routes *)

Lemma server_POST_jobs job w :
  server (POST_jobs job) w
  = match createJob job w with
    | (Returned created, w') => (Returned (json 201 (JobJson created)), w')
    | (Thrown err, w') =>
        (Returned (json 500 (ErrorJson "Internal server error")),
         logged (console_error_line "Request error:" err) w')
    end.
Proof.
  unfold server, POST_jobs. cbn [req_method pathname req_body].
  cbn [String.eqb Ascii.eqb Bool.eqb andb orb String.prefix].
  run. unfold readBody. cbn [req_body]. unfold ret.
  by destruct (createJob job w) as [[c | err] w'].
Qed.

Lemma server_GET_jobs w :
  server GET_jobs w
  = match getAllJobs w with
    | (Returned jobs, w') => (Returned (json 200 (JobsJson jobs)), w')
    | (Thrown err, w') =>
        (Returned (json 500 (ErrorJson "Internal server error")),
         logged (console_error_line "Request error:" err) w')
    end.
Proof.
  unfold server, GET_jobs. cbn [req_method pathname req_body].
  cbn [String.eqb Ascii.eqb Bool.eqb andb orb String.prefix].
  run.
  by destruct (getAllJobs w) as [[c | err] w'].
Qed.

Lemma prefix_api_jobs p :
  String.prefix "/api/jobs/" p = true →
  String.eqb p "/" = false ∧ String.eqb p "/index.html" = false.
Proof.
  destruct p as [| c1 [| c2 p]]; cbn [String.prefix]; try done.
  - by destruct (ascii_dec "/" c1).
  - destruct (ascii_dec "/" c1) as [<- |]; [| done].
    destruct (ascii_dec "a" c2) as [<- |]; [| done]. done.
Qed.

Lemma server_PUT_job p job w :
  String.prefix "/api/jobs/" p = true →
  server (PUT_job p job) w
  = match updateJob (path_id p) job w with
    | (Returned (Some j), w') => (Returned (json 200 (JobJson (Some j))), w')
    | (Returned None, w') =>
        (Returned (json 404 (ErrorJson "Job not found")), w')
    | (Thrown err, w') =>
        (Returned (json 500 (ErrorJson "Internal server error")),
         logged (console_error_line "Request error:" err) w')
    end.
Proof.
  intros H. destruct (prefix_api_jobs p H) as [E1 E2].
  unfold server, PUT_job. cbn [req_method pathname req_body].
  rewrite E1, E2, H.
  cbn [String.eqb Ascii.eqb Bool.eqb andb orb].
  run. unfold readBody. cbn [req_body]. unfold ret.
  by destruct (updateJob (path_id p) job w) as [[[j |] | err] w'].
Qed.

(** C5, on the code: when the adapter call of [createJob] fails,
    [POST /api/jobs] still answers 201, with the body [null].  Whatever
    [createJob] answers, job or nothing, the route sends it with status
    201; in the world [down], where the store answers 503, that is
    nothing. *)
Theorem post_jobs_answers_201 (job : Job.t) (w : World) :
  (∃ created, (createJob job w).1 = Returned created
              ∧ (server (POST_jobs job) w).1
                = Returned (json 201 (JobJson created)))
  ∧ adapter_fails down = true
  ∧ (createJob J1 down).1 = Returned None
  ∧ (server (POST_jobs J1) down).1 = Returned (json 201 (JobJson None)).
Proof.
  split; [| by vm_compute].
  rewrite server_POST_jobs.
  destruct (createJob_cases job w) as (_ & [(R & _) | [(R & _) | (R & _)]]);
    destruct (createJob job w) as [res w']; cbn [fst] in *; subst res; eauto.
Qed.

(** ** [getAllJobs] *)

Lemma filter_everything {A} (P : A → bool) (l : list A) :
  (∀ x, P x = true) → filter (λ x, P x) l = l.
Proof.
  intros H. induction l as [| x l IH]; [done |].
  rewrite filter_cons, H. cbn. by rewrite IH.
Qed.

Lemma getAllJobs_served w :
  served w →
  getAllJobs w
  = (Returned (foldl (λ jobs row, set_property (DbRow.job_id row) (rowToJob row) jobs)
                 ∅ (Store.sort_desc created_at (table w))),
     after_exchange (table w) w).
Proof.
  intros S. unfold getAllJobs. run.
  rewrite supabaseRequest_served by done.
  assert (Store.serve
            {| method := "GET"; endpoint := jobs [order_desc created_at];
               body := None |} (table w)
          = (Response 200 (JsonData (JRows (Store.sort_desc created_at (table w)))),
             table w)) as ->; [| done].
  change (Store.serve _ (table w))
    with (Response 200
            (JsonData (JRows (Store.sort_desc created_at
               (filter (λ r, Store.selected [order_desc created_at] r) (table w))))),
          table w).
  by rewrite (filter_everything (Store.selected [order_desc created_at])).
Qed.

Lemma getAllJobs_fault w f :
  hd None (outages w) = Some f →
  (getAllJobs w).1 = Returned ∅
  ∧ (rejected (reply_of f) = true →
     ∃ err, console (getAllJobs w).2
            = (console w ++ [console_error_line "getAllJobs error:" err])%list).
Proof.
  intros F. unfold getAllJobs, rejected. run.
  rewrite (supabaseRequest_fault _ _ _ _ f F).
  pose proof (settle_fault_rows f) as S.
  destruct (settle (reply_of f)) as [[| v |] | err]; cbn; try done.
  split; [done |]. intros _. by exists err.
Qed.

Lemma insert_desc_elem c r l x :
  x ∈ Store.insert_desc c r l → x = r ∨ x ∈ l.
Proof.
  induction l as [| y l IH]; cbn [Store.insert_desc].
  - intros H. apply list_elem_of_singleton in H. by left.
  - destruct (Store.before_desc c r y).
    + intros H. apply elem_of_cons in H as [-> | H]; [by left | by right].
    + intros H. apply elem_of_cons in H as [-> | H].
      * right. apply list_elem_of_here.
      * destruct (IH H) as [-> | H']; [by left |].
        right. by apply list_elem_of_further.
Qed.

Lemma sort_desc_elem c l x : x ∈ Store.sort_desc c l → x ∈ l.
Proof.
  induction l as [| y l IH]; [done |].
  unfold Store.sort_desc. cbn [foldr]. intros H.
  apply insert_desc_elem in H as [-> | H]; [apply list_elem_of_here |].
  apply list_elem_of_further. by apply IH.
Qed.

Lemma set_property_lookup k v (o : gmap string Job.t) k' :
  set_property k v o !! k'
  = if String.eqb k "__proto__" then o !! k'
    else if String.eqb k k' then Some v else o !! k'.
Proof.
  unfold set_property. destruct (String.eqb k "__proto__"); [done |].
  destruct (String.eqb k k') eqn:E.
  - apply String.eqb_eq in E as ->. apply lookup_insert_eq.
  - apply String.eqb_neq in E. by apply lookup_insert_ne.
Qed.

(** Every key of the object holds the job of a row with that id. *)
Lemma jobs_by_id (rows : list DbRow.t) (acc : gmap string Job.t) jobId j :
  foldl (λ jobs row, set_property (DbRow.job_id row) (rowToJob row) jobs) acc rows
    !! jobId = Some j →
  acc !! jobId = Some j
  ∨ (Job.id j = jobId ∧ ∃ row, row ∈ rows ∧ j = rowToJob row).
Proof.
  revert acc. induction rows as [| r rows IH]; intros acc; cbn [foldl];
    [by left |].
  intros H. destruct (IH _ H) as [H' | (I & row & M & E)].
  - rewrite set_property_lookup in H'.
    destruct (String.eqb (DbRow.job_id r) "__proto__"); [by left |].
    destruct (String.eqb (DbRow.job_id r) jobId) eqn:Q; [| by left].
    apply String.eqb_eq in Q as <-. injection H' as <-.
    right. split; [done |]. exists r. split; [apply list_elem_of_here | done].
  - right. split; [done |]. exists row.
    split; [by apply list_elem_of_further | done].
Qed.

(** No row makes a property of the name [__proto__]. *)
Lemma jobs_no_proto (rows : list DbRow.t) (acc : gmap string Job.t) :
  acc !! "__proto__" = None →
  foldl (λ jobs row, set_property (DbRow.job_id row) (rowToJob row) jobs) acc rows
    !! "__proto__" = None.
Proof.
  revert acc. induction rows as [| r rows IH]; intros acc H; cbn [foldl];
    [done |].
  apply IH. rewrite set_property_lookup.
  by destruct (String.eqb (DbRow.job_id r) "__proto__").
Qed.

(** C7: whatever the state of the store and of the adapter, [getAllJobs]
    returns, and what it returns is a mapping in which every key is the
    id of the job it holds, a job of a row of the table; the mapping is
    empty when the adapter call fails, and the failure is logged, not
    thrown.  So [GET /api/jobs] always answers 200 with that mapping.
    The mapping is the plain object the rows were assigned to one after
    the other under their ids: it has no key [__proto__], a row of that
    id leaving no entry. *)
Theorem getAllJobs_best_effort (w : World) :
  ∃ jobs : gmap string Job.t,
    (getAllJobs w).1 = Returned jobs
    ∧ (server GET_jobs w).1 = Returned (json 200 (JobsJson jobs))
    ∧ (∀ jobId j, jobs !! jobId = Some j →
                  Job.id j = jobId ∧ ∃ row, row ∈ table w ∧ j = rowToJob row)
    ∧ jobs !! "__proto__" = None
    ∧ (adapter_fails w = true →
       jobs = ∅
       ∧ ∃ err, console (getAllJobs w).2
                = (console w ++ [console_error_line "getAllJobs error:" err])%list)
    ∧ (¬ served w → jobs = ∅)
    ∧ (served w →
       jobs = foldl (λ jobs row,
                       set_property (DbRow.job_id row) (rowToJob row) jobs)
                ∅ (Store.sort_desc created_at (table w))).
Proof.
  rewrite server_GET_jobs.
  destruct (served_or_fault w) as [S | [f F]].
  - rewrite (getAllJobs_served w S). eexists. split; [done |].
    split; [done |]. split; [| split; [| split; [| split]]].
    + intros jobId j H. apply jobs_by_id in H as [H | (I & row & M & E)];
        [by rewrite lookup_empty in H |].
      split; [done |]. exists row. split; [| done].
      by apply (sort_desc_elem created_at).
    + apply jobs_no_proto, lookup_empty.
    + by rewrite (adapter_fails_served w S).
    + done.
    + done.
  - destruct (getAllJobs_fault w f F) as [R L].
    destruct (getAllJobs w) as [res w'] eqn:G. cbn [fst snd] in *. subst res.
    exists ∅. split; [done |]. split; [done |].
    split; [| split; [| split; [| split]]].
    + intros jobId j H. by rewrite lookup_empty in H.
    + apply lookup_empty.
    + rewrite (adapter_fails_fault w f F). intros H. split; [done | by apply L].
    + done.
    + unfold served. by rewrite F.
Qed.

Lemma getAllJobs_best_effort_witness :
  ∃ jobs : gmap string Job.t,
    (getAllJobs down).1 = Returned jobs ∧ jobs = ∅.
Proof.
  destruct (getAllJobs_best_effort down) as (jobs & R & _ & _ & _ & F & _).
  exists jobs. split; [exact R |].
  exact (proj1 (F eq_refl)).
Defined.

(** ** [PUT /api/jobs/{id}] *)

(** C10, against the claim as stated: in a world where no adapter call
    fails, [PUT /api/jobs/J3] with a job whose [startTime] is not a date,
    and [PUT /api/jobs/J2] with a job whose total runs past the last
    representable date, both answer 404: the expiration computation
    throws inside [updateJob] before any adapter call is made. *)
Lemma put_job_counterexample :
  served quiet ∧ adapter_fails quiet = false
  ∧ (server (PUT_job "/api/jobs/J3" J_undated) quiet).1
    = Returned (json 404 (ErrorJson "Job not found"))
  ∧ (server (PUT_job "/api/jobs/J2" J_far) quiet).1
    = Returned (json 404 (ErrorJson "Job not found")).
Proof. by vm_compute. Qed.

(** C10, amended: for every id and job, when the clock is in range, the
    expiration computation returns and the adapter's PATCH call does not
    fail (also when no stored row has that id, in which case the table
    stays as it was), [updateJob] answers with the supplied job and the
    new [lastUpdated], and [PUT /api/jobs/{id}] answers 200 with that
    job.  The route answers 200 with the job or 404, and 404 exactly when
    the adapter call fails, the expiration computation throws, or the
    clock reading is not a date. *)
Theorem put_job_echoes (p : string) (job : Job.t) (w : World) :
  String.prefix "/api/jobs/" p = true →
  let now := next_reading w in
  let echo := with_lastUpdated (Some (Date.iso_string now)) job in
  let res := (server (PUT_job p job) w).1 in
  (∀ e, - Date.maxTime ≤ now ≤ Date.maxTime →
        calculateExpiresAt job = Returned e →
        adapter_fails w = false →
        (updateJob (path_id p) job w).1 = Returned (Some echo)
        ∧ res = Returned (json 200 (JobJson (Some echo)))
        ∧ (served w → (∀ r, r ∈ table w → DbRow.job_id r ≠ path_id p) →
           table (server (PUT_job p job) w).2 = table w))
  ∧ (res = Returned (json 200 (JobJson (Some echo)))
     ∨ res = Returned (json 404 (ErrorJson "Job not found")))
  ∧ (res = Returned (json 404 (ErrorJson "Job not found"))
     ↔ Date.TimeClip now = None
       ∨ (∃ err, calculateExpiresAt job = Thrown err)
       ∨ adapter_fails w = true).
Proof.
  intros P now echo res. subst res echo now.
  rewrite (server_PUT_job p job w P).
  pose proof (updateJob_cases (path_id p) job w) as (_ & H).
  destruct (updateJob (path_id p) job w) as [r w'] eqn:U.
  cbn [fst snd] in *.
  destruct H as [(-> & T & Why) | (-> & V & A & e & E & Tb)]; cbn [fst snd].
  - split; [| split; [by right | done]].
    intros e V E A. exfalso. destruct Why as [C | [[err C] | C]].
    + by rewrite (DateFacts.TimeClip_Some _ V) in C.
    + congruence.
    + congruence.
  - split; [| split; [by left |]].
    + intros _ _ _ _. split; [done |]. split; [done |].
      intros S N. destruct Tb as [[NS _] | [_ ->]]; [done |].
      rewrite <- (map_id (table w)) at 2. apply map_ext_in. intros r Hr.
      destruct (String.eqb (DbRow.job_id r) (path_id p)) eqn:Q; [| done].
      apply String.eqb_eq in Q. destruct (N r); [| done].
      by apply list_elem_of_In.
    + split; [done |]. intros [C | [[err C] | C]].
      * by rewrite (DateFacts.TimeClip_Some _ V) in C.
      * congruence.
      * congruence.
Qed.

Lemma put_job_echoes_witness :
  (updateJob (path_id "/api/jobs/nobody") J1 quiet).1
  = Returned (Some (with_lastUpdated
                      (Some (Date.iso_string (next_reading quiet))) J1))
  ∧ (server (PUT_job "/api/jobs/nobody" J1) quiet).1
    = Returned (json 200 (JobJson (Some (with_lastUpdated
                 (Some (Date.iso_string (next_reading quiet))) J1))))
  ∧ (served quiet →
     (∀ r, r ∈ table quiet → DbRow.job_id r ≠ path_id "/api/jobs/nobody") →
     table (server (PUT_job "/api/jobs/nobody" J1) quiet).2 = table quiet).
Proof.
  assert (V : - Date.maxTime ≤ next_reading quiet ≤ Date.maxTime)
    by (vm_compute; split; discriminate).
  assert (E : calculateExpiresAt J1 = Returned (Some "2024-01-02T01:45:00.000Z"))
    by (vm_compute; reflexivity).
  exact (proj1 (put_job_echoes "/api/jobs/nobody" J1 quiet eq_refl)
           _ V E eq_refl).
Defined.

(** ** [updateJob]: what it leaves alone, and [last_updated] *)

Lemma stamped_spec w :
  stamped w = true
  ↔ ∀ r, r ∈ table w →
         ∀ t, DbRow.last_updated r ≫= Date.parse = Some t → t ≤ clock w.
Proof.
  unfold stamped. rewrite forallb_forall. split.
  - intros H r Hr t Ht. apply list_elem_of_In in Hr.
    specialize (H r Hr). rewrite Ht in H. by apply Z.leb_le.
  - intros H r Hr. apply list_elem_of_In in Hr.
    destruct (DbRow.last_updated r ≫= Date.parse) as [t |] eqn:E; [| done].
    apply Z.leb_le. by apply (H r Hr).
Qed.

(** A step of the world keeps every [last_updated] behind the clock when
    the clock does not go back and every row is an old one or was
    stamped with the clock's reading. *)
Lemma stamped_step w w' :
  stamped w = true → clock w ≤ clock w' →
  (∀ r', r' ∈ table w' →
         r' ∈ table w
         ∨ (- Date.maxTime ≤ clock w' ≤ Date.maxTime
            ∧ DbRow.last_updated r' = Some (Date.iso_string (clock w')))) →
  stamped w' = true.
Proof.
  rewrite !stamped_spec. intros H C N r' Hr' t Ht.
  destruct (N r' Hr') as [Old | [V New]].
  - specialize (H r' Old t Ht). lia.
  - rewrite New in Ht. cbn [mbind option_bind] in Ht.
    rewrite (DateFacts.parse_iso_string _ V) in Ht. injection Ht as <-. lia.
Qed.

Lemma next_reading_le w : clock w ≤ next_reading w.
Proof. unfold next_reading. lia. Qed.

Lemma updateJob_stamped jobId job w :
  stamped w = true → stamped (updateJob jobId job w).2 = true.
Proof.
  intros H. apply (stamped_step w); [done | |].
  - destruct (updateJob_cases jobId job w) as (-> & _). apply next_reading_le.
  - intros r' Hr'.
    destruct (updateJob_cases jobId job w)
      as (C & [(_ & T & _) | (_ & V & _ & e & _ & [(_ & T) | (_ & T)])]);
      rewrite T in Hr'; try (by left).
    apply list_elem_of_fmap in Hr' as (r & -> & Hr).
    destruct (String.eqb (DbRow.job_id r) jobId); [| by left].
    right. rewrite C. done.
Qed.

(** C6: [updateJob(id, job)] never writes the id or the [created_at] of a
    row: row by row, the table afterwards has the ids and [created_at] it
    had.  Every row it touches is a row of that id, and its
    [last_updated] becomes the current time; when no [last_updated] in
    the table was ahead of the clock, that time is greater than or equal
    to the row's previous [last_updated], and again no [last_updated] is
    ahead of the clock afterwards.  When the store serves the request
    (clock in range, expiration computable) every row of that id is
    touched. *)
Theorem updateJob_frame (jobId : string) (job : Job.t) (w : World) :
  let w' := (updateJob jobId job w).2 in
  let now := next_reading w in
  Forall2 (λ r r',
             DbRow.job_id r' = DbRow.job_id r
             ∧ DbRow.created_at r' = DbRow.created_at r
             ∧ (r' = r
                ∨ (DbRow.job_id r = jobId
                   ∧ DbRow.last_updated r' = Some (Date.iso_string now)
                   ∧ Date.parse (Date.iso_string now) = Some now)))
    (table w) (table w')
  ∧ (stamped w = true →
     stamped w' = true
     ∧ Forall2 (λ r r',
                  ∀ t t', DbRow.last_updated r ≫= Date.parse = Some t →
                          DbRow.last_updated r' ≫= Date.parse = Some t' →
                          t ≤ t')
         (table w) (table w'))
  ∧ (served w → timely w →
     ∀ e, calculateExpiresAt job = Returned e →
          ∀ r', r' ∈ table w' → DbRow.job_id r' = jobId →
                DbRow.last_updated r' = Some (Date.iso_string now)).
Proof.
  intros w' now. subst w' now.
  pose proof (updateJob_cases jobId job w) as (C & H).
  assert (Same : ∀ (P : DbRow.t → DbRow.t → Prop),
             (∀ r, P r r) → Forall2 P (table w) (table w)).
  { intros P HP. apply Forall_Forall2_diag, Forall_forall. auto. }
  split; [| split].
  - destruct H as [(_ & T & _) | (_ & V & _ & e & _ & [(_ & T) | (_ & T)])];
      rewrite T; try (apply Same; intros r; by repeat split; try left).
    apply Forall2_fmap_r, Forall_Forall2_diag, Forall_forall. intros r _.
    unfold compose. cbv beta.
    destruct (String.eqb (DbRow.job_id r) jobId) eqn:Q;
      [| by repeat split; try left].
    apply String.eqb_eq in Q. cbn [updated_row DbRow.job_id DbRow.created_at
                                     DbRow.last_updated].
    repeat split. right. repeat split; [done |].
    by apply DateFacts.parse_iso_string.
  - intros St. split; [by apply updateJob_stamped |].
    pose proof (proj1 (stamped_spec w) St) as St'.
    destruct H as [(_ & T & _) | (_ & V & _ & e & _ & [(_ & T) | (_ & T)])];
      rewrite T;
      try (apply Same; intros r t t' A B; rewrite A in B; injection B as <-; lia).
    apply Forall2_fmap_r, Forall_Forall2_diag, Forall_forall. intros r Hr.
    unfold compose. cbv beta.
    destruct (String.eqb (DbRow.job_id r) jobId) eqn:Q;
      [| intros t t' A B; rewrite A in B; injection B as <-; lia].
    intros t t' A B. cbn [updated_row DbRow.last_updated mbind option_bind] in B.
    rewrite (DateFacts.parse_iso_string _ V) in B. injection B as <-.
    specialize (St' r Hr t A).
    pose proof (next_reading_le w). lia.
  - intros S T e E r' Hr' Hid.
    destruct H as [(_ & _ & [B | [[err B] | B]])
                  | (_ & _ & _ & e' & E' & [(N & _) | (_ & Tb)])].
    + by rewrite (timely_TimeClip w T) in B.
    + congruence.
    + by rewrite (adapter_fails_served w S) in B.
    + done.
    + rewrite Tb in Hr'. apply list_elem_of_fmap in Hr' as (r & -> & _).
      destruct (String.eqb (DbRow.job_id r) jobId) eqn:Q; [done |].
      apply String.eqb_neq in Q. done.
Qed.

Lemma updateJob_frame_witness :
  (stamped (updateJob "J1" J1 stale).2 = true
   ∧ Forall2 (λ r r',
                ∀ t t', DbRow.last_updated r ≫= Date.parse = Some t →
                        DbRow.last_updated r' ≫= Date.parse = Some t' →
                        t ≤ t')
       (table stale) (table (updateJob "J1" J1 stale).2))
  ∧ (∀ r', r' ∈ table (updateJob "J1" J1 stale).2 →
           DbRow.job_id r' = "J1" →
           DbRow.last_updated r'
           = Some (Date.iso_string (next_reading stale))).
Proof.
  assert (T : timely stale) by (vm_compute; split; discriminate).
  assert (St : stamped stale = true) by (vm_compute; reflexivity).
  assert (E : calculateExpiresAt J1 = Returned (Some "2024-01-02T01:45:00.000Z"))
    by (vm_compute; reflexivity).
  split.
  - exact (proj1 (proj2 (updateJob_frame "J1" J1 stale)) St).
  - exact (proj2 (proj2 (updateJob_frame "J1" J1 stale)) eq_refl T _ E).
Defined.

(** ** No [last_updated] is ever ahead of the clock *)

Lemma keeps_ret {A} (a : A) : keeps_stamped (ret a).
Proof. by intros w H. Qed.

Lemma keeps_throw {A} (e : Error) : keeps_stamped (@throw A e).
Proof. by intros w H. Qed.

Lemma keeps_lift {A} (r : Result A) : keeps_stamped (lift r).
Proof. by intros w H. Qed.

Lemma keeps_bind {A B} (m : M A) (k : A → M B) :
  keeps_stamped m → (∀ a, keeps_stamped (k a)) → keeps_stamped (m ≫= k).
Proof.
  intros Hm Hk w H. specialize (Hm w H). run.
  destruct (m w) as [[a | e] w1]; cbn [snd] in *; [by apply Hk | done].
Qed.

Lemma keeps_try_catch {A} (m : M A) (h : Error → M A) :
  keeps_stamped m → (∀ e, keeps_stamped (h e)) → keeps_stamped (try_catch m h).
Proof.
  intros Hm Hh w H. specialize (Hm w H). unfold try_catch.
  destruct (m w) as [[a | e] w1]; cbn [snd] in *; [done | by apply Hh].
Qed.

Lemma keeps_console_error label err : keeps_stamped (console_error label err).
Proof. by intros w H. Qed.

Lemma keeps_console_log text : keeps_stamped (console_log text).
Proof. by intros w H. Qed.

Lemma keeps_new_Date : keeps_stamped new_Date.
Proof.
  intros w H. apply (stamped_step w); [done | apply next_reading_le |].
  intros r' Hr'. by left.
Qed.

Lemma keeps_serveStaticFile f : keeps_stamped (serveStaticFile f).
Proof. intros w H. unfold serveStaticFile. by destruct (asset w). Qed.

(** A request that writes nothing new: the table afterwards holds rows it
    held before. *)
Lemma keeps_reading_request method q :
  method = "GET" ∨ method = "DELETE" →
  keeps_stamped (supabaseRequest method (jobs q) None).
Proof.
  intros Hm w H. apply (stamped_step w); [done | |].
  - destruct (served_or_fault w) as [S | [f F]].
    + by rewrite supabaseRequest_served.
    + by rewrite (supabaseRequest_fault _ _ _ _ f F).
  - intros r'. destruct (served_or_fault w) as [S | [f F]].
    + rewrite supabaseRequest_served by done.
      destruct Hm as [-> | ->]; cbn [snd after_exchange table Store.serve];
        [by left |].
      change (table (after_exchange ?t w)) with t.
      intros Hr'. left.
      change (r' ∈ filter (λ r, negb (Store.selected q r)) (table w)) in Hr'.
      by apply list_elem_of_filter in Hr' as [_ Hr'].
    + rewrite (supabaseRequest_fault _ _ _ _ f F). by left.
Qed.

Lemma keeps_getAllJobs : keeps_stamped getAllJobs.
Proof.
  apply keeps_try_catch.
  - apply keeps_bind; [apply keeps_reading_request; by left |].
    intros rows. apply keeps_ret.
  - intros e. apply keeps_bind; [apply keeps_console_error |].
    intros _. apply keeps_ret.
Qed.

Lemma keeps_getJob jobId : keeps_stamped (getJob jobId).
Proof.
  apply keeps_try_catch.
  - apply keeps_bind; [apply keeps_reading_request; by left |].
    intros rows. apply keeps_ret.
  - intros e. apply keeps_bind; [apply keeps_console_error |].
    intros _. apply keeps_ret.
Qed.

Lemma keeps_deleteJob jobId : keeps_stamped (deleteJob jobId).
Proof.
  apply keeps_try_catch.
  - apply keeps_bind; [apply keeps_reading_request; by right |].
    intros rows. apply keeps_ret.
  - intros e. apply keeps_bind; [apply keeps_console_error |].
    intros _. apply keeps_ret.
Qed.

Lemma keeps_cleanupExpiredJobs : keeps_stamped cleanupExpiredJobs.
Proof.
  apply keeps_try_catch.
  - apply keeps_bind.
    + apply keeps_bind; [apply keeps_new_Date |]. intros d. apply keeps_lift.
    + intros now. apply keeps_bind; [apply keeps_reading_request; by right |].
      intros _. apply keeps_console_log.
  - intros e. apply keeps_console_error.
Qed.

Lemma keeps_createJob job : keeps_stamped (createJob job).
Proof.
  intros w H.
  destruct (createJob_cases job w) as (C & Cases).
  apply (stamped_step w); [done | done |]. intros r' Hr'.
  destruct Cases as [(_ & T) | [(_ & T & _) | (_ & _ & V & e & _ & T)]];
    rewrite T in Hr'; try (by left).
  apply elem_of_app in Hr' as [Hr' | Hr']; [by left |].
  apply list_elem_of_singleton in Hr' as ->. by right.
Qed.

Lemma keeps_updateJob jobId job : keeps_stamped (updateJob jobId job).
Proof. intros w H. by apply updateJob_stamped. Qed.

Lemma keeps_readBody req : keeps_stamped (readBody req).
Proof.
  unfold readBody. destruct (req_body req); [apply keeps_ret | apply keeps_throw].
Qed.

(** The invariant of the service: starting from a table in which no
    [last_updated] is ahead of the clock (an empty one, say), no request
    to the server ever leaves one ahead of it. *)
Lemma keeps_server req : keeps_stamped (server req).
Proof.
  unfold server.
  destruct (String.eqb (req_method req) "OPTIONS"); [apply keeps_ret |].
  apply keeps_try_catch.
  - repeat match goal with
           | |- keeps_stamped (if ?c then _ else _) => destruct c
           end;
      try apply keeps_serveStaticFile;
      repeat first
        [ apply keeps_ret
        | apply keeps_getAllJobs | apply keeps_getJob | apply keeps_createJob
        | apply keeps_updateJob | apply keeps_deleteJob
        | apply keeps_cleanupExpiredJobs | apply keeps_readBody
        | apply keeps_bind; [| intros ?] ].
  - intros e. apply keeps_bind; [apply keeps_console_error |].
    intros _. apply keeps_ret.
Qed.

Lemma stamped_empty w : table w = [] → stamped w = true.
Proof. unfold stamped. by intros ->. Qed.

(** Whatever requests arrive and whenever the timer fires, a process
    started on an empty table never holds a [last_updated] ahead of its
    clock. *)
Lemma stamped_run events w :
  table w = [] → stamped (run events w) = true.
Proof.
  intros E. unfold run.
  assert (H : stamped (cleanupExpiredJobs w).2 = true)
    by (apply keeps_cleanupExpiredJobs; by apply stamped_empty).
  revert H. generalize (cleanupExpiredJobs w).2. clear E w.
  induction events as [| e events IH]; intros w H; [done |].
  cbn [foldl]. apply IH. destruct e as [req |]; cbn [handle].
  - by apply keeps_server.
  - by apply keeps_cleanupExpiredJobs.
Qed.

(** ** The timer *)

(** The interval given to [setInterval] is one hour, 3600 seconds. *)
Example cleanupInterval_seconds : cleanupInterval = 3600 * 1000.
Proof. reflexivity. Qed.

(** * More of [server.js] *)

(** ** Nothing thrown gets out of the repository *)

Lemma returns_try_catch {A} (m : M A) (h : Error → M A) :
  (∀ e, returns (h e)) → returns (try_catch m h).
Proof.
  intros H w. unfold try_catch.
  destruct (m w) as [[a | e] w1]; [by exists a | apply H].
Qed.

Lemma returns_logged {A} label (v : A) err :
  returns (_ ← console_error label err; ret v).
Proof. intros w. by exists v. Qed.

Lemma silent_ret {A} (a : A) : silent (ret a).
Proof. by intros w. Qed.

Lemma silent_lift {A} (r : Result A) : silent (lift r).
Proof. by intros w. Qed.

Lemma silent_bind {A B} (m : M A) (k : A → M B) :
  silent m → (∀ a, silent (k a)) → silent (m ≫= k).
Proof.
  intros Hm Hk w. specialize (Hm w). run.
  destruct (m w) as [[a | e] w1]; cbn [snd] in *; [| done].
  by rewrite Hk.
Qed.

Lemma silent_new_Date : silent new_Date.
Proof. by intros w. Qed.

Lemma silent_supabaseRequest method ep body :
  silent (supabaseRequest method ep body).
Proof.
  intros w. destruct (served_or_fault w) as [S | [f F]].
  - by rewrite supabaseRequest_served.
  - by rewrite (supabaseRequest_fault _ _ _ _ f F).
Qed.

Lemma silent_createJob_row job : silent (createJob_row job).
Proof.
  unfold createJob_row.
  apply silent_bind; [| intros c; apply silent_bind; [| intros u]].
  - destruct (not_string (Job.createdAt job)); [| apply silent_ret].
    apply silent_bind; [apply silent_new_Date | intros d; apply silent_lift].
  - apply silent_bind; [apply silent_new_Date | intros d; apply silent_lift].
  - apply silent_bind; [apply silent_lift | intros e; apply silent_ret].
Qed.

Lemma silent_updateJob_row job : silent (updateJob_row job).
Proof.
  unfold updateJob_row. apply silent_bind; [| intros u].
  - apply silent_bind; [apply silent_new_Date | intros d; apply silent_lift].
  - apply silent_bind; [apply silent_lift | intros e; apply silent_ret].
Qed.

Lemma bind_result {A B} (m : M A) (k : A → M B) w b :
  ((m ≫= k) w).1 = Returned b →
  ∃ a, (m w).1 = Returned a ∧ (k a (m w).2).1 = Returned b.
Proof.
  run. destruct (m w) as [[a | e] w1]; cbn [fst snd]; [eauto | done].
Qed.






Lemma returns_cleanupExpiredJobs : returns cleanupExpiredJobs.
Proof. apply returns_try_catch. intros e w. by exists (). Qed.

(** ** One round trip to the store at most *)

Lemma offline_ret {A} (a : A) : offline (ret a).
Proof. by intros w. Qed.

Lemma offline_lift {A} (r : Result A) : offline (lift r).
Proof. by intros w. Qed.

Lemma offline_throw {A} (e : Error) : offline (@throw A e).
Proof. by intros w. Qed.

Lemma offline_new_Date : offline new_Date.
Proof. by intros w. Qed.

Lemma offline_console_error label err : offline (console_error label err).
Proof. by intros w. Qed.

Lemma offline_console_log text : offline (console_log text).
Proof. by intros w. Qed.

Lemma offline_bind {A B} (m : M A) (k : A → M B) :
  offline m → (∀ a, offline (k a)) → offline (m ≫= k).
Proof.
  intros Hm Hk w. destruct (Hm w) as [O T]. run.
  destruct (m w) as [[a | e] w1]; cbn [snd] in *; [| done].
  destruct (Hk a w1) as [O' T']. split; congruence.
Qed.

Lemma offline_serveStaticFile f : offline (serveStaticFile f).
Proof. intros w. unfold serveStaticFile. by destruct (asset w). Qed.

Lemma offline_readBody req : offline (readBody req).
Proof.
  unfold readBody. destruct (req_body req);
    [apply offline_ret | apply offline_throw].
Qed.

Lemma offline_read_clock : offline (d ← new_Date; lift (toISOString d)).
Proof. apply offline_bind; [apply offline_new_Date | intros d; apply offline_lift]. Qed.

Lemma offline_createJob_row job : offline (createJob_row job).
Proof.
  unfold createJob_row.
  apply offline_bind; [| intros c; apply offline_bind; [| intros u]].
  - destruct (not_string (Job.createdAt job));
      [apply offline_read_clock | apply offline_ret].
  - apply offline_read_clock.
  - apply offline_bind; [apply offline_lift | intros e; apply offline_ret].
Qed.

Lemma offline_updateJob_row job : offline (updateJob_row job).
Proof.
  unfold updateJob_row. apply offline_bind; [apply offline_read_clock |].
  intros u. apply offline_bind; [apply offline_lift | intros e; apply offline_ret].
Qed.

(** ** Each failure is logged once *)

Lemma adapter_error_served w : served w → adapter_error w = None.
Proof. unfold adapter_error. by intros ->. Qed.

Lemma adapter_error_fault w f :
  hd None (outages w) = Some f →
  adapter_error w = match settle (reply_of f) with
                    | Thrown err => Some err
                    | Returned _ => None
                    end.
Proof. unfold adapter_error. by intros ->. Qed.

Lemma adapter_error_outages w w' :
  outages w' = outages w → adapter_error w' = adapter_error w.
Proof. unfold adapter_error. by intros ->. Qed.

(** One call of the adapter under a handler that logs and answers [v]:
    when the call is rejected the error is logged, once, and the answer
    is [v]; otherwise nothing is logged and the answer is made of what
    the call resolved to. *)
Lemma plain_call {B} (k : Resolved → B) method ep body label (v : B) w :
  let m := try_catch (r ← supabaseRequest method ep body; ret (k r))
             (λ err, _ ← console_error label err; ret v) in
  (∃ r, settle (Store.serve {| method := method; endpoint := ep; body := body |}
                  (table w)).1 = Returned r) →
  match adapter_error w with
  | Some err =>
      (m w).1 = Returned v
      ∧ console (m w).2 = (console w ++ [console_error_line label err])%list
  | None => (∃ r, (m w).1 = Returned (k r)) ∧ console (m w).2 = console w
  end.
Proof.
  cbv zeta. intros [r Hr]. destruct (served_or_fault w) as [S | [f F]].
  - rewrite (adapter_error_served w S). run.
    rewrite supabaseRequest_served by done. cbn [fst snd]. rewrite Hr.
    split; [by exists r | done].
  - rewrite (adapter_error_fault w f F). run.
    rewrite (supabaseRequest_fault _ _ _ _ f F).
    destruct (settle (reply_of f)) as [r' | err]; cbn [fst snd].
    + split; [by exists r' | done].
    + done.
Qed.

(** The same after a preparation [pre] of the request that makes no
    exchange and logs nothing: what the preparation throws is logged and
    answered by [v] as well, and no call is made then. *)
Lemma prepared_call {A B} (pre : M A) (k : A → B) method
    (ep : A → Endpoint) (body : A → option RowObject) label (v : B) w :
  let m := try_catch
             (x ← pre; _ ← supabaseRequest method (ep x) (body x); ret (k x))
             (λ err, _ ← console_error label err; ret v) in
  silent pre → offline pre →
  match (pre w).1 with
  | Thrown err =>
      (m w).1 = Returned v
      ∧ console (m w).2 = (console w ++ [console_error_line label err])%list
      ∧ outages (m w).2 = outages w
  | Returned a =>
      (∃ r, settle (Store.serve {| method := method; endpoint := ep a;
                                   body := body a |} (table w)).1
            = Returned r) →
      match adapter_error w with
      | Some err =>
          (m w).1 = Returned v
          ∧ console (m w).2 = (console w ++ [console_error_line label err])%list
      | None => (m w).1 = Returned (k a) ∧ console (m w).2 = console w
      end
  end.
Proof.
  cbv zeta. intros Sl Off. specialize (Sl w). destruct (Off w) as [O T].
  run. destruct (pre w) as [[a | err] w1]; cbn [fst snd] in *.
  - intros [r Hr]. rewrite <- (adapter_error_outages w w1 O).
    destruct (served_or_fault w1) as [S | [f F]].
    + rewrite (adapter_error_served w1 S).
      rewrite supabaseRequest_served by done. cbn [fst snd].
      rewrite T, Hr. cbn [fst snd console after_exchange]. done.
    + rewrite (adapter_error_fault w1 f F).
      rewrite (supabaseRequest_fault _ _ _ _ f F).
      destruct (settle (reply_of f)) as [r' | err];
        cbn [fst snd console after_exchange logged console_error]; [done |].
      by rewrite Sl.
  - cbn [fst snd console outages logged console_error]. by rewrite Sl, O.
Qed.

(** X1: nothing thrown gets out of the repository, and each failure is
    logged, once.  When the adapter call is rejected with an error,
    [getAllJobs], [getJob] and [deleteJob] answer [{}], [null] and
    [false] and leave on the console that one error under their name;
    when it is not, they return with nothing logged, [deleteJob] with
    [true].  [createJob] and [updateJob] answer [null] and log the one
    error when making the row throws or the call is rejected; otherwise they log nothing and answer with the job.
    [cleanupExpiredJobs] always returns, having logged one line: the
    error of the clock or of the call under [Cleanup error:], or else
    that it ran, with the time it read. *)
Theorem repository_catches_everything (jobId : string) (job : Job.t) (w : World) :
  let failed (A : Type) (r : Result A * World) (v : A) label err :=
    r.1 = Returned v
    ∧ console r.2 = (console w ++ [console_error_line label err])%list in
  match adapter_error w with
  | Some err =>
      failed _ (getAllJobs w) ∅ "getAllJobs error:" err
      ∧ failed _ (getJob jobId w) None "getJob error:" err
      ∧ failed _ (deleteJob jobId w) false "deleteJob error:" err
  | None =>
      ((∃ jobs, (getAllJobs w).1 = Returned jobs)
       ∧ console (getAllJobs w).2 = console w)
      ∧ ((∃ j, (getJob jobId w).1 = Returned j)
         ∧ console (getJob jobId w).2 = console w)
      ∧ ((deleteJob jobId w).1 = Returned true
         ∧ console (deleteJob jobId w).2 = console w)
  end
  ∧ match (createJob_row job w).1, adapter_error w with
    | Thrown err, _ | Returned _, Some err =>
        failed _ (createJob job w) None "createJob error:" err
    | Returned _, None =>
        (createJob job w).1 = Returned (Some job)
        ∧ console (createJob job w).2 = console w
    end
  ∧ match (updateJob_row job w).1, adapter_error w with
    | Thrown err, _ | Returned _, Some err =>
        failed _ (updateJob jobId job w) None "updateJob error:" err
    | Returned _, None =>
        (updateJob jobId job w).1
        = Returned (Some (with_lastUpdated
                            (Some (Date.iso_string (next_reading w))) job))
        ∧ console (updateJob jobId job w).2 = console w
    end
  ∧ match toISOString (Date.TimeClip (next_reading w)), adapter_error w with
    | Thrown err, _ | Returned _, Some err =>
        failed _ (cleanupExpiredJobs w) () "Cleanup error:" err
    | Returned now, None =>
        (cleanupExpiredJobs w).1 = Returned ()
        ∧ console (cleanupExpiredJobs w).2
          = (console w ++ [console_log_line ("🧹 Cleanup ran at " +:+ now)])%list
    end.
Proof.
  cbv zeta.
  assert (Get : ∀ q (t : Store.Table),
            ∃ r, settle (Store.serve {| method := "GET"; endpoint := jobs q;
                                        body := None |} t).1 = Returned r)
    by (intros; by eexists).
  assert (Del : ∀ q (t : Store.Table),
            ∃ r, settle (Store.serve {| method := "DELETE"; endpoint := jobs q;
                                        body := None |} t).1 = Returned r)
    by (intros; by eexists).
  pose proof (plain_call
                (λ rows, match rows with
                         | RJson (JRows rs) =>
                             foldl (λ jobs row,
                                      set_property (DbRow.job_id row)
                                        (rowToJob row) jobs) ∅ rs
                         | _ => ∅
                         end)
                "GET" (jobs [order_desc created_at]) None "getAllJobs error:" ∅ w
                (Get _ _)) as A.
  pose proof (plain_call
                (λ rows, match rows with
                         | RJson (JRows (row :: _)) => Some (rowToJob row)
                         | _ => None
                         end)
                "GET" (jobs [op_eq job_id jobId]) None "getJob error:" None w
                (Get _ _)) as G.
  pose proof (plain_call (λ _, true) "DELETE" (jobs [op_eq job_id jobId]) None
                "deleteJob error:" false w (Del _ _)) as D.
  cbv zeta in A, G, D.
  change (try_catch _ _) with getAllJobs in A.
  change (try_catch _ _) with (getJob jobId) in G.
  change (try_catch _ _) with (deleteJob jobId) in D.
  split; [| split; [| split]].
  - destruct (adapter_error w) as [err |]; [done |].
    destruct A as [[r A] A'], G as [[r' G] G'], D as [[r'' D] D'].
    repeat split; eauto.
  - pose proof (prepared_call (createJob_row job) (λ _, Some job) "POST"
                  (λ _, jobs []) Some "createJob error:" None w
                  (silent_createJob_row job) (offline_createJob_row job)) as C.
    cbv zeta in C. change (try_catch _ _) with (createJob job) in C.
    pose proof (createJob_row_cases job w) as R.
    destruct (createJob_row job w) as [[row | err] w1]; cbn [fst] in *.
    + destruct R as (_ & _ & e & _ & ->).
      apply C. rewrite serve_post, fresh_createJob_object. by eexists.
    + by destruct C as (C1 & C2 & _).
  - pose proof (prepared_call (updateJob_row job)
                  (λ row, Some (with_lastUpdated (get_string last_updated row) job))
                  "PATCH" (λ _, jobs [op_eq job_id jobId]) Some
                  "updateJob error:" None w
                  (silent_updateJob_row job) (offline_updateJob_row job)) as U.
    cbv zeta in U. change (try_catch _ _) with (updateJob jobId job) in U.
    pose proof (updateJob_row_cases job w) as R.
    destruct (updateJob_row job w) as [[row | err] w1]; cbn [fst] in *.
    + destruct R as (_ & _ & e & _ & ->).
      rewrite get_string_updateJob_object in U. apply U.
      rewrite serve_patch.
      rewrite (patch_map _ _ (updated_row job (Date.iso_string (next_reading w)) e))
        by apply assign_updateJob_object.
      by eexists.
    + by destruct U as (U1 & U2 & _).
  - unfold cleanupExpiredJobs. run. unfold new_Date.
    destruct (Date.TimeClip (next_reading w)) as [now |];
      cbn [toISOString fst snd]; [| done].
    rewrite <- (adapter_error_outages w (after_reading w) eq_refl).
    destruct (served_or_fault (after_reading w)) as [S | [f F]].
    + rewrite (adapter_error_served _ S).
      rewrite supabaseRequest_served by done. done.
    + rewrite (adapter_error_fault _ f F).
      rewrite (supabaseRequest_fault _ _ _ (after_reading w) f F).
      by destruct (settle (reply_of f)).
Qed.

Lemma repository_catches_everything_witness :
  (getAllJobs down).1 = Returned ∅
  ∧ console (getAllJobs down).2
    = [console_error_line "getAllJobs error:"
         (SupabaseError 503 (JsonData (JOther "unavailable")))].
Proof.
  exact (proj1 (proj1 (repository_catches_everything "J1" J1 down))).
Defined.

(** ** Counting the exchanges *)

Lemma once_offline {A} (m : M A) : offline m → exchanges_once m.
Proof. intros H w. left. apply H. Qed.

Lemma once_supabaseRequest method ep body :
  exchanges_once (supabaseRequest method ep body).
Proof.
  intros w. right. destruct (served_or_fault w) as [S | [f F]].
  - by rewrite supabaseRequest_served.
  - by rewrite (supabaseRequest_fault _ _ _ _ f F).
Qed.

Lemma once_bind_l {A B} (m : M A) (k : A → M B) :
  offline m → (∀ a, exchanges_once (k a)) → exchanges_once (m ≫= k).
Proof.
  intros Hm Hk w. destruct (Hm w) as [O T]. run.
  destruct (m w) as [[a | e] w1]; cbn [snd] in *; [| by left].
  destruct (Hk a w1) as [[O' T'] | O']; [left; split; congruence |].
  right. congruence.
Qed.

Lemma once_bind_r {A B} (m : M A) (k : A → M B) :
  exchanges_once m → (∀ a, offline (k a)) → exchanges_once (m ≫= k).
Proof.
  intros Hm Hk w. specialize (Hm w). run.
  destruct (m w) as [[a | e] w1]; cbn [snd] in *; [| done].
  destruct (Hk a w1) as [O' T'].
  destruct Hm as [[O T] | O]; [left; split; congruence |].
  right. congruence.
Qed.

Lemma once_try_catch {A} (m : M A) (h : Error → M A) :
  exchanges_once m → (∀ e, offline (h e)) → exchanges_once (try_catch m h).
Proof.
  intros Hm Hh w. specialize (Hm w). unfold try_catch.
  destruct (m w) as [[a | e] w1]; cbn [snd] in *; [done |].
  destruct (Hh e w1) as [O' T'].
  destruct Hm as [[O T] | O]; [left; split; congruence |].
  right. congruence.
Qed.

Lemma offline_logged {A} label (v : A) err :
  offline (_ ← console_error label err; ret v).
Proof.
  apply offline_bind; [apply offline_console_error | intros _; apply offline_ret].
Qed.

Lemma once_getAllJobs : exchanges_once getAllJobs.
Proof.
  apply once_try_catch; [| intros e; apply offline_logged].
  apply once_bind_r; [apply once_supabaseRequest | intros r; apply offline_ret].
Qed.

Lemma once_getJob jobId : exchanges_once (getJob jobId).
Proof.
  apply once_try_catch; [| intros e; apply offline_logged].
  apply once_bind_r; [apply once_supabaseRequest | intros r; apply offline_ret].
Qed.

Lemma once_createJob job : exchanges_once (createJob job).
Proof.
  apply once_try_catch; [| intros e; apply offline_logged].
  apply once_bind_l; [apply offline_createJob_row | intros row].
  apply once_bind_r; [apply once_supabaseRequest | intros r; apply offline_ret].
Qed.

Lemma once_updateJob jobId job : exchanges_once (updateJob jobId job).
Proof.
  apply once_try_catch; [| intros e; apply offline_logged].
  apply once_bind_l; [apply offline_updateJob_row | intros row].
  apply once_bind_r; [apply once_supabaseRequest | intros r; apply offline_ret].
Qed.

Lemma once_deleteJob jobId : exchanges_once (deleteJob jobId).
Proof.
  apply once_try_catch; [| intros e; apply offline_logged].
  apply once_bind_r; [apply once_supabaseRequest | intros r; apply offline_ret].
Qed.

Lemma once_cleanupExpiredJobs : exchanges_once cleanupExpiredJobs.
Proof.
  apply once_try_catch; [| intros e; apply offline_console_error].
  apply once_bind_l; [apply offline_read_clock | intros now].
  apply once_bind_r; [apply once_supabaseRequest |].
  intros r. apply offline_console_log.
Qed.

(** X2: a request to the server costs one round trip to the store at
    most, and the table changes only in a round trip: after any request
    the list of exchanges to come is the same, with the table as it was,
    or it is shorter by one.  A request that asks for nothing of the
    repository ([OPTIONS], the static page, an unknown route) makes
    none. *)
Theorem server_one_round_trip (req : IncomingMessage) (w : World) :
  ((outages (server req w).2 = outages w ∧ table (server req w).2 = table w)
   ∨ outages (server req w).2 = tl (outages w))
  ∧ (req_method req = "OPTIONS"
     ∨ pathname req = "/" ∨ pathname req = "/index.html"
     ∨ (req_method req ≠ "GET" ∧ req_method req ≠ "POST"
        ∧ req_method req ≠ "PUT" ∧ req_method req ≠ "DELETE") →
     outages (server req w).2 = outages w ∧ table (server req w).2 = table w).
Proof.
  assert (Off : ∀ (m : M ServerResponse),
             offline m →
             offline (try_catch m
                        (λ err, _ ← console_error "Request error:" err;
                                ret (json 500 (ErrorJson "Internal server error"))))).
  { intros m Hm v. destruct (Hm v) as [O T]. unfold try_catch.
    destruct (m v) as [[a | e] v1]; cbn [snd] in *; [done |].
    destruct (offline_logged "Request error:"
                (json 500 (ErrorJson "Internal server error")) e v1) as [O' T'].
    split; congruence. }
  split.
  - revert w. change (exchanges_once (server req)). unfold server.
    destruct (String.eqb (req_method req) "OPTIONS");
      [apply once_offline, offline_ret |].
    apply once_try_catch; [| intros e; apply offline_logged].
    repeat match goal with
           | |- exchanges_once (if ?c then _ else _) => destruct c
           end.
    + apply once_offline, offline_serveStaticFile.
    + apply once_bind_r; [apply once_getAllJobs | intros r; apply offline_ret].
    + apply once_bind_r; [apply once_getJob | intros r; apply offline_ret].
    + apply once_bind_l; [apply offline_readBody | intros job].
      apply once_bind_r; [apply once_createJob | intros r; apply offline_ret].
    + apply once_bind_l; [apply offline_readBody | intros job].
      apply once_bind_r; [apply once_updateJob | intros r; apply offline_ret].
    + apply once_bind_r; [apply once_deleteJob | intros r; apply offline_ret].
    + apply once_bind_r; [apply once_cleanupExpiredJobs | intros r; apply offline_ret].
    + apply once_offline, offline_ret.
  - intros H. revert w. change (offline (server req)). unfold server.
    destruct (String.eqb (req_method req) "OPTIONS") eqn:O; [apply offline_ret |].
    destruct H as [H | H]; [rewrite H in O; discriminate O |].
    apply Off.
    destruct H as [-> | [-> | (G & P & U & D)]];
      [apply offline_serveStaticFile | apply offline_serveStaticFile |].
    apply String.eqb_neq in G, P, U, D. rewrite G, P, U, D. cbn [andb].
    destruct (_ || _); [apply offline_serveStaticFile | apply offline_ret].
Qed.

Lemma server_one_round_trip_witness :
  outages (server {| req_method := "OPTIONS"; pathname := "/api/jobs";
                     req_body := None |} down).2 = outages down
  ∧ table (server {| req_method := "OPTIONS"; pathname := "/api/jobs";
                     req_body := None |} down).2 = table down.
Proof.
  exact (proj2 (server_one_round_trip
                  {| req_method := "OPTIONS"; pathname := "/api/jobs";
                     req_body := None |} down) (or_introl eq_refl)).
Defined.

(** ** Reads never write *)

Lemma reads_only_ret {A} (a : A) : reads_only (ret a).
Proof. by intros w. Qed.

Lemma reads_only_bind {A B} (m : M A) (k : A → M B) :
  reads_only m → (∀ a, reads_only (k a)) → reads_only (m ≫= k).
Proof.
  intros Hm Hk w. specialize (Hm w). run.
  destruct (m w) as [[a | e] w1]; cbn [snd] in *; [| done].
  by rewrite Hk.
Qed.

Lemma reads_only_try_catch {A} (m : M A) (h : Error → M A) :
  reads_only m → (∀ e, reads_only (h e)) → reads_only (try_catch m h).
Proof.
  intros Hm Hh w. specialize (Hm w). unfold try_catch.
  destruct (m w) as [[a | e] w1]; cbn [snd] in *; [done |].
  by rewrite Hh.
Qed.

Lemma reads_only_offline {A} (m : M A) : offline m → reads_only m.
Proof. intros H w. apply H. Qed.

Lemma reads_only_GET q : reads_only (supabaseRequest "GET" (jobs q) None).
Proof.
  intros w. destruct (served_or_fault w) as [S | [f F]].
  - by rewrite supabaseRequest_served.
  - by rewrite (supabaseRequest_fault _ _ _ _ f F).
Qed.

Lemma reads_only_getAllJobs : reads_only getAllJobs.
Proof.
  apply reads_only_try_catch.
  - apply reads_only_bind; [apply reads_only_GET | intros r; apply reads_only_ret].
  - intros e. apply reads_only_offline, offline_logged.
Qed.

Lemma reads_only_getJob jobId : reads_only (getJob jobId).
Proof.
  apply reads_only_try_catch.
  - apply reads_only_bind; [apply reads_only_GET | intros r; apply reads_only_ret].
  - intros e. apply reads_only_offline, offline_logged.
Qed.

(** X3: reads never write.  [getAllJobs] and [getJob] leave the table as
    it was, whatever the store answers, and so does every [GET] request
    to the server, whatever its path. *)
Theorem reads_never_write (req : IncomingMessage) (jobId : string) (w : World) :
  table (getAllJobs w).2 = table w
  ∧ table (getJob jobId w).2 = table w
  ∧ (req_method req = "GET" → table (server req w).2 = table w).
Proof.
  split; [apply reads_only_getAllJobs |].
  split; [apply reads_only_getJob |].
  destruct req as [m p b]. cbn [req_method]. intros ->.
  revert w. change (reads_only (server {| req_method := "GET"; pathname := p;
                                          req_body := b |})).
  unfold server. cbn [req_method pathname req_body].
  change (String.eqb "GET" "OPTIONS") with false.
  change (String.eqb "GET" "GET") with true.
  change (String.eqb "GET" "POST") with false.
  change (String.eqb "GET" "PUT") with false.
  change (String.eqb "GET" "DELETE") with false.
  cbn [andb].
  apply reads_only_try_catch;
    [| intros e; apply reads_only_offline, offline_logged].
  repeat match goal with
         | |- reads_only (if ?c then _ else _) => destruct c
         end.
  - apply reads_only_offline, offline_serveStaticFile.
  - apply reads_only_bind; [apply reads_only_getAllJobs | intros r; apply reads_only_ret].
  - apply reads_only_bind; [apply reads_only_getJob | intros r; apply reads_only_ret].
  - apply reads_only_ret.
Qed.

Lemma reads_never_write_witness :
  table (server (GET_job "/api/jobs/J1") stale).2 = table stale.
Proof.
  exact (proj2 (proj2 (reads_never_write (GET_job "/api/jobs/J1") "J1" stale))
           eq_refl).
Defined.

(** ** Every request is answered *)




(** X5: the preflight and the static page come before every route.  An
    [OPTIONS] request, whatever its path, is answered 200 with an empty
    body and touches nothing.  Any other request to [/] or [/index.html],
    whatever its method, is answered with the page as [text/html], or
    with 404 and the text [Not found] when the file cannot be read, and
    touches nothing either. *)
Theorem preflight_and_page_first (req : IncomingMessage) (w : World) :
  (req_method req = "OPTIONS" →
   server req w = (Returned (writeHead 200 None Empty), w))
  ∧ (req_method req ≠ "OPTIONS" →
     pathname req = "/" ∨ pathname req = "/index.html" →
     server req w
     = (Returned match asset w with
                 | Some data => writeHead 200 (Some "text/html") (Plain data)
                 | None => writeHead 404 None (Plain "Not found")
                 end, w)).
Proof.
  destruct req as [m p b]. cbn [req_method pathname]. split.
  - intros ->. reflexivity.
  - intros O P. apply String.eqb_neq in O. unfold server.
    cbn [req_method pathname]. rewrite O.
    destruct P as [-> | ->]; destruct w as [t c tk o cs [data |]];
      reflexivity.
Qed.

Lemma preflight_and_page_first_witness :
  server {| req_method := "DELETE"; pathname := "/index.html"; req_body := None |}
    stale
  = (Returned match asset stale with
              | Some data => writeHead 200 (Some "text/html") (Plain data)
              | None => writeHead 404 None (Plain "Not found")
              end, stale).
Proof.
  apply (proj2 (preflight_and_page_first
                  {| req_method := "DELETE"; pathname := "/index.html";
                     req_body := None |} stale)).
  - discriminate.
  - right. reflexivity.
Defined.

(** ** Deleting *)

Lemma deleteJob_unserved jobId w :
  ¬ served w → table (deleteJob jobId w).2 = table w.
Proof.
  intros N. destruct (served_or_fault w) as [S | [f F]]; [done |].
  unfold deleteJob. run. rewrite (supabaseRequest_fault _ _ _ _ f F).
  by destruct (settle (reply_of f)).
Qed.

Lemma filter_other_ids jobId (t : list DbRow.t) :
  filter (λ r, negb (Store.selected [op_eq job_id jobId] r)) t
  = filter (λ r, DbRow.job_id r ≠ jobId) t.
Proof.
  apply list_filter_iff. intros r. rewrite selected_job_id.
  destruct (String.eqb (DbRow.job_id r) jobId) eqn:E; cbn.
  - apply String.eqb_eq in E. naive_solver.
  - apply String.eqb_neq in E. naive_solver.
Qed.

Lemma filter_keeps_all {A} (P : A → Prop) `{∀ x, Decision (P x)} (l : list A) :
  (∀ x, x ∈ l → P x) → filter P l = l.
Proof.
  induction l as [| x l IH]; intros H'; [done |].
  rewrite filter_cons_True by (apply H'; apply list_elem_of_here).
  f_equal. apply IH. intros y Hy. apply H'. by apply list_elem_of_further.
Qed.

(** X6: [deleteJob(id)], when the store serves it, removes the rows of
    that id, all of them and no other, the rest staying as they were and
    in their order, and answers [true].  Deleting an id that no row has
    succeeds as well and changes nothing, and so does a second
    [deleteJob] of the same id. *)
Theorem deleteJob_removes_exactly (jobId : string) (w : World) :
  let w' := (deleteJob jobId w).2 in
  (served w →
   (deleteJob jobId w).1 = Returned true
   ∧ table w' = filter (λ r, DbRow.job_id r ≠ jobId) (table w))
  ∧ (served w → (∀ r, r ∈ table w → DbRow.job_id r ≠ jobId) →
     (deleteJob jobId w).1 = Returned true ∧ table w' = table w)
  ∧ (served w → served w' →
     (deleteJob jobId w').1 = Returned true
     ∧ table (deleteJob jobId w').2 = table w').
Proof.
  cbv zeta.
  assert (T : ∀ v, served v →
                   (deleteJob jobId v).1 = Returned true
                   ∧ table (deleteJob jobId v).2
                     = filter (λ r, DbRow.job_id r ≠ jobId) (table v)).
  { intros v S. rewrite deleteJob_served by done. split; [done |].
    cbn [snd after_exchange table]. apply filter_other_ids. }
  split; [apply T |]. split.
  - intros S N. destruct (T w S) as [R E]. split; [done |].
    rewrite E. by apply filter_keeps_all.
  - intros S S'. set (w' := (deleteJob jobId w).2) in *.
    destruct (T w' S') as [R E]. split; [done |].
    rewrite E. apply filter_keeps_all. intros r Hr.
    subst w'. rewrite (proj2 (T w S)) in Hr.
    by apply list_elem_of_filter in Hr as [Hr _].
Qed.

Lemma deleteJob_removes_exactly_witness :
  ((deleteJob "J1" stale).1 = Returned true
   ∧ table (deleteJob "J1" stale).2
     = filter (λ r, DbRow.job_id r ≠ "J1") (table stale))
  ∧ ((deleteJob "nobody" stale).1 = Returned true
     ∧ table (deleteJob "nobody" stale).2 = table stale).
Proof.
  split.
  - exact (proj1 (deleteJob_removes_exactly "J1" stale) eq_refl).
  - apply (proj1 (proj2 (deleteJob_removes_exactly "nobody" stale)) eq_refl).
    intros r Hr. apply list_elem_of_singleton in Hr. by subst r.
Defined.

Lemma server_DELETE_job p w :
  String.prefix "/api/jobs/" p = true →
  server (DELETE_job p) w
  = match deleteJob (path_id p) w with
    | (Returned _, w') => (Returned (json 200 SuccessJson), w')
    | (Thrown err, w') =>
        (Returned (json 500 (ErrorJson "Internal server error")),
         logged (console_error_line "Request error:" err) w')
    end.
Proof.
  intros H. destruct (prefix_api_jobs p H) as [E1 E2].
  unfold server, DELETE_job. cbn [req_method pathname req_body].
  rewrite E1, E2, H.
  cbn [String.eqb Ascii.eqb Bool.eqb andb orb].
  run.
  by destruct (deleteJob (path_id p) w) as [[c | err] w'].
Qed.

Lemma server_POST_cleanup w :
  server POST_cleanup w
  = match cleanupExpiredJobs w with
    | (Returned _, w') => (Returned (json 200 SuccessJson), w')
    | (Thrown err, w') =>
        (Returned (json 500 (ErrorJson "Internal server error")),
         logged (console_error_line "Request error:" err) w')
    end.
Proof.
  unfold server, POST_cleanup. cbn [req_method pathname req_body].
  cbn [String.eqb Ascii.eqb Bool.eqb andb orb String.prefix].
  run.
  by destruct (cleanupExpiredJobs w) as [[c | err] w'].
Qed.

(** X7: [DELETE /api/jobs/{id}] and [POST /api/cleanup] answer 200 with
    [{success: true}] whatever became of the deletion: the route does not
    look at what [deleteJob] answers, so it says success also when the
    adapter call has failed and [deleteJob] has answered [false]. *)
Theorem delete_routes_report_success (p : string) (w : World) :
  String.prefix "/api/jobs/" p = true →
  (server (DELETE_job p) w).1 = Returned (json 200 SuccessJson)
  ∧ (server POST_cleanup w).1 = Returned (json 200 SuccessJson)
  ∧ (adapter_fails w = true →
     (deleteJob (path_id p) w).1 = Returned false
     ∧ ∃ err, console (server (DELETE_job p) w).2
              = (console w ++ [console_error_line "deleteJob error:" err])%list).
Proof.
  intros P. rewrite (server_DELETE_job p w P), server_POST_cleanup.
  destruct (returns_cleanupExpiredJobs w) as [u Hu].
  destruct (cleanupExpiredJobs w) as [rc wc].
  cbn [fst snd] in *. subst rc. cbn [fst snd].
  destruct (served_or_fault w) as [S | [f F]].
  - rewrite deleteJob_served by done. cbn [fst snd].
    split; [done |]. split; [done |]. intros A.
    by rewrite (adapter_fails_served w S) in A.
  - rewrite (adapter_fails_fault w f F). unfold rejected, deleteJob. run.
    rewrite (supabaseRequest_fault _ _ _ _ f F).
    destruct (settle (reply_of f)) as [r | err];
      cbn [fst snd console logged after_exchange console_error].
    + split; [done |]. split; [done |]. by intros A.
    + split; [done |]. split; [done |]. intros _. split; [done |]. by exists err.
Qed.

Lemma delete_routes_report_success_witness :
  (server (DELETE_job "/api/jobs/J1") down).1 = Returned (json 200 SuccessJson)
  ∧ (deleteJob "J1" down).1 = Returned false.
Proof.
  pose proof (delete_routes_report_success "/api/jobs/J1" down eq_refl)
    as (A & _ & B).
  destruct (B eq_refl) as (B1 & _).
  exact (conj A B1).
Defined.

(** ** A reply that is not JSON *)

(** A body that prepares its request without the store, makes the one
    exchange and answers: when the reply does not parse, the answer is
    that of success. *)
Lemma unparsable_body {A B} (pre : M A) (k : A → B) method ep
    (body : A → option RowObject) (h : Error → M B) w st txt a w1 :
  pre w = (Returned a, w1) → outages w1 = outages w →
  hd None (outages w) = Some (garbled st txt) →
  try_catch (x ← pre; _ ← supabaseRequest method (ep x) (body x); ret (k x)) h w
  = (Returned (k a), after_exchange (table w1) w1).
Proof.
  intros R O F. run. rewrite R.
  rewrite (supabaseRequest_fault _ _ _ w1 (garbled st txt)) by by rewrite O.
  reflexivity.
Qed.

Lemma updateJob_row_returns job w e :
  timely w → calculateExpiresAt job = Returned e →
  updateJob_row job w
  = (Returned (updateJob_object job (Date.iso_string (next_reading w)) e),
     after_reading w).
Proof.
  intros T E. unfold updateJob_row.
  unfold mbind at 1, M_bind at 1, bind at 1.
  rewrite read_clock_run, (timely_TimeClip w T). cbn [toISOString].
  run. by rewrite E.
Qed.

(** X8: a reply of the store whose body is not JSON is taken for a
    success, whatever its status.  When the body is not empty and starts
    with a character that begins no JSON value, [supabaseRequest]
    resolves to the text as it came; so [createJob], [updateJob] and
    [deleteJob] answer as if the write had been made, [getAllJobs] and
    [getJob] answer that there is nothing, and no error is logged. *)
Theorem unparsable_reply_counts_as_success
    (st : Z) (txt jobId : string) (job : Job.t) (e : option string) (w : World) :
  hd None (outages w) = Some (garbled st txt) → unparsable txt = true →
  timely w → calculateExpiresAt job = Returned e →
  (∀ method ep body,
     (supabaseRequest method ep body w).1 = Returned (RText txt))
  ∧ (getAllJobs w).1 = Returned ∅
  ∧ (getJob jobId w).1 = Returned None
  ∧ (createJob job w).1 = Returned (Some job)
  ∧ (updateJob jobId job w).1
    = Returned (Some (with_lastUpdated
                        (Some (Date.iso_string (next_reading w))) job))
  ∧ (deleteJob jobId w).1 = Returned true
  ∧ Forall (λ w', console w' = console w)
      [(getAllJobs w).2; (getJob jobId w).2; (createJob job w).2;
       (updateJob jobId job w).2; (deleteJob jobId w).2].
Proof.
  intros F _ T E.
  assert (S : ∀ method ep body,
            supabaseRequest method ep body w
            = (Returned (RText txt), after_exchange (table w) w)).
  { intros. by rewrite (supabaseRequest_fault _ _ _ w _ F). }
  destruct (createJob_row_returns job w e T E) as (row & w1 & R).
  pose proof (offline_createJob_row job w) as [O1 T1].
  pose proof (silent_createJob_row job w) as C1.
  rewrite R in O1, T1, C1. cbn [snd] in O1, T1, C1.
  pose proof (unparsable_body (createJob_row job) (λ _, Some job) "POST"
                (λ _, jobs []) Some
                (λ err, _ ← console_error "createJob error:" err; ret None)
                w st txt row w1 R O1 F) as GC.
  change (createJob job w = (Returned (Some job), after_exchange (table w1) w1))
    in GC.
  pose proof (updateJob_row_returns job w e T E) as U.
  pose proof (unparsable_body (updateJob_row job)
                (λ row, Some (with_lastUpdated (get_string last_updated row) job))
                "PATCH" (λ _, jobs [op_eq job_id jobId]) Some
                (λ err, _ ← console_error "updateJob error:" err; ret None)
                w st txt _ _ U eq_refl F) as GU.
  change (updateJob jobId job w
          = (Returned (Some (with_lastUpdated
                               (get_string last_updated
                                  (updateJob_object job
                                     (Date.iso_string (next_reading w)) e)) job)),
             after_exchange (table (after_reading w)) (after_reading w)))
    in GU.
  rewrite get_string_updateJob_object in GU.
  assert (GA : getAllJobs w = (Returned ∅, after_exchange (table w) w)).
  { unfold getAllJobs. run. by rewrite S. }
  assert (GJ : getJob jobId w = (Returned None, after_exchange (table w) w)).
  { unfold getJob. run. by rewrite S. }
  assert (GD : deleteJob jobId w = (Returned true, after_exchange (table w) w)).
  { unfold deleteJob. run. by rewrite S. }
  rewrite GA, GJ, GC, GU, GD. cbn [fst snd].
  split; [intros; by rewrite S |].
  do 5 (split; [done |]).
  repeat constructor; cbn [table console after_exchange after_reading]; done.
Qed.

Lemma unparsable_reply_counts_as_success_witness :
  (createJob J1 behind_proxy).1 = Returned (Some J1)
  ∧ (deleteJob "J1" behind_proxy).1 = Returned true
  ∧ console (deleteJob "J1" behind_proxy).2 = console behind_proxy.
Proof.
  assert (T : timely behind_proxy) by (vm_compute; split; discriminate).
  pose proof (unparsable_reply_counts_as_success 502 "<html>" "J1" J1
                (Some "2024-01-02T01:45:00.000Z") behind_proxy
                eq_refl eq_refl T eq_refl) as (_ & _ & _ & C & _ & D & W).
  split; [exact C |]. split; [exact D |].
  exact (Forall_inv (Forall_inv_tail (Forall_inv_tail
           (Forall_inv_tail (Forall_inv_tail W))))).
Defined.

(** ** Reading back what was written *)

Lemma filter_only_id jobId (t : list DbRow.t) (r : DbRow.t) :
  (∀ x, x ∈ t → DbRow.job_id x ≠ jobId) → DbRow.job_id r = jobId →
  filter (λ x, Store.selected [op_eq job_id jobId] x) (t ++ [r])%list = [r].
Proof.
  intros N E. induction t as [| x t IH]; cbn [app].
  - rewrite filter_cons, selected_job_id, E, String.eqb_refl. done.
  - rewrite filter_cons, selected_job_id.
    destruct (String.eqb (DbRow.job_id x) jobId) eqn:E'.
    + apply String.eqb_eq in E'. by destruct (N x (list_elem_of_here _ _)).
    + cbn. apply IH. intros y Hy. apply N. by apply list_elem_of_further.
Qed.

(** X9: a job created under an id that no row has yet is read back by
    [getJob] (both exchanges served): with its name, start time and
    segments as supplied, [delays] defaulted to the empty list,
    [nextSegmentId] defaulted to 6, [createdAt] as supplied or else the
    time of the creation, [lastUpdated] the time of the creation, and
    [expiresAt] the one [calculateExpiresAt] gives, whatever [expiresAt]
    the caller had supplied. *)
Theorem created_job_reads_back (job : Job.t) (e : option string) (w : World) :
  served w → timely w → calculateExpiresAt job = Returned e →
  (∀ r, r ∈ table w → DbRow.job_id r ≠ Job.id job) →
  served (createJob job w).2 →
  (getJob (Job.id job) (createJob job w).2).1
  = Returned (Some
      {| Job.id := Job.id job;
         Job.name := Job.name job;
         Job.startTime := Job.startTime job;
         Job.segments := Job.segments job;
         Job.delays := Some (default [] (Job.delays job));
         Job.nextSegmentId := Some (or_number (Job.nextSegmentId job) 6);
         Job.createdAt :=
           Some (if not_string (Job.createdAt job)
                 then Date.iso_string (next_reading w)
                 else or_string (Job.createdAt job) "");
         Job.lastUpdated := Some (Date.iso_string (clock (createJob job w).2));
         Job.expiresAt := e |}).
Proof.
  intros S T E N S1.
  destruct (createJob_served job w e S T E) as [_ Tb].
  rewrite getJob_served by done. rewrite Tb.
  set (row := created_row _ _ _ _).
  exact (f_equal (λ l, Returned match l with
                               | [] => None
                               | r :: _ => Some (rowToJob r)
                               end)
           (filter_only_id (Job.id job) (table w) row N eq_refl)).
Qed.

Lemma created_job_reads_back_witness :
  ∃ j, (getJob "J1" (createJob J1 quiet).2).1 = Returned (Some j)
       ∧ Job.segments j = Job.segments J1 ∧ Job.delays j = Job.delays J1
       ∧ Job.nextSegmentId j = Some 6
       ∧ Job.expiresAt j = Some "2024-01-02T01:45:00.000Z".
Proof.
  assert (T : timely quiet) by (vm_compute; split; discriminate).
  assert (N : ∀ r, r ∈ table quiet → DbRow.job_id r ≠ Job.id J1).
  { intros r Hr. by apply not_elem_of_nil in Hr. }
  eexists. split.
  - exact (created_job_reads_back J1 (Some "2024-01-02T01:45:00.000Z") quiet
             eq_refl T eq_refl N eq_refl).
  - repeat split.
Defined.

(** ** Listing *)

Lemma insert_desc_Permutation c r l : Store.insert_desc c r l ≡ₚ r :: l.
Proof.
  induction l as [| x l IH]; cbn [Store.insert_desc]; [done |].
  destruct (Store.before_desc c r x); [done |].
  rewrite IH. apply Permutation_swap.
Qed.

Lemma sort_desc_Permutation c l : Store.sort_desc c l ≡ₚ l.
Proof.
  induction l as [| x l IH]; [done |].
  unfold Store.sort_desc. cbn [foldr]. rewrite insert_desc_Permutation.
  by constructor.
Qed.

Lemma jobs_other_id (rows : list DbRow.t) (acc : gmap string Job.t) jobId :
  jobId ∉ DbRow.job_id <$> rows →
  foldl (λ jobs row, set_property (DbRow.job_id row) (rowToJob row) jobs) acc rows
    !! jobId
  = acc !! jobId.
Proof.
  revert acc. induction rows as [| r rows IH]; intros acc N; [done |].
  cbn [foldl]. rewrite fmap_cons in N. apply not_elem_of_cons in N as [N1 N2].
  rewrite IH by done. rewrite set_property_lookup.
  destruct (String.eqb (DbRow.job_id r) "__proto__"); [done |].
  destruct (String.eqb (DbRow.job_id r) jobId) eqn:Q; [| done].
  apply String.eqb_eq in Q. by destruct N1.
Qed.

Lemma jobs_of_row (rows : list DbRow.t) (acc : gmap string Job.t) r :
  NoDup (DbRow.job_id <$> rows) → r ∈ rows → DbRow.job_id r ≠ "__proto__" →
  foldl (λ jobs row, set_property (DbRow.job_id row) (rowToJob row) jobs) acc rows
    !! DbRow.job_id r = Some (rowToJob r).
Proof.
  intros D H P. revert acc D H.
  induction rows as [| x rows IH]; intros acc D H.
  - by apply not_elem_of_nil in H.
  - rewrite fmap_cons in D. apply NoDup_cons in D as [D1 D2].
    cbn [foldl]. apply elem_of_cons in H as [<- | H].
    + rewrite jobs_other_id by done. rewrite set_property_lookup.
      apply String.eqb_neq in P. by rewrite P, String.eqb_refl.
    + by apply IH.
Qed.

Lemma jobs_every_id (rows : list DbRow.t) (acc : gmap string Job.t) jobId :
  jobId ∈ DbRow.job_id <$> rows → jobId ≠ "__proto__" →
  is_Some (foldl (λ jobs row,
                    set_property (DbRow.job_id row) (rowToJob row) jobs) acc rows
             !! jobId).
Proof.
  intros H P. revert acc H. induction rows as [| x rows IH]; intros acc H.
  - by apply not_elem_of_nil in H.
  - cbn [foldl].
    destruct (decide (jobId ∈ DbRow.job_id <$> rows)) as [I | N];
      [by apply IH |].
    rewrite fmap_cons in H. apply elem_of_cons in H as [-> | H]; [| done].
    rewrite jobs_other_id by done. rewrite set_property_lookup.
    apply String.eqb_neq in P. rewrite P, String.eqb_refl. by eexists.
Qed.

(** X10: when the store serves it, the object [getAllJobs] answers with
    has a key for the id of every row of the table but the id
    [__proto__], and for nothing else; when no two rows share an id, the
    job of each of these rows is found under its id.  A row of the id
    [__proto__] leaves no key: the assignment sets the prototype of the
    object.  The table is as it was. *)
Theorem getAllJobs_lists_the_table (w : World) :
  served w →
  ∃ jobs, (getAllJobs w).1 = Returned jobs
          ∧ (∀ jobId, is_Some (jobs !! jobId)
                      ↔ jobId ≠ "__proto__"
                        ∧ ∃ r, r ∈ table w ∧ DbRow.job_id r = jobId)
          ∧ (NoDup (DbRow.job_id <$> table w) →
             ∀ r, r ∈ table w → DbRow.job_id r ≠ "__proto__" →
                  jobs !! DbRow.job_id r = Some (rowToJob r))
          ∧ table (getAllJobs w).2 = table w.
Proof.
  intros S. rewrite (getAllJobs_served w S). cbn [fst snd].
  eexists. split; [done |].
  pose proof (sort_desc_Permutation created_at (table w)) as P.
  split; [| split; [| done]].
  - intros jobId. split.
    + intros [j H]. split.
      * intros ->. by rewrite jobs_no_proto in H by apply lookup_empty.
      * apply jobs_by_id in H as [H | (I & r & Hr & ->)];
          [by rewrite lookup_empty in H |].
        exists r. split; [by rewrite <- P | exact I].
    + intros (N & r & Hr & <-). apply jobs_every_id; [| done]. rewrite P.
      by apply list_elem_of_fmap_2.
  - intros D r Hr N. apply jobs_of_row; [by rewrite P | by rewrite P | done].
Qed.

Lemma getAllJobs_lists_the_table_witness :
  ∃ jobs, (getAllJobs stale).1 = Returned jobs ∧ is_Some (jobs !! "J1").
Proof.
  destruct (getAllJobs_lists_the_table stale eq_refl) as (jobs & E & D & _).
  exists jobs. split; [exact E |]. apply D. split; [discriminate |].
  eexists. split; [apply list_elem_of_here | reflexivity].
Defined.

(** ** Updating *)

(** X11: [updateJob] is a partial update of the rows of the id, the
    other rows staying as they are (store serving, clock in range,
    expiration computable): a [name], [startTime] or [segments] absent
    from the job leaves the stored column as it was, while [delays] and
    [next_segment_id] are written always, as the empty list and as 6 when
    the job has none.  So an update without [startTime] keeps the row's
    [start_time] and sets its [expires_at] to NULL. *)
Theorem updateJob_is_partial
    (jobId : string) (job : Job.t) (e : option string) (w : World) :
  served w → timely w → calculateExpiresAt job = Returned e →
  Forall2 (λ r r',
             if String.eqb (DbRow.job_id r) jobId
             then DbRow.name r' = from_option Some (DbRow.name r) (Job.name job)
                  ∧ DbRow.start_time r'
                    = from_option Some (DbRow.start_time r) (Job.startTime job)
                  ∧ DbRow.segments r'
                    = from_option Some (DbRow.segments r) (Job.segments job)
                  ∧ DbRow.delays r' = Some (default [] (Job.delays job))
                  ∧ DbRow.next_segment_id r'
                    = Some (or_number (Job.nextSegmentId job) 6)
                  ∧ (Job.startTime job = None →
                     DbRow.start_time r' = DbRow.start_time r
                     ∧ DbRow.expires_at r' = None)
             else r' = r)
    (table w) (table (updateJob jobId job w).2).
Proof.
  intros S T E.
  pose proof (updateJob_cases jobId job w) as (_ & H).
  destruct H as [(_ & _ & [C | [[err C] | C]])
                | (_ & _ & _ & e' & E' & [(N & _) | (_ & Tb)])].
  - by rewrite (timely_TimeClip w T) in C.
  - by rewrite E in C.
  - by rewrite (adapter_fails_served w S) in C.
  - done.
  - rewrite E in E'. injection E' as <-. rewrite Tb.
    apply Forall2_fmap_r, Forall_Forall2_diag, Forall_forall. intros r _.
    unfold compose. cbv beta.
    destruct (String.eqb (DbRow.job_id r) jobId); [| done].
    cbn [updated_row DbRow.name DbRow.start_time DbRow.segments DbRow.delays
         DbRow.next_segment_id DbRow.expires_at].
    do 5 (split; [done |]). intros A. rewrite A. split; [done |].
    unfold calculateExpiresAt in E. rewrite A in E. cbn in E. congruence.
Qed.

Lemma updateJob_is_partial_witness :
  Forall2 (λ r r', r' = r
                   ∨ (DbRow.name r' = Some "night shift"
                      ∧ DbRow.start_time r' = DbRow.start_time r
                      ∧ DbRow.delays r' = Some []
                      ∧ DbRow.expires_at r' = None))
    (table stale) (table (updateJob "J1" J_renamed stale).2).
Proof.
  assert (T : timely stale) by (vm_compute; split; discriminate).
  eapply Forall2_impl;
    [exact (updateJob_is_partial "J1" J_renamed None stale eq_refl T eq_refl) |].
  intros r r' H. cbv beta in H.
  destruct (String.eqb (DbRow.job_id r) "J1"); [right | by left].
  destruct H as (A & _ & _ & B & _ & C). destruct (C eq_refl) as [C1 C2].
  exact (conj A (conj C1 (conj B C2))).
Defined.

(** ** More of [calculateExpiresAt] *)

Lemma calculateExpiresAt_undated (job : Job.t) (s : string) :
  Job.startTime job = Some s → s ≠ "" → Date.parse s = None →
  calculateExpiresAt job = Thrown (RangeError "Invalid time value").
Proof.
  intros Hs N P. unfold calculateExpiresAt. rewrite Hs.
  assert (not_string (Some s) = false) as -> by (by destruct s).
  cbn [mbind option_bind]. by rewrite P.
Qed.

(** X12: as long as the minutes add up exactly, the expiration depends
    on the segments and delays through the total of their minutes only:
    two jobs with the same [startTime], each with numbers and partial
    sums that are safe integers, and with the same total, have the same
    expiration, and the same error if any.  So the order of the segments
    and of the delays does not matter then, nor whether a minute is in a
    segment or in a delay. *)
Theorem calculateExpiresAt_total_only (job job' : Job.t) :
  Job.startTime job' = Job.startTime job →
  safe_minutes job = true → safe_minutes job' = true →
  (totalSegmentMinutes job' + totalDelayMinutes job'
   = totalSegmentMinutes job + totalDelayMinutes job →
   calculateExpiresAt job' = calculateExpiresAt job)
  ∧ (default [] (Job.segments job') ≡ₚ default [] (Job.segments job) →
     default [] (Job.delays job') ≡ₚ default [] (Job.delays job) →
     calculateExpiresAt job' = calculateExpiresAt job).
Proof.
  intros St _ _.
  assert (A : totalSegmentMinutes job' + totalDelayMinutes job'
              = totalSegmentMinutes job + totalDelayMinutes job →
              calculateExpiresAt job' = calculateExpiresAt job).
  { intros Tot. destruct (Job.startTime job) as [s |] eqn:Hs.
    - destruct (Date.parse s) as [t |] eqn:Ht.
      + rewrite (calculateExpiresAt_dated job' s t St Ht).
        rewrite (calculateExpiresAt_dated job s t Hs Ht).
        unfold expiration. by rewrite Tot.
      + destruct (decide (s = "")) as [-> | N].
        * unfold calculateExpiresAt. by rewrite St, Hs.
        * rewrite (calculateExpiresAt_undated job' s St N Ht).
          by rewrite (calculateExpiresAt_undated job s Hs N Ht).
    - unfold calculateExpiresAt. by rewrite St, Hs. }
  split; [exact A |]. intros Ps Pd. apply A.
  unfold totalSegmentMinutes, totalDelayMinutes. f_equal.
  - apply (foldr_permutation (=) (λ s acc, default 0 (duration s) + acc) 0);
      [intros; lia | done].
  - apply (foldr_permutation (=) (λ d acc, default 0 (minutes d) + acc) 0);
      [intros; lia | done].
Qed.

Lemma calculateExpiresAt_total_only_witness :
  calculateExpiresAt
    {| Job.id := "J9"; Job.name := Some "reversed";
       Job.startTime := Some "2024-01-01T00:00:00Z";
       Job.segments := Some [ {| duration := Some 30 |}; {| duration := Some 75 |} ];
       Job.delays := None;
       Job.nextSegmentId := Some 3; Job.createdAt := None;
       Job.lastUpdated := None; Job.expiresAt := None |}
  = calculateExpiresAt J1.
Proof.
  exact (proj1 (calculateExpiresAt_total_only J1 _ eq_refl eq_refl eq_refl)
           eq_refl).
Defined.

(** X13: what [calculateExpiresAt] answers.  It answers null exactly
    when [startTime] is absent or the empty string.  For a [startTime]
    of the date-time format that ends with [Z], and minutes that add up
    exactly, it answers a string exactly when the expiration is within
    the range of a [Date], and throws the [RangeError] of [toISOString]
    exactly when it is not; the string it answers reads back as the
    instant of the expiration.  Whatever it throws is that
    [RangeError]. *)
Theorem calculateExpiresAt_outcomes (job : Job.t) :
  (calculateExpiresAt job = Returned None
   ↔ Job.startTime job = None ∨ Job.startTime job = Some "")
  ∧ (∀ s t, Job.startTime job = Some s → utc s = true →
            Date.parse s = Some t → safe_minutes job = true →
            let inside := - Date.maxTime ≤ expiration t job ≤ Date.maxTime in
            (inside →
             calculateExpiresAt job
             = Returned (Some (Date.iso_string (expiration t job)))
             ∧ Date.parse (Date.iso_string (expiration t job))
               = Some (expiration t job))
            ∧ (¬ inside →
               calculateExpiresAt job = Thrown (RangeError "Invalid time value")))
  ∧ (∀ err, calculateExpiresAt job = Thrown err →
            err = RangeError "Invalid time value").
Proof.
  split; [| split].
  - destruct (Job.startTime job) as [s |] eqn:Hs.
    2: { unfold calculateExpiresAt. rewrite Hs. cbn. split; [by left | done]. }
    destruct (decide (s = "")) as [-> | N].
    { unfold calculateExpiresAt. rewrite Hs. cbn. split; [by right | done]. }
    split; [| intros [H | H]; congruence].
    intros C. exfalso. destruct (Date.parse s) as [t |] eqn:Ht.
    + rewrite (calculateExpiresAt_dated job s t Hs Ht) in C.
      by destruct (toISOString (Date.TimeClip (expiration t job))).
    + by rewrite (calculateExpiresAt_undated job s Hs N Ht) in C.
  - intros s t Hs _ Ht _. cbv zeta.
    rewrite (calculateExpiresAt_dated job s t Hs Ht). split.
    + intros V. rewrite (DateFacts.TimeClip_Some _ V). cbn [toISOString].
      split; [done | by apply DateFacts.parse_iso_string].
    + intros V. destruct (Date.TimeClip (expiration t job)) as [c |] eqn:C;
        cbn [toISOString]; [| done].
      apply DateFacts.TimeClip_inv in C as [_ V']. by destruct V.
  - intros err. destruct (Job.startTime job) as [s |] eqn:Hs.
    2: { unfold calculateExpiresAt. by rewrite Hs. }
    destruct (decide (s = "")) as [-> | N].
    { unfold calculateExpiresAt. by rewrite Hs. }
    destruct (Date.parse s) as [t |] eqn:Ht.
    + rewrite (calculateExpiresAt_dated job s t Hs Ht).
      destruct (Date.TimeClip (expiration t job)); cbn [toISOString];
        congruence.
    + rewrite (calculateExpiresAt_undated job s Hs N Ht). congruence.
Qed.

Lemma calculateExpiresAt_outcomes_witness :
  calculateExpiresAt J_far = Thrown (RangeError "Invalid time value").
Proof.
  assert (P : Date.parse "2024-01-01T00:00:00Z" = Some 1704067200000)
    by (vm_compute; reflexivity).
  assert (S : safe_minutes J_far = true) by (vm_compute; reflexivity).
  apply (proj2 (proj1 (proj2 (calculateExpiresAt_outcomes J_far))
                  "2024-01-01T00:00:00Z" 1704067200000 eq_refl eq_refl P S)).
  vm_compute. intros [_ H]. exact (H eq_refl).
Defined.

Lemma total_nonnegative (job : Job.t) :
  Forall (λ s, 0 ≤ default 0 (duration s)) (default [] (Job.segments job)) →
  Forall (λ d, 0 ≤ default 0 (minutes d)) (default [] (Job.delays job)) →
  0 ≤ totalSegmentMinutes job + totalDelayMinutes job.
Proof.
  unfold totalSegmentMinutes, totalDelayMinutes. intros Hs Hd.
  induction Hs as [| s ss H _ IH]; cbn [foldr].
  - induction Hd as [| d ds H' _ IH']; cbn [foldr]; lia.
  - lia.
Qed.

(** X14: when no segment has a negative duration and no delay negative
    minutes, the expiration [calculateExpiresAt] gives is at least 24
    hours after the start, and each further minute of a segment or of a
    delay moves it by one minute. *)
Theorem expiration_at_least_a_day (job : Job.t) (x : string) :
  Forall (λ s, 0 ≤ default 0 (duration s)) (default [] (Job.segments job)) →
  Forall (λ d, 0 ≤ default 0 (minutes d)) (default [] (Job.delays job)) →
  calculateExpiresAt job = Returned (Some x) →
  ∃ start expires,
    Job.startTime job ≫= Date.parse = Some start
    ∧ Date.parse x = Some expires
    ∧ start + 24 * 60 * 60 * 1000 ≤ expires
    ∧ expires - start
      = (totalSegmentMinutes job + totalDelayMinutes job + 24 * 60) * 60000.
Proof.
  intros Hs Hd C.
  pose proof (total_nonnegative job Hs Hd) as Tot.
  destruct (Job.startTime job) as [s |] eqn:St;
    [| unfold calculateExpiresAt in C; by rewrite St in C].
  destruct (Date.parse s) as [t |] eqn:Ht.
  - rewrite (calculateExpiresAt_dated job s t St Ht) in C.
    destruct (Date.TimeClip (expiration t job)) as [c |] eqn:Cl;
      cbn [toISOString] in C; [| done].
    apply DateFacts.TimeClip_inv in Cl as [-> V]. injection C as <-.
    exists t, (expiration t job). cbn [mbind option_bind].
    split; [done |]. split; [by apply DateFacts.parse_iso_string |].
    unfold expiration. lia.
  - destruct (decide (s = "")) as [-> | N].
    + unfold calculateExpiresAt in C. by rewrite St in C.
    + by rewrite (calculateExpiresAt_undated job s St N Ht) in C.
Qed.

Lemma expiration_at_least_a_day_witness :
  ∃ start expires,
    Job.startTime J1 ≫= Date.parse = Some start
    ∧ Date.parse "2024-01-02T01:45:00.000Z" = Some expires
    ∧ start + 24 * 60 * 60 * 1000 ≤ expires
    ∧ expires - start
      = (totalSegmentMinutes J1 + totalDelayMinutes J1 + 24 * 60) * 60000.
Proof.
  apply (expiration_at_least_a_day J1 "2024-01-02T01:45:00.000Z").
  - repeat constructor; cbn; lia.
  - repeat constructor; cbn; lia.
  - vm_compute. reflexivity.
Defined.

(** ** More of the cleanup *)

(** X15: whatever the clock reads and whatever becomes of its exchange,
    [cleanupExpiredJobs] adds no row and changes none: the table
    afterwards is the old one with some rows taken out, and each row
    taken out had an [expires_at], strictly before the time the cleanup
    read.  A row without [expires_at] is never removed. *)
Theorem cleanup_only_removes_expired (w : World) :
  let w' := (cleanupExpiredJobs w).2 in
  sublist (table w') (table w)
  ∧ (∀ r, r ∈ table w → r ∉ table w' →
          ∃ x t, DbRow.expires_at r = Some x ∧ Date.parse x = Some t
                 ∧ t < next_reading w)
  ∧ (∀ r, r ∈ table w → DbRow.expires_at r = None → r ∈ table w').
Proof.
  cbv zeta.
  assert (E : ∀ r, expired (next_reading w) r = true →
                   ∃ x t, DbRow.expires_at r = Some x ∧ Date.parse x = Some t
                          ∧ t < next_reading w).
  { intros r. unfold expired.
    destruct (DbRow.expires_at r) as [x |]; [| done].
    destruct (Date.parse x) as [t |] eqn:P; [| done].
    intros H. apply Z.ltb_lt in H. by exists x, t. }
  destruct (cleanupExpiredJobs_table w) as [-> | ->].
  - split; [done |]. split; [by intros r H N | by intros r H _].
  - split; [apply sublist_filter |]. split.
    + intros r H N. apply E.
      destruct (expired (next_reading w) r) eqn:X; [done |].
      destruct N. apply list_elem_of_filter. by rewrite X.
    + intros r H N. apply list_elem_of_filter. split; [| done].
      unfold expired. by rewrite N.
Qed.

Lemma cleanup_only_removes_expired_witness :
  ∃ r x t, table stale = [r]
           ∧ DbRow.expires_at r = Some x ∧ Date.parse x = Some t
           ∧ t < next_reading stale.
Proof.
  assert (∃ r, table stale = [r]) as [r E] by (eexists; reflexivity).
  assert (N : table (cleanupExpiredJobs stale).2 = [])
    by (vm_compute; reflexivity).
  destruct (proj1 (proj2 (cleanup_only_removes_expired stale)) r)
    as (x & t & H).
  - rewrite E. apply list_elem_of_here.
  - rewrite N. apply not_elem_of_nil.
  - exists r, x, t. split; [exact E | exact H].
Defined.

Lemma filter_snoc {A} (P : A → bool) (l : list A) (x : A) :
  filter (λ y, P y) (l ++ [x])%list
  = (filter (λ y, P y) l ++ (if P x then [x] else []))%list.
Proof.
  induction l as [| y l IH]; cbn [app].
  - rewrite filter_cons. by destruct (P x).
  - rewrite !filter_cons. destruct (P y); cbn; by rewrite IH.
Qed.

(** X16: the row a job is created with is purged like any other, by
    the [expires_at] it was given.  A cleanup that follows the creation
    (both served, clock in range) purges the rows that were there, and
    keeps the new row when the expiration [calculateExpiresAt] gave is
    null, or reads back as an instant that is not before the time the
    cleanup reads; otherwise it removes it. *)
Theorem created_job_lives_until_expiration
    (job : Job.t) (e : option string) (w : World) :
  served w → timely w → calculateExpiresAt job = Returned e →
  let w1 := (createJob job w).2 in
  let now := next_reading w1 in
  served w1 → - Date.maxTime ≤ now ≤ Date.maxTime →
  ∃ row, table w1 = (table w ++ [row])%list
         ∧ DbRow.expires_at row = e
         ∧ table (cleanupExpiredJobs w1).2
           = (filter (λ r, negb (expired now r)) (table w)
              ++ match e ≫= Date.parse with
                 | Some t => if now <=? t then [row] else []
                 | None => [row]
                 end)%list.
Proof.
  intros S T E w1 now S1 V.
  destruct (createJob_served job w e S T E) as [_ Tb]. fold w1 in Tb.
  eexists. split; [exact Tb |]. split; [reflexivity |].
  rewrite (cleanupExpiredJobs_served w1 S1 V). fold now. rewrite Tb.
  etrans; [apply (filter_snoc (λ r, negb (expired now r))) |]. f_equal.
  unfold expired at 1. cbn [created_row DbRow.expires_at].
  destruct e as [x |]; cbn [mbind option_bind]; [| done].
  destruct (Date.parse x) as [t |]; [| done].
  by rewrite Z.leb_antisym.
Qed.

Lemma created_job_lives_until_expiration_witness :
  ∃ row, table (createJob J1 quiet).2 = [row]
         ∧ DbRow.expires_at row = Some "2024-01-02T01:45:00.000Z"
         ∧ table (cleanupExpiredJobs (createJob J1 quiet).2).2 = [row].
Proof.
  assert (T : timely quiet) by (vm_compute; split; discriminate).
  assert (V : - Date.maxTime ≤ next_reading (createJob J1 quiet).2
              ≤ Date.maxTime) by (vm_compute; split; discriminate).
  destruct (created_job_lives_until_expiration J1
              (Some "2024-01-02T01:45:00.000Z") quiet eq_refl T eq_refl
              eq_refl V) as (row & A & B & C).
  exists row. split; [exact A |]. split; [exact B | exact C].
Defined.

(** ** The id of a route *)

Lemma split_upto sep (s rest : string) :
  includes sep s = false →
  split sep (s +:+ String sep rest) = s :: split sep rest.
Proof.
  induction s as [| c s IH]; intros H.
  - rewrite DateFacts.append_nil. cbn [split]. by rewrite Ascii.eqb_refl.
  - cbn [includes] in H. apply orb_false_iff in H as [H1 H2].
    rewrite DateFacts.append_cons. cbn [split]. by rewrite H1, IH.
Qed.

Lemma split_plain sep (s : string) : includes sep s = false → split sep s = [s].
Proof.
  induction s as [| c s IH]; intros H; [done |].
  cbn [includes] in H. apply orb_false_iff in H as [H1 H2].
  cbn [split]. by rewrite H1, IH.
Qed.

Lemma path_id_api_jobs (rest : string) :
  path_id ("/api/jobs/" +:+ rest) = default "undefined" (split "/" rest !! 0%nat).
Proof. reflexivity. Qed.

Lemma api_jobs_path (rest : string) :
  let p := "/api/jobs/" +:+ rest in
  String.eqb p "/" = false ∧ String.eqb p "/index.html" = false
  ∧ String.eqb p "/api/jobs" = false ∧ String.eqb p "/api/cleanup" = false
  ∧ String.prefix "/api/jobs/" p = true.
Proof. repeat split; by destruct rest. Qed.

(** X17: the id of the routes [/api/jobs/{id}] is what stands between the
    third slash of the path and the next one, or the end: an id without a
    slash is taken as it is (the empty one too), and whatever follows a
    further slash is ignored, the server doing for [/api/jobs/{id}/...]
    what it does for [/api/jobs/{id}], whatever the method and the body. *)
Theorem route_id_is_fourth_part (id rest : string) :
  includes "/" id = false →
  path_id ("/api/jobs/" +:+ id) = id
  ∧ path_id ("/api/jobs/" +:+ id +:+ "/" +:+ rest) = id
  ∧ ∀ method body w,
      server {| req_method := method;
                pathname := "/api/jobs/" +:+ id +:+ "/" +:+ rest;
                req_body := body |} w
      = server {| req_method := method; pathname := "/api/jobs/" +:+ id;
                  req_body := body |} w.
Proof.
  intros H.
  assert (A : path_id ("/api/jobs/" +:+ id) = id).
  { by rewrite path_id_api_jobs, (split_plain _ _ H). }
  assert (B : path_id ("/api/jobs/" +:+ id +:+ "/" +:+ rest) = id).
  { rewrite path_id_api_jobs.
    change ("/" +:+ rest) with (String "/" rest).
    by rewrite (split_upto _ _ _ H). }
  split; [exact A |]. split; [exact B |]. intros method body w.
  unfold server. cbn [req_method pathname req_body].
  destruct (api_jobs_path id) as (E1 & E2 & E3 & E4 & E5).
  destruct (api_jobs_path (id +:+ "/" +:+ rest)) as (F1 & F2 & F3 & F4 & F5).
  cbv zeta in *.
  rewrite E1, E2, E3, E4, E5, F1, F2, F3, F4, F5, A, B.
  reflexivity.
Qed.

Lemma route_id_is_fourth_part_witness :
  path_id "/api/jobs/J1/segments" = "J1"
  ∧ server (DELETE_job "/api/jobs/J1/segments") stale
    = server (DELETE_job "/api/jobs/J1") stale.
Proof.
  destruct (route_id_is_fourth_part "J1" "segments" eq_refl) as (_ & B & C).
  split; [exact B | exact (C "DELETE" None stale)].
Defined.

(** ** What a request can do to the table *)

Section table_steps.
Variable R : Store.Table → Store.Table → Prop.
Hypothesis R_refl : ∀ t, R t t.

Lemma step_offline {A} (m : M A) : offline m → table_step R m.
Proof. intros H w. destruct (H w) as [_ ->]. apply R_refl. Qed.

Lemma step_bind_l {A B} (m : M A) (k : A → M B) :
  offline m → (∀ a, table_step R (k a)) → table_step R (m ≫= k).
Proof.
  intros Hm Hk w. destruct (Hm w) as [_ T]. run.
  destruct (m w) as [[a | e] w1]; cbn [snd] in *; rewrite <- T;
    [apply Hk | apply R_refl].
Qed.

Lemma step_bind_r {A B} (m : M A) (k : A → M B) :
  table_step R m → (∀ a, offline (k a)) → table_step R (m ≫= k).
Proof.
  intros Hm Hk w. specialize (Hm w). run.
  destruct (m w) as [[a | e] w1]; cbn [snd] in *; [| done].
  destruct (Hk a w1) as [_ ->]. done.
Qed.

Lemma step_try_catch {A} (m : M A) (h : Error → M A) :
  table_step R m → (∀ e, offline (h e)) → table_step R (try_catch m h).
Proof.
  intros Hm Hh w. specialize (Hm w). unfold try_catch.
  destruct (m w) as [[a | e] w1]; cbn [snd] in *; [done |].
  destruct (Hh e w1) as [_ ->]. done.
Qed.

Lemma step_reads_only {A} (m : M A) : reads_only m → table_step R m.
Proof. intros H w. rewrite (H w). apply R_refl. Qed.

(** The routes, once the functions of the repository that the request
    can reach are known to step by [R]. *)
Lemma step_server (req : IncomingMessage) :
  (req_method req = "DELETE" → ∀ jobId, table_step R (deleteJob jobId)) →
  (req_method req = "PUT" → ∀ jobId job, table_step R (updateJob jobId job)) →
  (req_method req = "POST" → pathname req = "/api/cleanup" →
   table_step R cleanupExpiredJobs) →
  (req_method req = "POST" → pathname req = "/api/jobs" →
   ∀ job, table_step R (createJob job)) →
  table_step R (server req).
Proof.
  intros D U C P. unfold server.
  destruct (String.eqb (req_method req) "OPTIONS");
    [apply step_offline, offline_ret |].
  apply step_try_catch; [| intros e; apply offline_logged].
  destruct (String.eqb (pathname req) "/" || String.eqb (pathname req) "/index.html");
    [apply step_offline, offline_serveStaticFile |].
  destruct (String.eqb (req_method req) "GET"
            && String.eqb (pathname req) "/api/jobs").
  { apply step_bind_r; [| intros r; apply offline_ret].
    apply step_reads_only, reads_only_getAllJobs. }
  destruct (String.eqb (req_method req) "GET"
            && String.prefix "/api/jobs/" (pathname req)).
  { apply step_bind_r; [| intros r; apply offline_ret].
    apply step_reads_only, reads_only_getJob. }
  destruct (String.eqb (req_method req) "POST"
            && String.eqb (pathname req) "/api/jobs") eqn:Post.
  { apply andb_true_iff in Post as [Pm Pp].
    apply String.eqb_eq in Pm. apply String.eqb_eq in Pp.
    apply step_bind_l; [apply offline_readBody | intros job].
    apply step_bind_r; [by apply P | intros r; apply offline_ret]. }
  destruct (String.eqb (req_method req) "PUT"
            && String.prefix "/api/jobs/" (pathname req)) eqn:Put.
  { apply andb_true_iff in Put as [Pm _]. apply String.eqb_eq in Pm.
    apply step_bind_l; [apply offline_readBody | intros job].
    apply step_bind_r; [by apply U | intros r; apply offline_ret]. }
  destruct (String.eqb (req_method req) "DELETE"
            && String.prefix "/api/jobs/" (pathname req)) eqn:Del.
  { apply andb_true_iff in Del as [Pm _]. apply String.eqb_eq in Pm.
    apply step_bind_r; [by apply D | intros r; apply offline_ret]. }
  destruct (String.eqb (req_method req) "POST"
            && String.eqb (pathname req) "/api/cleanup") eqn:Cl.
  { apply andb_true_iff in Cl as [Pm Pp].
    apply String.eqb_eq in Pm. apply String.eqb_eq in Pp.
    apply step_bind_r; [by apply C | intros r; apply offline_ret]. }
  apply step_offline, offline_ret.
Qed.

End table_steps.

Lemma shrinks_refl t : shrinks t t.
Proof. split; [done |]. intros r Hr. by exists r. Qed.

Lemma shrinks_sublist t t' : sublist t' t → shrinks t t'.
Proof.
  intros H. split; [by apply sublist_length |].
  intros r Hr. exists r. split; [| done]. by apply (elem_of_sublist _ _ _ Hr H).
Qed.

Lemma shrinks_deleteJob jobId : table_step shrinks (deleteJob jobId).
Proof.
  intros w. destruct (served_or_fault w) as [S | [f F]].
  - rewrite deleteJob_served by done. apply shrinks_sublist, sublist_filter.
  - rewrite deleteJob_unserved; [apply shrinks_refl |].
    unfold served. by rewrite F.
Qed.

Lemma shrinks_cleanupExpiredJobs : table_step shrinks cleanupExpiredJobs.
Proof.
  intros w. destruct (cleanupExpiredJobs_table w) as [-> | ->];
    [apply shrinks_refl | apply shrinks_sublist, sublist_filter].
Qed.

Lemma shrinks_updateJob jobId job : table_step shrinks (updateJob jobId job).
Proof.
  intros w.
  destruct (updateJob_cases jobId job w)
    as (_ & [(_ & T & _) | (_ & _ & _ & e & _ & [(_ & T) | (_ & T)])]);
    rewrite T; try apply shrinks_refl.
  split; [by rewrite length_map |].
  intros r' Hr'. apply list_elem_of_fmap in Hr' as (r & -> & Hr).
  exists r. split; [done |].
  by destruct (String.eqb (DbRow.job_id r) jobId).
Qed.

Lemma appends_createJob job : table_step appends (createJob job).
Proof.
  intros w.
  destruct (createJob_cases job w)
    as (_ & [(_ & T) | [(_ & T & _) | (_ & _ & _ & e & _ & T)]]);
    rewrite T; [by left | by left |].
  right. by eexists.
Qed.

(** X18: what one event can do to the table.  A request for
    [POST /api/jobs] leaves it as it was or adds one row at its end, the
    rows that were there staying as they were.  Every other request, and
    the cleanup when its timer fires, adds no row and moves none to
    another job: the table afterwards has no more rows, and each of them
    is a row that was there, as it was or rewritten, with the id and the
    time of creation it had. *)
Theorem only_post_adds_a_row (e : Event) (w : World) :
  match e with
  | Incoming req =>
      (req_method req = "POST" → pathname req = "/api/jobs" →
       table (handle w e) = table w
       ∨ ∃ row, table (handle w e) = (table w ++ [row])%list)
      ∧ (¬ (req_method req = "POST" ∧ pathname req = "/api/jobs") →
         shrinks (table w) (table (handle w e)))
  | TimerFired => shrinks (table w) (table (handle w e))
  end.
Proof.
  destruct e as [req |]; cbn [handle]; [| apply shrinks_cleanupExpiredJobs].
  split.
  - intros Pm Pp. apply (step_server appends); try (by left).
    + intros E. congruence.
    + intros E. congruence.
    + intros _ E. congruence.
    + intros _ _. apply appends_createJob.
  - intros N. apply (step_server shrinks).
    + apply shrinks_refl.
    + intros _. apply shrinks_deleteJob.
    + intros _. apply shrinks_updateJob.
    + intros _ _. apply shrinks_cleanupExpiredJobs.
    + intros Pm Pp. by destruct N.
Qed.

Lemma only_post_adds_a_row_witness :
  (∃ row, table (handle quiet (Incoming (POST_jobs J1))) = [row])
  ∧ shrinks (table stale)
      (table (handle stale (Incoming (PUT_job "/api/jobs/J1" J_renamed)))).
Proof.
  split.
  - destruct (proj1 (only_post_adds_a_row (Incoming (POST_jobs J1)) quiet)
                eq_refl eq_refl) as [E | [row E]].
    + vm_compute in E. discriminate E.
    + exists row. exact E.
  - apply (proj2 (only_post_adds_a_row
                    (Incoming (PUT_job "/api/jobs/J1" J_renamed)) stale)).
    intros [H _]. discriminate H.
Defined.

(** ** [GET /api/jobs/{id}] *)

Lemma prefix_not_api_jobs p :
  String.prefix "/api/jobs/" p = true → String.eqb p "/api/jobs" = false.
Proof. intros H. apply String.eqb_neq. by intros ->. Qed.

Lemma server_GET_job p w :
  String.prefix "/api/jobs/" p = true →
  server (GET_job p) w
  = match getJob (path_id p) w with
    | (Returned (Some j), w') => (Returned (json 200 (JobJson (Some j))), w')
    | (Returned None, w') =>
        (Returned (json 404 (ErrorJson "Job not found")), w')
    | (Thrown err, w') =>
        (Returned (json 500 (ErrorJson "Internal server error")),
         logged (console_error_line "Request error:" err) w')
    end.
Proof.
  intros H. destruct (prefix_api_jobs p H) as [E1 E2].
  unfold server, GET_job. cbn [req_method pathname req_body].
  rewrite E1, E2, H, (prefix_not_api_jobs p H).
  cbn [String.eqb Ascii.eqb Bool.eqb andb orb].
  run.
  by destruct (getJob (path_id p) w) as [[[j |] | err] w'].
Qed.

Lemma filter_this_id jobId (t : Store.Table) :
  filter (λ r, Store.selected [op_eq job_id jobId] r) t
  = filter (λ r, DbRow.job_id r = jobId) t.
Proof.
  apply list_filter_iff. intros r. rewrite selected_job_id.
  destruct (String.eqb (DbRow.job_id r) jobId) eqn:E; cbn.
  - apply String.eqb_eq in E. naive_solver.
  - apply String.eqb_neq in E. naive_solver.
Qed.

(** X19: [GET /api/jobs/{id}] answers 200 with the job of the first row
    of that id when the store serves the request and has one, and 404
    [Job not found] otherwise: a request the store has not served, for
    whatever reason, is answered as an id that no row has. *)
Theorem get_job_route (p : string) (w : World) :
  String.prefix "/api/jobs/" p = true →
  (served w →
   (server (GET_job p) w).1
   = Returned match filter (λ r, DbRow.job_id r = path_id p) (table w) with
              | row :: _ => json 200 (JobJson (Some (rowToJob row)))
              | [] => json 404 (ErrorJson "Job not found")
              end)
  ∧ (¬ served w →
     (server (GET_job p) w).1 = Returned (json 404 (ErrorJson "Job not found"))).
Proof.
  intros P. rewrite (server_GET_job p w P). split.
  - intros S. pose proof (getJob_served (path_id p) w S) as G.
    rewrite filter_this_id in G.
    destruct (getJob (path_id p) w) as [res w']. cbn [fst] in G. subst res.
    destruct (filter _ (table w)); reflexivity.
  - intros N. destruct (served_or_fault w) as [S | [f F]]; [done |].
    pose proof (getJob_fault (path_id p) w f F) as G.
    destruct (getJob (path_id p) w) as [res w']. cbn [fst] in G. by subst res.
Qed.

Lemma get_job_route_witness :
  (∃ j, (server (GET_job "/api/jobs/J1") stale).1
        = Returned (json 200 (JobJson (Some j))))
  ∧ (server (GET_job "/api/jobs/J1") behind_proxy).1
    = Returned (json 404 (ErrorJson "Job not found")).
Proof.
  split.
  - eexists. exact (proj1 (get_job_route "/api/jobs/J1" stale eq_refl) eq_refl).
  - apply (proj2 (get_job_route "/api/jobs/J1" behind_proxy eq_refl)).
    discriminate.
Defined.

(** ** The responses *)

Lemma returns_server req : returns (server req).
Proof.
  unfold server. destruct (String.eqb (req_method req) "OPTIONS").
  - intros w. by eexists.
  - apply returns_try_catch. intros e. apply returns_logged.
Qed.

Section answers.
Variable P : ServerResponse → Prop.

Lemma answers_ret (resp : ServerResponse) : P resp → answers P (ret resp).
Proof. intros H w r [= <-]. exact H. Qed.

Lemma answers_bind {A} (m : M A) (k : A → M ServerResponse) :
  (∀ a, answers P (k a)) → answers P (m ≫= k).
Proof.
  intros H w r E. apply bind_result in E as (a & _ & E). by apply (H a _ _ E).
Qed.

Lemma answers_try_catch (m : M ServerResponse) (h : Error → M ServerResponse) :
  answers P m → (∀ e, answers P (h e)) → answers P (try_catch m h).
Proof.
  intros Hm Hh w r. specialize (Hm w). unfold try_catch.
  destruct (m w) as [[a | e] w1]; cbn [fst] in *; [apply Hm | apply Hh].
Qed.

End answers.

(** X20: the status, the type and the body of a response go together.
    Every request gets a response that is the empty 200 of the
    preflight; the page as [text/html], or the bare 404 for it; or JSON
    as [application/json], where a list of jobs and [{success: true}]
    come with 200, a job with 200 or 201, an error with 404 or 500, and
    a body [null] with 201 only.  The types [text/javascript], [text/css]
    and [text/plain] of [getMimeType] are never sent. *)
Theorem responses_are_well_formed (req : IncomingMessage) (w : World) :
  ∃ resp, (server req w).1 = Returned resp ∧ well_formed resp.
Proof.
  destruct (returns_server req w) as [resp E]. exists resp. split; [exact E |].
  revert w resp E. change (answers well_formed (server req)). unfold server.
  destruct (String.eqb (req_method req) "OPTIONS");
    [by apply answers_ret |].
  apply answers_try_catch.
  2: { intros e. apply answers_bind. intros _. apply answers_ret.
       split; [done |]. by right. }
  repeat match goal with
         | |- answers _ (if ?c then _ else _) => destruct c
         end.
  - intros v r. unfold serveStaticFile.
    destruct (asset v); intros [= <-]; [by left | by right].
  - apply answers_bind. intros jobs. by apply answers_ret.
  - apply answers_bind. intros [j |]; apply answers_ret; split; try done.
    + by left.
    + left. split; [done | by left].
  - apply answers_bind. intros job. apply answers_bind.
    intros [j |]; apply answers_ret; split; try done. by right.
  - apply answers_bind. intros job. apply answers_bind.
    intros [j |]; apply answers_ret; split; try done.
    + by left.
    + left. split; [done | by left].
  - apply answers_bind. intros _. by apply answers_ret.
  - apply answers_bind. intros _. by apply answers_ret.
  - apply answers_ret. split; [done |]. left. split; [done | by right].
Qed.

(** ** A body that does not parse *)

(** X22: a [POST /api/jobs] or a [PUT /api/jobs/{id}] whose body is not
    JSON is answered 500 [Internal server error], with the error of
    [readBody] logged as a [Request error:]; the repository is not
    called: the clock is not read, no exchange is made with the store
    and the table is as it was. *)
Theorem unparsable_body_is_rejected (req : IncomingMessage) (w : World) :
  req_body req = None →
  (req_method req = "POST" ∧ pathname req = "/api/jobs")
  ∨ (req_method req = "PUT" ∧ String.prefix "/api/jobs/" (pathname req) = true) →
  ∃ err, readBody req w = (Thrown err, w)
         ∧ server req w
           = (Returned (json 500 (ErrorJson "Internal server error")),
              logged (console_error_line "Request error:" err) w).
Proof.
  destruct req as [m p b]. cbn [req_method pathname req_body].
  intros -> R. eexists. split; [reflexivity |].
  unfold server. cbn [req_method pathname req_body].
  destruct R as [[-> ->] | [-> P]]; [reflexivity |].
  destruct (prefix_api_jobs p P) as [E1 E2].
  rewrite E1, E2, P, (prefix_not_api_jobs p P).
  reflexivity.
Qed.

Lemma unparsable_body_is_rejected_witness :
  table (server {| req_method := "PUT"; pathname := "/api/jobs/J1";
                   req_body := None |} stale).2 = table stale.
Proof.
  destruct (unparsable_body_is_rejected
              {| req_method := "PUT"; pathname := "/api/jobs/J1";
                 req_body := None |} stale eq_refl
              (or_intror (conj eq_refl eq_refl))) as (err & _ & E).
  rewrite E. reflexivity.
Defined.
